(** * The symbol store and type aggregate of intelephense, embedded in Rocq

    Sources embedded here:
    - [src/symbolStore.ts]: [SymbolTable], [ScopedVariablePruneVisitor],
      [SymbolStore], [KeyedHashedStartLocation], [IndexableSymbolVisitor];
    - [typeAggregate.ts] (the unnamed part 000): [MemberMergeStrategy],
      [TypeAggregate];
    - [intelephense.ts] (the unnamed part 001), for the way [openDocument],
      [closeDocument], [discoverSymbols] and [forget] drive the store;
    - [src/types.ts]: [BinarySearch] and [SuffixArray].

    The modules [./symbol], [./types] (as imported by [symbolStore.ts]),
    [./typeString] and [./uriMap] are not part of the sources at hand; what
    the store needs of them is modelled from the specification and marked
    so.  A JavaScript object is a value with a key [oid] for its identity;
    a call that may throw returns a [Result]. *)

From Stdlib Require Import ZArith Ascii String List Lia Bool.
From stdpp Require Import base option list gmap strings fin_maps sorting.

Local Open Scope string_scope.
Local Open Scope list_scope.
Local Open Scope Z_scope.

(** ** JavaScript strings

    A string is a sequence of 8-bit code units; [toLowerCase] folds the
    letters [A]..[Z], which is what it does on the ASCII range. *)

Module Js.

Definition lowerChar (c : ascii) : ascii :=
  let n := nat_of_ascii c in
  if (Nat.leb 65 n && Nat.leb n 90)%bool then ascii_of_nat (n + 32) else c.

Fixpoint toLowerCase (s : string) : string :=
  match s with
  | EmptyString => EmptyString
  | String c r => String (lowerChar c) (toLowerCase r)
  end.

(** [s.split(sep)] for a one-character separator. *)
Fixpoint split_go (sep : ascii) (cur : string) (s : string) : list string :=
  match s with
  | EmptyString => [String.rev cur]
  | String c r =>
      if Ascii.eqb c sep then String.rev cur :: split_go sep EmptyString r
      else split_go sep (String c cur) r
  end.

Definition split (sep : ascii) (s : string) : list string :=
  split_go sep EmptyString s.

Definition nonEmpty (s : string) : bool :=
  match s with EmptyString => false | _ => true end.

(** White space removed by [trim], on the ASCII range. *)
Definition isSpace (c : ascii) : bool :=
  let n := nat_of_ascii c in
  (Nat.eqb n 32 || (Nat.leb 9 n && Nat.leb n 13))%bool.

Fixpoint trimStart (s : string) : string :=
  match s with
  | String c r => if isSpace c then trimStart r else s
  | EmptyString => EmptyString
  end.

Definition trim (s : string) : string :=
  String.rev (trimStart (String.rev (trimStart s))).

(** [Array.from(new Set(xs))] for objects: the first occurrence of every
    object, in insertion order.  Objects are compared by identity, which
    the embedding carries as a key [id]. *)
Section SetOfObjects.

Context {A : Type} (id : A → nat).

Definition has (seen : list A) (x : A) : bool :=
  existsb (λ y, Nat.eqb (id y) (id x)) seen.

Definition setAdd (seen : list A) (x : A) : list A :=
  if has seen x then seen else seen ++ [x].

Definition setAddAll (seen : list A) (xs : list A) : list A :=
  foldl setAdd seen xs.

Definition arrayFromSet (xs : list A) : list A := setAddAll [] xs.

End SetOfObjects.

End Js.

(** ** [./symbol]: kinds, modifiers, symbols *)

(** Modelled from the spec: the closed enum [SymbolKind] of [./symbol].
    The code tests kinds with bit masks; the bit of each kind is that of
    the compiled library, which inlines Class = 1, Interface = 2, Trait = 4,
    Constant = 8 and Function = 64. *)
Module SymbolKind.

Inductive t :=
  | None | Class | Interface | Trait | Constant | Property | Method
  | Function | Parameter_ | Variable_ | Namespace | ClassConstant
  | Constructor | File.

Definition bits (k : t) : Z :=
  match k with
  | None => 0
  | Class => 1
  | Interface => 2
  | Trait => 4
  | Constant => 8
  | Property => 16
  | Method => 32
  | Function => 64
  | Parameter_ => 128
  | Variable_ => 256
  | Namespace => 512
  | ClassConstant => 1024
  | Constructor => 2048
  | File => 4096
  end.

#[global] Instance eq_dec : EqDecision t.
Proof. solve_decision. Defined.

End SymbolKind.

(** Modelled from the spec: the modifier bit-set of [./symbol]. *)
Module SymbolModifier.

Definition Public : Z := 1.
Definition Protected : Z := 2.
Definition Private : Z := 4.
Definition Final : Z := 8.
Definition Abstract : Z := 16.
Definition Static : Z := 32.
Definition Magic : Z := 256.
Definition Anonymous : Z := 512.
Definition Use : Z := 4096.

End SymbolModifier.

Record Position := mkPosition { line : Z; character : Z }.

Record Range := mkRange { start : Position; end_ : Position }.

Record HashedLocation := mkHashedLocation { uriHash : Z; range : Range }.

Record PhpSymbolDoc := mkDoc { description : string }.

(** An entry of [associated]: kind and name only, resolved by lookup. *)
Record Stub := mkStub { stubKind : SymbolKind.t; stubName : string }.

(** Modelled from the spec: the [PhpSymbol] tree node of [./symbol].
    [oid] is the identity of the JavaScript object ([===], [indexOf],
    [Set] membership); an absent [children] or [associated] array is the
    empty list, which every reader of these fields treats alike, and
    [modifiers] is the bit-set itself, empty when no modifier is set. *)
#[warnings="-register-all"]
Inductive PhpSymbol := mkPhpSymbol {
  oid : nat;
  kind : SymbolKind.t;
  name : string;
  modifiers : Z;
  scope : option string;
  type : option string;
  doc : option PhpSymbolDoc;
  associated : list Stub;
  children : list PhpSymbol;
  location : option HashedLocation
}.

#[global] Instance Position_eq_dec : EqDecision Position.
Proof. solve_decision. Defined.

(** [s.kind & mask] as a truth value. *)
Definition kindIn (s : PhpSymbol) (mask : Z) : bool :=
  0 <? Z.land (SymbolKind.bits (kind s)) mask.

Definition hasModifier (s : PhpSymbol) (m : Z) : bool :=
  0 <? Z.land (modifiers s) m.

Definition classLikeMask : Z :=
  Z.lor (SymbolKind.bits SymbolKind.Class)
    (Z.lor (SymbolKind.bits SymbolKind.Interface) (SymbolKind.bits SymbolKind.Trait)).

Module PhpSymbolNs.

(** Modelled from the spec: [PhpSymbol.isClassLike], the filter "class-like
    kinds" of the lookups. *)
Definition isClassLike (s : PhpSymbol) : bool := kindIn s classLikeMask.

(** Modelled from the spec: [PhpSymbol.keys] for a symbol that is not a
    namespace, "its full case-folded name". *)
Definition keys (s : PhpSymbol) : list string := [Js.toLowerCase (name s)].

End PhpSymbolNs.

(** ** [./types]: tree traversal *)

(** Modelled from the spec: [TreeTraverser], the "generic pre-order walk"
    over a symbol tree.  [toArray] lists the nodes (the root first),
    [count] counts them, [filter] collects the matches and [find] returns
    the first one. *)
Module TreeTraverser.

Fixpoint toArray (s : PhpSymbol) : list PhpSymbol :=
  s :: (fix walk (cs : list PhpSymbol) : list PhpSymbol :=
          match cs with
          | [] => []
          | c :: cs' => toArray c ++ walk cs'
          end) (children s).

Definition count (s : PhpSymbol) : Z := Z.of_nat (length (toArray s)).

Definition filter (p : PhpSymbol → bool) (s : PhpSymbol) : list PhpSymbol :=
  List.filter p (toArray s).

Definition find (p : PhpSymbol → bool) (s : PhpSymbol) : option PhpSymbol :=
  head (filter p s).

End TreeTraverser.

Definition positionEquality (p q : Position) : bool :=
  (line p =? line q) && (character p =? character q).

(** Modelled from the spec: [FindByStartPositionTraverser.find], the
    "position-indexed search into the owning table", a "search by start
    position": the first node, in walk order, whose range starts at [pos]. *)
Module FindByStartPositionTraverser.

Definition startsAt (pos : Position) (s : PhpSymbol) : bool :=
  match location s with
  | Some l => positionEquality (start (range l)) pos
  | None => false
  end.

Definition find (pos : Position) (root : PhpSymbol) : option PhpSymbol :=
  TreeTraverser.find (startsAt pos) root.

End FindByStartPositionTraverser.

(** ** Exceptions

    A call either returns a value or throws; the state a throwing call
    leaves behind is kept by the callers that mutate. *)

Inductive Error := TypeError | InvalidArgument | DuplicateKey.

Inductive Result (A : Type) :=
  | Ok (a : A)
  | Throw (e : Error).

Arguments Ok {A} a.
Arguments Throw {A} e.

Definition bind {A B} (r : Result A) (k : A → Result B) : Result B :=
  match r with
  | Ok a => k a
  | Throw e => Throw e
  end.

Notation "'let*' x ':=' r 'in' k" := (bind r (λ x, k))
  (at level 10, x name, r at level 100, k at level 200).

Fixpoint mapM {A B} (f : A → Result B) (l : list A) : Result (list B) :=
  match l with
  | [] => Ok []
  | x :: l' =>
      let* y := f x in
      let* ys := mapM f l' in
      Ok (y :: ys)
  end.

(** ** [./uriMap] *)

(** Modelled from the spec: [uriMap.id], the "stable URI↔integer-hash
    mapping service"; distinct URIs get distinct numbers. *)
Module uriMap.

Definition id (uri : string) : Z := Z.pos (encode uri).

End uriMap.

(** ** [symbolStore.ts]: the symbol table *)

Module SymbolTable.

Record t := mk { uri : string; root : PhpSymbol }.

Definition symbols (T : t) : list PhpSymbol :=
  tail (TreeTraverser.toArray (root T)).

Definition symbolCount (T : t) : Z := TreeTraverser.count (root T) - 1.

End SymbolTable.

Module ScopedVariablePruneVisitor.

Definition _isNotVar (s : PhpSymbol) : bool :=
  negb (bool_decide (kind s = SymbolKind.Variable_)).

(** [preorder] replaces the children of a Function or Method node by those
    that are not variables; the walk then goes on into the children that
    are left. *)
Fixpoint prune (s : PhpSymbol) : PhpSymbol :=
  let prunable :=
    bool_decide (kind s = SymbolKind.Function) || bool_decide (kind s = SymbolKind.Method) in
  let kept :=
    (fix walk (cs : list PhpSymbol) : list PhpSymbol :=
       match cs with
       | [] => []
       | c :: cs' =>
           if prunable && negb (_isNotVar c) then walk cs' else prune c :: walk cs'
       end) (children s) in
  mkPhpSymbol (oid s) (kind s) (name s) (modifiers s) (scope s) (type s) (doc s)
    (associated s) kept (location s).

End ScopedVariablePruneVisitor.

Definition pruneScopedVars (T : SymbolTable.t) : SymbolTable.t :=
  SymbolTable.mk (SymbolTable.uri T) (ScopedVariablePruneVisitor.prune (SymbolTable.root T)).

(** ** [symbolStore.ts]: index items *)

(** [location.range.start] *)
Definition rangeStart (l : HashedLocation) : Position := start (range l).

Module HashedStartLocation.

Record t := mk { uriHash : Z; start : Position }.

#[global] Instance eq_dec : EqDecision t.
Proof. solve_decision. Defined.

End HashedStartLocation.

Module KeyedHashedStartLocation.

Record t := mk { keys : list string; start : HashedStartLocation.t }.

(** [Set.prototype.add.apply(keys, segments)] passes the segments as the
    arguments of one call of [add], which takes the first and ignores the
    others; of no segment at all it takes [undefined], known to a string
    comparison as ["undefined"]. *)
Definition namespaceKeys (lcName : string) : list string :=
  let segments := List.filter Js.nonEmpty (Js.split "\" lcName) in
  let added := match segments with [] => "undefined" | seg :: _ => seg end in
  if String.eqb added lcName then [lcName] else [lcName; added].

Definition symbolKeys (s : PhpSymbol) : list string :=
  if bool_decide (kind s = SymbolKind.Namespace)
  then namespaceKeys (Js.toLowerCase (name s))
  else PhpSymbolNs.keys s.

(** [s.location.uriHash] throws on a symbol without a location. *)
Definition create (s : PhpSymbol) : Result t :=
  match location s with
  | Some l => Ok (mk (symbolKeys s) (HashedStartLocation.mk (uriHash l) (rangeStart l)))
  | None => Throw TypeError
  end.

End KeyedHashedStartLocation.

Module IndexableSymbolVisitor.

Definition excludedKinds : Z :=
  Z.lor (SymbolKind.bits SymbolKind.Parameter_)
    (Z.lor (SymbolKind.bits SymbolKind.File) (SymbolKind.bits SymbolKind.Variable_)).

(** The test of [preorder]; the walk visits every node. *)
Definition indexable (node : PhpSymbol) : bool :=
  negb (kindIn node excludedKinds)
  && negb (hasModifier node SymbolModifier.Use)
  && Js.nonEmpty (name node).

Definition nodes (root : PhpSymbol) : list PhpSymbol :=
  TreeTraverser.filter indexable root.

Definition items (root : PhpSymbol) : Result (list KeyedHashedStartLocation.t) :=
  mapM KeyedHashedStartLocation.create (nodes root).

End IndexableSymbolVisitor.

(** ** [./types]: the name index *)

(** Modelled from the spec: [NameIndex], "a name→locations multimap" from
    case-folded keys to buckets of location stubs.  [add] "inserts the
    location stub into every key's bucket", [remove] "is symmetric" (it
    takes one occurrence of the stub out of every key's bucket and drops
    a bucket that becomes empty), [find] "returns buckets whose key
    case-fold-equals [text]" and [match_] "the union of buckets whose key
    starts with the case-folded prefix", in key order. *)
Module NameIndex.

Abbreviation t := (gmap string (list HashedStartLocation.t)).

Definition bucket (idx : t) (key : string) : list HashedStartLocation.t :=
  default [] (idx !! key).

Definition addKey (item : HashedStartLocation.t) (idx : t) (key : string) : t :=
  <[key := bucket idx key ++ [item]]> idx.

Definition add (item : HashedStartLocation.t) (keys : list string) (idx : t) : t :=
  foldl (addKey item) idx keys.

Fixpoint removeFirst (item : HashedStartLocation.t) (items : list HashedStartLocation.t)
  : list HashedStartLocation.t :=
  match items with
  | [] => []
  | x :: rest => if decide (x = item) then rest else x :: removeFirst item rest
  end.

Definition removeKey (item : HashedStartLocation.t) (idx : t) (key : string) : t :=
  match idx !! key with
  | None => idx
  | Some items =>
      if decide (item ∈ items) then
        match removeFirst item items with
        | [] => delete key idx
        | items' => <[key := items']> idx
        end
      else idx
  end.

Definition remove (item : HashedStartLocation.t) (keys : list string) (idx : t) : t :=
  foldl (removeKey item) idx keys.

Definition find (text : string) (idx : t) : list HashedStartLocation.t :=
  bucket idx (Js.toLowerCase text).

Definition match_ (text : string) (idx : t) : list HashedStartLocation.t :=
  let lcText := Js.toLowerCase text in
  let nodes := merge_sort (λ a b, String.le a.1 b.1) (map_to_list idx) in
  flat_map snd (List.filter (λ node, String.prefix lcText node.1) nodes).

End NameIndex.

(** ** [symbolStore.ts]: the symbol store *)

Module SymbolStore.

Record t := mk {
  _tableIndex : gmap Z SymbolTable.t;
  _symbolIndex : NameIndex.t;
  _symbolCount : Z
}.

(** [new SymbolStore()] *)
Definition empty : t := mk ∅ ∅ 0.

Definition getSymbolTable (store : t) (uri : string) : option SymbolTable.t :=
  _tableIndex store !! uriMap.id uri.

Definition symbolCount (store : t) : Z := _symbolCount store.

Definition addItems (indexItems : list KeyedHashedStartLocation.t) (idx : NameIndex.t)
  : NameIndex.t :=
  foldl (λ idx item,
           NameIndex.add (KeyedHashedStartLocation.start item)
             (KeyedHashedStartLocation.keys item) idx)
    idx indexItems.

Definition removeItems (indexItems : list KeyedHashedStartLocation.t) (idx : NameIndex.t)
  : NameIndex.t :=
  foldl (λ idx item,
           NameIndex.remove (KeyedHashedStartLocation.start item)
             (KeyedHashedStartLocation.keys item) idx)
    idx indexItems.

(** [remove] and [add] return the outcome of the call together with the
    store as the call leaves it, also when it throws half way. *)
Definition remove (store : t) (uri : string) : Result unit * t :=
  let id := uriMap.id uri in
  match _tableIndex store !! id with
  | None => (Ok (), store)
  | Some symbolTable =>
      let store1 :=
        mk (delete id (_tableIndex store)) (_symbolIndex store) (_symbolCount store) in
      match IndexableSymbolVisitor.items (SymbolTable.root symbolTable) with
      | Throw e => (Throw e, store1)
      | Ok indexItems =>
          (Ok (),
           mk (_tableIndex store1)
              (removeItems indexItems (_symbolIndex store1))
              (_symbolCount store1 - SymbolTable.symbolCount symbolTable))
      end
  end.

Definition add (store : t) (symbolTable : SymbolTable.t) : Result unit * t :=
  match remove store (SymbolTable.uri symbolTable) with
  | (Throw e, store1) => (Throw e, store1)
  | (Ok _, store1) =>
      let id := uriMap.id (SymbolTable.uri symbolTable) in
      let store2 :=
        mk (<[id := symbolTable]> (_tableIndex store1)) (_symbolIndex store1)
           (_symbolCount store1) in
      match IndexableSymbolVisitor.items (SymbolTable.root symbolTable) with
      | Throw e => (Throw e, store2)
      | Ok indexItems =>
          (Ok (),
           mk (_tableIndex store2)
              (addItems indexItems (_symbolIndex store2))
              (_symbolCount store2 + SymbolTable.symbolCount symbolTable))
      end
  end.

(** [symbolTable.pruneScopedVars()] on the table the store holds for
    [uri]: the store and the caller share the table object, so the store
    sees the pruned tree. *)
Definition pruneScopedVarsOf (store : t) (uri : string) : t :=
  match getSymbolTable store uri with
  | Some symbolTable =>
      mk (<[uriMap.id uri := pruneScopedVars symbolTable]> (_tableIndex store))
         (_symbolIndex store) (_symbolCount store)
  | None => store
  end.

(** [table.root] throws when no table is registered under the stub's
    [uriHash]. *)
Fixpoint resolveInto (store : t) (symbols : list PhpSymbol)
    (results : list HashedStartLocation.t) : Result (list PhpSymbol) :=
  match results with
  | [] => Ok symbols
  | item :: rest =>
      match _tableIndex store !! HashedStartLocation.uriHash item with
      | None => Throw TypeError
      | Some table =>
          match FindByStartPositionTraverser.find (HashedStartLocation.start item)
                  (SymbolTable.root table) with
          | Some s => resolveInto store (Js.setAdd oid symbols s) rest
          | None => resolveInto store symbols rest
          end
      end
  end.

Definition _indexResultToSymbols (store : t) (results : list HashedStartLocation.t)
  : Result (list PhpSymbol) :=
  resolveInto store [] results.

Definition passes (filter : option (PhpSymbol → bool)) (s : PhpSymbol) : bool :=
  match filter with
  | Some f => f s
  | None => true
  end.

Definition exactKindMask : Z :=
  Z.lor (SymbolKind.bits SymbolKind.Constant) (SymbolKind.bits SymbolKind.Variable_).

Definition nameMatches (text : string) (s : PhpSymbol) : bool :=
  (kindIn s exactKindMask && String.eqb (name s) text)
  || (negb (kindIn s exactKindMask)
      && String.eqb (Js.toLowerCase (name s)) (Js.toLowerCase text)).

Definition find (store : t) (text : string) (filter : option (PhpSymbol → bool))
  : Result (list PhpSymbol) :=
  if negb (Js.nonEmpty text) then Ok []
  else
    let* result := _indexResultToSymbols store (NameIndex.find text (_symbolIndex store)) in
    Ok (List.filter (λ s, passes filter s && nameMatches text s) result).

Definition match_ (store : t) (text : string) (filter : option (PhpSymbol → bool))
  : Result (list PhpSymbol) :=
  if negb (Js.nonEmpty text) then Ok []
  else
    let* matches := _indexResultToSymbols store (NameIndex.match_ text (_symbolIndex store)) in
    match filter with
    | None => Ok matches
    | Some f => Ok (List.filter f matches)
    end.

End SymbolStore.

(** ** [./typeString] *)

Module TypeString.

(** Modelled from the spec: [TypeString.atomicClassArray] "splits
    [scopeTypeName] (a type-string, possibly a union) into atomic class
    names": the non-empty parts between the bars of the union. *)
Definition atomicClassArray (typeString : string) : list string :=
  List.filter Js.nonEmpty (Js.split "|" typeString).

End TypeString.

(** ** [typeAggregate.ts] *)

Module MemberMergeStrategy.

Inductive t := None | Override | Documented | Base.

#[global] Instance eq_dec : EqDecision t.
Proof. solve_decision. Defined.

End MemberMergeStrategy.

(** The object [map] of [_mergeMembers], [{ [index: string]: PhpSymbol }]:
    its own properties in creation order, which is the order of
    [Object.keys] for keys that are not array indices (a member name is an
    identifier or a [$]-name, never an array index).  A key that is not
    an own property is still found when [Object.prototype] has it.
    Assigning to [__proto__] creates no own property; the change of
    prototype it makes instead is not followed here, so that a member
    list with that name is outside the model. *)
Module JsObject.

Definition t := list (string * PhpSymbol).

Definition prototypeKeys : list string :=
  [ "constructor"; "toString"; "toLocaleString"; "valueOf"; "hasOwnProperty";
    "isPrototypeOf"; "propertyIsEnumerable"; "__proto__"; "__defineGetter__";
    "__defineSetter__"; "__lookupGetter__"; "__lookupSetter__" ].

Inductive value :=
  | Own (s : PhpSymbol)
  | Inherited
  | Undefined.

Fixpoint own (o : t) (key : string) : option PhpSymbol :=
  match o with
  | [] => Datatypes.None
  | (k, s) :: o' => if String.eqb k key then Some s else own o' key
  end.

Definition get (o : t) (key : string) : value :=
  match own o key with
  | Some s => Own s
  | Datatypes.None => if existsb (String.eqb key) prototypeKeys then Inherited else Undefined
  end.

Fixpoint put (o : t) (key : string) (s : PhpSymbol) : t :=
  match o with
  | [] => [(key, s)]
  | (k, s') :: o' => if String.eqb k key then (k, s) :: o' else (k, s') :: put o' key s
  end.

Definition set (o : t) (key : string) (s : PhpSymbol) : t :=
  if String.eqb key "__proto__" then o else put o key s.

(** [Object.keys(map).map(v => map[v])] *)
Definition values (o : t) : list PhpSymbol := map snd o.

End JsObject.

(** ** Every node of every registered table *)

Definition tables (store : SymbolStore.t) : list SymbolTable.t :=
  map snd (map_to_list (SymbolStore._tableIndex store)).

Definition allNodes (store : SymbolStore.t) : list PhpSymbol :=
  flat_map (λ T, TreeTraverser.toArray (SymbolTable.root T)) (tables store).

(** The stubs that the loop of [_getAssociated] may still have to take
    from its queue on account of symbols it has not resolved yet. *)
Definition pending (store : SymbolStore.t) (associated_ : list PhpSymbol) : nat :=
  list_sum
    (map (λ n, if Js.has oid associated_ n then O else S (length (associated n)))
       (allNodes store)).

Definition associatedFuel (store : SymbolStore.t) (symbol : PhpSymbol) : nat :=
  S (length (associated symbol) + pending store []).

Lemma registered_nodes store id T n :
  SymbolStore._tableIndex store !! id = Some T →
  n ∈ TreeTraverser.toArray (SymbolTable.root T) →
  n ∈ allNodes store.
Proof.
  intros HT Hn. unfold allNodes, tables.
  apply list_elem_of_In, in_flat_map. exists T. split.
  - apply list_elem_of_In, list_elem_of_fmap. exists (id, T). split; [done|].
    by apply elem_of_map_to_list.
  - by apply list_elem_of_In.
Qed.

Lemma traverser_find_elem p root n :
  TreeTraverser.find p root = Some n →
  n ∈ TreeTraverser.toArray root ∧ p n = true.
Proof.
  unfold TreeTraverser.find, TreeTraverser.filter. intros H.
  assert (Hin : In n (List.filter p (TreeTraverser.toArray root))).
  { destruct (List.filter p (TreeTraverser.toArray root)); simplify_eq/=. by left. }
  apply filter_In in Hin as [? ?]. split; [by apply list_elem_of_In | done].
Qed.

Lemma setAdd_elem {A} (id : A → nat) seen x y :
  y ∈ Js.setAdd id seen x → y ∈ seen ∨ y = x.
Proof.
  unfold Js.setAdd. destruct (Js.has id seen x); [by left|].
  rewrite elem_of_app, list_elem_of_singleton. tauto.
Qed.

Lemma resolveInto_nodes store results : ∀ symbols l,
  SymbolStore.resolveInto store symbols results = Ok l →
  ∀ n, n ∈ l → n ∈ symbols ∨ n ∈ allNodes store.
Proof.
  induction results as [|item rest IH]; intros symbols l H n Hn; simpl in H.
  - simplify_eq. by left.
  - destruct (SymbolStore._tableIndex store !! HashedStartLocation.uriHash item)
      as [table|] eqn:HT; [|done].
    destruct (FindByStartPositionTraverser.find _ _) as [s|] eqn:Hs.
    + destruct (IH _ _ H n Hn) as [Hin|Hin]; [|by right].
      apply setAdd_elem in Hin as [Hin| ->]; [by left|right].
      apply traverser_find_elem in Hs as [Hs _].
      eauto using registered_nodes.
    + eauto.
Qed.

Lemma find_nodes store text filter l n :
  SymbolStore.find store text filter = Ok l → n ∈ l → n ∈ allNodes store.
Proof.
  unfold SymbolStore.find, SymbolStore._indexResultToSymbols.
  destruct (negb (Js.nonEmpty text)).
  - intros [= <-] Hn. by apply elem_of_nil in Hn.
  - destruct (SymbolStore.resolveInto _ _ _) as [result|] eqn:Hr; simpl; [|done].
    intros [= <-] Hn. apply list_elem_of_In, filter_In in Hn as [Hn _].
    apply list_elem_of_In in Hn.
    destruct (resolveInto_nodes _ _ _ _ Hr n Hn) as [Hnil|]; [|done].
    by apply elem_of_nil in Hnil.
Qed.

Lemma has_app (seen : list PhpSymbol) x n :
  Js.has oid (seen ++ [x]) n = Js.has oid seen n || Nat.eqb (oid x) (oid n).
Proof. unfold Js.has. rewrite existsb_app. simpl. by rewrite orb_false_r. Qed.

Lemma has_false_not_in (seen : list PhpSymbol) x :
  Js.has oid seen x = false → oid x ∉ map oid seen.
Proof.
  unfold Js.has. intros H Hin. apply list_elem_of_fmap in Hin as (y & Hy & Hin).
  apply not_true_iff_false in H. apply H, existsb_exists.
  exists y. split; [by apply list_elem_of_In|]. apply Nat.eqb_eq. done.
Qed.

Lemma pending_push_list (nodes : list PhpSymbol) seen x :
  (list_sum (map (λ n, if Js.has oid (seen ++ [x]) n then O else S (length (associated n))) nodes)
   ≤ list_sum (map (λ n, if Js.has oid seen n then O else S (length (associated n))) nodes))%nat.
Proof.
  induction nodes as [|n nodes IH]; simpl; [lia|].
  rewrite has_app. destruct (Js.has oid seen n); simpl; [lia|].
  destruct (Nat.eqb (oid x) (oid n)); lia.
Qed.

Lemma pending_push store seen x :
  x ∈ allNodes store → Js.has oid seen x = false →
  (pending store (seen ++ [x]) + S (length (associated x)) ≤ pending store seen)%nat.
Proof.
  unfold pending. intros Hx Hseen.
  induction (allNodes store) as [|n nodes IH]; [by apply elem_of_nil in Hx|].
  apply elem_of_cons in Hx as [<-|Hx]; simpl.
  - rewrite has_app, Hseen, Nat.eqb_refl. simpl.
    pose proof (pending_push_list nodes seen x). lia.
  - specialize (IH Hx). rewrite has_app.
    destruct (Js.has oid seen n); simpl; [lia|].
    destruct (Nat.eqb (oid x) (oid n)); lia.
Qed.

Module TypeAggregate.

Record t := mk {
  symbolStore : SymbolStore.t;
  _symbol : PhpSymbol;
  _excludeTraits : bool
}.

(** The constructor; [symbol] may be null or undefined. *)
Definition new (symbolStore : SymbolStore.t) (symbol : option PhpSymbol)
    (excludeTraits : bool) : Result t :=
  match symbol with
  | Some s =>
      if negb (kindIn s classLikeMask) then Throw InvalidArgument
      else Ok (mk symbolStore s excludeTraits)
  | Datatypes.None => Throw InvalidArgument
  end.

Definition create (symbolStore : SymbolStore.t) (fqn : string) : Result (option t) :=
  if negb (Js.nonEmpty fqn) then Ok Datatypes.None
  else
    let* found := SymbolStore.find symbolStore fqn (Some PhpSymbolNs.isClassLike) in
    match head found with
    | Datatypes.None => Ok Datatypes.None
    | Some symbol =>
        let* type := new symbolStore (Some symbol) false in
        Ok (Some type)
    end.

(** The [while] loop of [_getAssociated], one turn per unit of [fuel];
    [Datatypes.None] when the fuel runs out before the queue is empty. *)
Fixpoint associatedLoop (fuel : nat) (store : SymbolStore.t) (excludeTraits : bool)
    (queue : list Stub) (associated_ : list PhpSymbol)
  : option (Result (list PhpSymbol)) :=
  match fuel with
  | O => Datatypes.None
  | S fuel' =>
      match queue with
      | [] => Some (Ok associated_)
      | stub :: queue' =>
          if excludeTraits && bool_decide (stubKind stub = SymbolKind.Trait)
          then associatedLoop fuel' store excludeTraits queue' associated_
          else
            match SymbolStore.find store (stubName stub) (Some PhpSymbolNs.isClassLike) with
            | Throw e => Some (Throw e)
            | Ok found =>
                match head found with
                | Datatypes.None =>
                    associatedLoop fuel' store excludeTraits queue' associated_
                | Some symbol =>
                    if Js.has oid associated_ symbol
                    then associatedLoop fuel' store excludeTraits queue' associated_
                    else associatedLoop fuel' store excludeTraits
                           (queue' ++ associated symbol) (associated_ ++ [symbol])
                end
            end
      end
  end.

(** *** Termination of the resolution loop *)

Lemma associatedLoop_returns store excludeTraits : ∀ fuel queue seen,
  (length queue + pending store seen < fuel)%nat →
  ∃ r, associatedLoop fuel store excludeTraits queue seen = Some r.
Proof.
  induction fuel as [|fuel IH]; intros queue seen Hfuel; [lia|].
  destruct queue as [|stub queue]; simpl; [eauto|]. simpl in Hfuel.
  destruct (excludeTraits && bool_decide (stubKind stub = SymbolKind.Trait)).
  { apply IH. lia. }
  destruct (SymbolStore.find store (stubName stub) _) as [found|e] eqn:Hfind; [|eauto].
  destruct found as [|symbol found]; simpl.
  { apply IH. lia. }
  destruct (Js.has oid seen symbol) eqn:Hseen.
  { apply IH. lia. }
  apply IH. rewrite length_app.
  assert (symbol ∈ allNodes store) as Hin.
  { eapply find_nodes; [exact Hfind | by left]. }
  pose proof (pending_push store seen symbol Hin Hseen). lia.
Qed.

Lemma associatedLoop_fuel store symbol excludeTraits :
  associatedLoop (associatedFuel store symbol) store excludeTraits
    (associated symbol) [] ≠ None.
Proof.
  destruct (associatedLoop_returns store excludeTraits (associatedFuel store symbol)
              (associated symbol) []) as [r Hr].
  - unfold associatedFuel. lia.
  - by rewrite Hr.
Qed.

(** More fuel than needed changes nothing. *)
Lemma associatedLoop_more store excludeTraits : ∀ fuel fuel' queue seen r,
  associatedLoop fuel store excludeTraits queue seen = Some r →
  (fuel ≤ fuel')%nat →
  associatedLoop fuel' store excludeTraits queue seen = Some r.
Proof.
  induction fuel as [|fuel IH]; intros fuel' queue seen r H Hle; [done|].
  destruct fuel' as [|fuel']; [lia|]. simpl in *.
  destruct queue as [|stub queue]; [done|].
  destruct (excludeTraits && bool_decide (stubKind stub = SymbolKind.Trait)).
  { apply IH; [done|lia]. }
  destruct (SymbolStore.find store (stubName stub) _) as [found|e]; [|done].
  destruct (head found) as [symbol|]; [|apply IH; [done|lia]].
  destruct (Js.has oid seen symbol); apply IH; done || lia.
Qed.

(** The loop never lists an object twice. *)
Lemma associatedLoop_NoDup store excludeTraits : ∀ fuel queue seen l,
  associatedLoop fuel store excludeTraits queue seen = Some (Ok l) →
  NoDup (map oid seen) → NoDup (map oid l).
Proof.
  induction fuel as [|fuel IH]; intros queue seen l H Hnd; [done|]. simpl in H.
  destruct queue as [|stub queue]; [by simplify_eq|].
  destruct (excludeTraits && bool_decide (stubKind stub = SymbolKind.Trait)); [eauto|].
  destruct (SymbolStore.find store (stubName stub) _) as [found|e]; [|done].
  destruct (head found) as [symbol|]; [|eauto].
  destruct (Js.has oid seen symbol) eqn:Hseen; [eauto|].
  eapply IH; [exact H|]. rewrite map_app. simpl.
  apply NoDup_app. split; [done|]. split.
  - intros x Hx Hx'. apply list_elem_of_singleton in Hx' as ->.
    by apply has_false_not_in in Hseen.
  - apply NoDup_singleton.
Qed.

(** [_getAssociated]: the loop run until the queue is empty.  (The array
    is cached in [_associated]; the store does not change during the
    life of an aggregate, so a later call returns the same array.) *)
Definition _getAssociated (type : t) : Result (list PhpSymbol) :=
  match associatedLoop (associatedFuel (symbolStore type) (_symbol type))
          (symbolStore type) (_excludeTraits type) (associated (_symbol type)) []
        as o return o ≠ Datatypes.None → Result (list PhpSymbol) with
  | Some r => λ _, r
  | Datatypes.None => λ H, False_rect _ (H eq_refl)
  end (associatedLoop_fuel (symbolStore type) (_symbol type) (_excludeTraits type)).

Definition associated_ (type : t) (filter : option (PhpSymbol → bool))
  : Result (list PhpSymbol) :=
  let* assoc := _getAssociated type in
  match filter with
  | Some f => Ok (List.filter f assoc)
  | Datatypes.None => Ok assoc
  end.

Definition applyPredicate (predicate : option (PhpSymbol → bool))
    (symbols : list PhpSymbol) : list PhpSymbol :=
  match predicate with
  | Some p => List.filter p symbols
  | Datatypes.None => symbols
  end.

Definition _interfaceMembers (interfaces : list PhpSymbol)
    (predicate : option (PhpSymbol → bool)) : list PhpSymbol :=
  flat_map (λ s, applyPredicate predicate (children s)) interfaces.

Definition _traitMembers (traits : list PhpSymbol)
    (predicate : option (PhpSymbol → bool)) : list PhpSymbol :=
  _interfaceMembers traits predicate.

Definition hasInheritdoc (description : string) : bool :=
  if negb (Js.nonEmpty description) then false
  else
    let description := Js.trim (Js.toLowerCase description) in
    String.eqb description "@inheritdoc" || String.eqb description "{@inheritdoc}".

(** The test of [_mergeMembers] for [map[s.name] = s]. *)
Definition replaces (strategy : MemberMergeStrategy.t) (mapped : JsObject.value)
    (s : PhpSymbol) : bool :=
  match mapped with
  | JsObject.Undefined => true
  | JsObject.Inherited =>
      (bool_decide (strategy = MemberMergeStrategy.Documented) && bool_decide (is_Some (doc s)))
      || bool_decide (strategy = MemberMergeStrategy.Base)
  | JsObject.Own mapped =>
      (hasModifier mapped SymbolModifier.Magic && negb (hasModifier s SymbolModifier.Magic))
      || (bool_decide (strategy = MemberMergeStrategy.Documented)
          && match doc mapped with
             | Some d => hasInheritdoc (description d)
             | Datatypes.None => true
             end
          && bool_decide (is_Some (doc s)))
      || bool_decide (strategy = MemberMergeStrategy.Base)
  end.

Definition mergeStep (strategy : MemberMergeStrategy.t) (map : JsObject.t) (s : PhpSymbol)
  : JsObject.t :=
  if replaces strategy (JsObject.get map (name s)) s
  then JsObject.set map (name s) s
  else map.

Definition _mergeMembers (symbols : list PhpSymbol) (strategy : MemberMergeStrategy.t)
  : list PhpSymbol :=
  if bool_decide (strategy = MemberMergeStrategy.None) then symbols
  else JsObject.values (foldl (mergeStep strategy) [] symbols).

Definition noPrivate (predicate : option (PhpSymbol → bool)) (x : PhpSymbol) : bool :=
  negb (hasModifier x SymbolModifier.Private) && SymbolStore.passes predicate x.

(** The [for] loop of [_classMembers]: the members gathered from the
    types that are not traits, and the traits; [p] is the caller's
    predicate for the first type and [noPrivate] from then on. *)
Fixpoint classLoop (associated_ : list PhpSymbol) (p : option (PhpSymbol → bool))
    (predicate : option (PhpSymbol → bool)) : list PhpSymbol * list PhpSymbol :=
  match associated_ with
  | [] => ([], [])
  | s :: rest =>
      let '(members, traits) := classLoop rest (Some (noPrivate predicate)) predicate in
      if bool_decide (kind s = SymbolKind.Trait) then (members, s :: traits)
      else (applyPredicate p (children s) ++ members, traits)
  end.

Definition _classMembers (associated_ : list PhpSymbol) (strategy : MemberMergeStrategy.t)
    (predicate : option (PhpSymbol → bool)) : list PhpSymbol :=
  let '(members, traits) := classLoop associated_ predicate predicate in
  _mergeMembers members strategy ++ _traitMembers traits (Some (noPrivate predicate)).

Definition members (type : t) (mergeStrategy : MemberMergeStrategy.t)
    (predicate : option (PhpSymbol → bool)) : Result (list PhpSymbol) :=
  let* assoc := _getAssociated type in
  let associated_ := _symbol type :: assoc in
  match kind (_symbol type) with
  | SymbolKind.Class => Ok (_classMembers associated_ mergeStrategy predicate)
  | SymbolKind.Interface => Ok (_interfaceMembers associated_ predicate)
  | SymbolKind.Trait => Ok (_traitMembers associated_ predicate)
  | _ => Ok []
  end.

End TypeAggregate.

(** ** [symbolStore.ts]: member lookup *)

(** [SymbolStore.findMembers] *)
Definition findMembers (store : SymbolStore.t) (scope : string)
    (memberMergeStrategy : MemberMergeStrategy.t)
    (predicate : option (PhpSymbol → bool)) : Result (list PhpSymbol) :=
  let fqnArray := TypeString.atomicClassArray scope in
  let* members :=
    (fix loop (fqns : list string) (members : list PhpSymbol) : Result (list PhpSymbol) :=
       match fqns with
       | [] => Ok members
       | fqn :: fqns' =>
           let* type := TypeAggregate.create store fqn in
           match type with
           | Some type =>
               let* found := TypeAggregate.members type memberMergeStrategy predicate in
               loop fqns' (members ++ found)
           | None => loop fqns' members
           end
       end) fqnArray [] in
  Ok (Js.arrayFromSet oid members).

Definition memberMask : Z :=
  Z.lor (SymbolKind.bits SymbolKind.Property)
    (Z.lor (SymbolKind.bits SymbolKind.Method) (SymbolKind.bits SymbolKind.ClassConstant)).

(** The predicate [fn] of [findBaseMember]. *)
Definition sameMember (symbol : PhpSymbol) (s : PhpSymbol) : bool :=
  bool_decide (kind s = kind symbol) && (modifiers s =? modifiers symbol)
  && if bool_decide (kind symbol = SymbolKind.Method)
     then String.eqb (Js.toLowerCase (name symbol)) (Js.toLowerCase (name s))
     else String.eqb (name symbol) (name s).

(** [SymbolStore.findBaseMember]; [symbol] may be null or undefined. *)
Definition findBaseMember (store : SymbolStore.t) (symbol : option PhpSymbol)
  : Result (option PhpSymbol) :=
  match symbol with
  | None => Ok None
  | Some sym =>
      match scope sym with
      | Some scopeName =>
          if negb (Js.nonEmpty scopeName) || negb (kindIn sym memberMask)
             || hasModifier sym SymbolModifier.Private
          then Ok symbol
          else
            let* found := findMembers store scopeName MemberMergeStrategy.Base
                            (Some (sameMember sym)) in
            match head found with
            | Some base => Ok (Some base)
            | None => Ok symbol
            end
      | None => Ok symbol
      end
  end.

(** ** [typeAggregate.ts]: what the merge keeps *)

(** The entries of the map are filed under the names of their members,
    one entry for a name. *)
Definition wellKeyed (o : JsObject.t) : Prop :=
  Forall (λ entry, name entry.2 = entry.1) o ∧ NoDup (map fst o).

Definition isMagic (s : PhpSymbol) : bool := hasModifier s SymbolModifier.Magic.

Definition named (key : string) (s : PhpSymbol) : bool := String.eqb (name s) key.

(** The member of the name [key] that the strategy Override keeps: the
    first one that is not magic, or the first one when all are magic. *)
Definition preferred (key : string) (symbols : list PhpSymbol) : option PhpSymbol :=
  match List.find (λ s, named key s && negb (isMagic s)) symbols with
  | Some s => Some s
  | None => List.find (named key) symbols
  end.

(** A doc comment that is more than [@inheritdoc]. *)
Definition hasOwnDoc (s : PhpSymbol) : bool :=
  match doc s with
  | Some d => negb (TypeAggregate.hasInheritdoc (description d))
  | None => false
  end.


(** ** [symbolStore.ts]: more of the table and of the store *)

Definition scopeSymbolMask : Z :=
  Z.lor (SymbolKind.bits SymbolKind.Class)
    (Z.lor (SymbolKind.bits SymbolKind.Interface)
       (Z.lor (SymbolKind.bits SymbolKind.Trait)
          (Z.lor (SymbolKind.bits SymbolKind.None)
             (Z.lor (SymbolKind.bits SymbolKind.Function)
                (SymbolKind.bits SymbolKind.Method))))).

(** [SymbolTable._isScopeSymbol] *)
Definition _isScopeSymbol (s : PhpSymbol) : bool := kindIn s scopeSymbolMask.

(** [SymbolTable.scopeSymbols] *)
Definition scopeSymbols (T : SymbolTable.t) : list PhpSymbol :=
  TreeTraverser.filter _isScopeSymbol (SymbolTable.root T).

(** [SymbolStore.tableCount]: [Object.keys(this._tableIndex).length]. *)
Definition tableCount (store : SymbolStore.t) : Z :=
  Z.of_nat (size (SymbolStore._tableIndex store)).

(** [Location] of the language server types. *)
Record Location := mkLocation { locationUri : string; locationRange : Range }.

(** [SymbolStore.symbolLocation]; [symbol.location.uriHash] throws on a
    symbol without a location. *)
Definition symbolLocation (store : SymbolStore.t) (symbol : PhpSymbol)
  : Result (option Location) :=
  match location symbol with
  | Some l =>
      Ok (match SymbolStore._tableIndex store !! uriHash l with
          | Some table => Some (mkLocation (SymbolTable.uri table) (range l))
          | None => None
          end)
  | None => Throw TypeError
  end.

(** [SymbolStore._indexFilter], the filter of [_indexSymbols], which no
    other method of the store calls. *)
Definition _indexFilter (s : PhpSymbol) : bool :=
  negb (kindIn s (Z.lor (SymbolKind.bits SymbolKind.Parameter_)
                    (SymbolKind.bits SymbolKind.File)))
  && negb (hasModifier s SymbolModifier.Use)
  && negb (bool_decide (kind s = SymbolKind.Variable_) && bool_decide (is_Some (location s)))
  && Js.nonEmpty (name s).

Definition _indexSymbols (root : PhpSymbol) : list PhpSymbol :=
  TreeTraverser.filter _indexFilter root.

(** ** [symbolStore.ts]: visitors of the table and references

    [util.isInRange] is not part of the sources at hand: the visitors
    and the functions that run them take it as [isInRange], and only ask
    whether its result is zero. *)

(** Modelled from the spec: the walk of [TreeTraverser.traverse], a
    "generic pre-order walk", for a visitor that has a [preorder] and no
    [postorder], as the visitors below are.  [preorder] returns whether
    the walk goes on into the children of the node, and the walk ends as
    soon as the visitor has set [haltTraverse].  The spine, which these
    visitors do not read, is left out. *)
Module TreeVisitor.

Section Traverse.

Context {V : Type}.

Variable haltTraverse : V → bool.
Variable preorder : V → PhpSymbol → bool * V.

Fixpoint traverse (treeNode : PhpSymbol) (visitor : V) : V :=
  if haltTraverse visitor then visitor
  else
    let '(descend, visitor) := preorder visitor treeNode in
    if haltTraverse visitor then visitor
    else if descend then
      (fix loop (cs : list PhpSymbol) (visitor : V) : V :=
         match cs with
         | [] => visitor
         | c :: cs' =>
             let visitor := traverse c visitor in
             if haltTraverse visitor then visitor else loop cs' visitor
         end) (children treeNode) visitor
    else visitor.

End Traverse.

End TreeVisitor.

Module ScopeVisitor.

Record t := mk {
  haltTraverse : bool;
  _scopeStack : list PhpSymbol;
  pos : Position;
  _absolute : bool
}.

Definition _kindMask : Z :=
  Z.lor (SymbolKind.bits SymbolKind.Class)
    (Z.lor (SymbolKind.bits SymbolKind.Interface)
       (Z.lor (SymbolKind.bits SymbolKind.Trait)
          (Z.lor (SymbolKind.bits SymbolKind.Function)
             (Z.lor (SymbolKind.bits SymbolKind.Method)
                (SymbolKind.bits SymbolKind.File))))).

Definition new (pos : Position) (absolute : bool) : t := mk false [] pos absolute.

(** [this._scopeStack[this._scopeStack.length - 1]] *)
Definition scope (visitor : t) : option PhpSymbol := last (_scopeStack visitor).

(** The test of [preorder] for [this._scopeStack.push(node)]. *)
Definition isScope (absolute : bool) (node : PhpSymbol) : bool :=
  kindIn node _kindMask
  && negb (hasModifier node SymbolModifier.Use)
  && (negb absolute
      || negb (bool_decide (kind node = SymbolKind.Function))
      || negb (hasModifier node SymbolModifier.Anonymous)).

Section Preorder.

Variable isInRange : Position → Range → Z.

Definition preorder (visitor : t) (node : PhpSymbol) : bool * t :=
  match location node with
  | Some l =>
      if line (pos visitor) <? line (rangeStart l)
      then (false, mk true (_scopeStack visitor) (pos visitor) (_absolute visitor))
      else if negb (isInRange (pos visitor) (range l) =? 0) then (false, visitor)
      else
        (true,
         if isScope (_absolute visitor) node
         then mk (haltTraverse visitor) (_scopeStack visitor ++ [node]) (pos visitor)
                (_absolute visitor)
         else visitor)
  | None => (false, visitor)
  end.

End Preorder.

End ScopeVisitor.

(** [SymbolTable.scope] and [SymbolTable.absoluteScope] *)
Definition tableScope (isInRange : Position → Range → Z) (T : SymbolTable.t)
    (pos : Position) : option PhpSymbol :=
  ScopeVisitor.scope
    (TreeVisitor.traverse ScopeVisitor.haltTraverse (ScopeVisitor.preorder isInRange)
       (SymbolTable.root T) (ScopeVisitor.new pos false)).

Definition absoluteScope (isInRange : Position → Range → Z) (T : SymbolTable.t)
    (pos : Position) : option PhpSymbol :=
  ScopeVisitor.scope
    (TreeVisitor.traverse ScopeVisitor.haltTraverse (ScopeVisitor.preorder isInRange)
       (SymbolTable.root T) (ScopeVisitor.new pos true)).

Module ContainsVisitor.

Record t := mk {
  haltTraverse : bool;
  found : bool;
  _symbol : PhpSymbol
}.

(** The constructor throws for a symbol without a location. *)
Definition new (symbol : PhpSymbol) : Result t :=
  match location symbol with
  | Some _ => Ok (mk false false symbol)
  | None => Throw InvalidArgument
  end.

Section Preorder.

Variable isInRange : Position → Range → Z.

(** [node === this._symbol] is the identity of the objects;
    [this._symbol.location] is there, the constructor has seen to it. *)
Definition preorder (visitor : t) (node : PhpSymbol) : bool * t :=
  if Nat.eqb (oid node) (oid (_symbol visitor))
  then (false, mk true true (_symbol visitor))
  else
    match location node, location (_symbol visitor) with
    | Some l, Some symbolLocation =>
        if negb (isInRange (rangeStart symbolLocation) (range l) =? 0)
        then (false, visitor) else (true, visitor)
    | _, _ => (true, visitor)
    end.

End Preorder.

End ContainsVisitor.

(** [SymbolTable.contains] *)
Definition contains (isInRange : Position → Range → Z) (T : SymbolTable.t)
    (s : PhpSymbol) : Result bool :=
  let* visitor := ContainsVisitor.new s in
  Ok (ContainsVisitor.found
        (TreeVisitor.traverse ContainsVisitor.haltTraverse
           (ContainsVisitor.preorder isInRange) (SymbolTable.root T) visitor)).

(** Modelled from the spec: the [Reference] of [./reference], "a
    use-site record [{kind, name, altName?, scope?, type?, location}]".
    An absent [altName] or [type] is [None]; an absent [scope] is the
    empty type-string, which names no class. *)
Module Reference.

Record t := mk {
  kind : SymbolKind.t;
  name : string;
  altName : option string;
  scope : string;
  type : option string;
  location : HashedLocation
}.

End Reference.

Definition variableMask : Z :=
  Z.lor (SymbolKind.bits SymbolKind.Parameter_) (SymbolKind.bits SymbolKind.Variable_).

(** [SymbolStore.findSymbolsByReference]; [ref] may be null, the
    strategy may be left out ([memberMergeStrategy || None]). *)
Definition findSymbolsByReference (isInRange : Position → Range → Z)
    (store : SymbolStore.t) (ref : option Reference.t)
    (memberMergeStrategy : option MemberMergeStrategy.t) : Result (list PhpSymbol) :=
  let strategy := default MemberMergeStrategy.None memberMergeStrategy in
  match ref with
  | None => Ok []
  | Some ref =>
      match Reference.kind ref with
      | SymbolKind.Class | SymbolKind.Interface | SymbolKind.Trait =>
          SymbolStore.find store (Reference.name ref) (Some (λ x, kindIn x classLikeMask))
      | SymbolKind.Function | SymbolKind.Constant =>
          let fn := λ x, bool_decide (kind x = Reference.kind ref) in
          let* symbols := SymbolStore.find store (Reference.name ref) (Some fn) in
          match symbols, Reference.altName ref with
          | [], Some altName =>
              if Js.nonEmpty altName then SymbolStore.find store altName (Some fn)
              else Ok symbols
          | _, _ => Ok symbols
          end
      | SymbolKind.Method =>
          let lcName := Js.toLowerCase (Reference.name ref) in
          let fn := λ x, bool_decide (kind x = SymbolKind.Method)
                         && String.eqb (Js.toLowerCase (name x)) lcName in
          findMembers store (Reference.scope ref) strategy (Some fn)
      | SymbolKind.Property =>
          let fn := λ x, bool_decide (kind x = SymbolKind.Property)
                         && String.eqb (Reference.name ref) (name x) in
          findMembers store (Reference.scope ref) strategy (Some fn)
      | SymbolKind.ClassConstant =>
          let fn := λ x, bool_decide (kind x = SymbolKind.ClassConstant)
                         && String.eqb (name x) (Reference.name ref) in
          findMembers store (Reference.scope ref) strategy (Some fn)
      | SymbolKind.Variable_ | SymbolKind.Parameter_ =>
          match SymbolStore._tableIndex store !! uriHash (Reference.location ref) with
          | Some table =>
              match tableScope isInRange table (rangeStart (Reference.location ref)) with
              | Some scope =>
                  let fn := λ x, kindIn x variableMask
                                 && String.eqb (name x) (Reference.name ref) in
                  match List.find fn (children scope) with
                  | Some s => Ok [s]
                  | None => Ok []
                  end
              | None => Throw TypeError
              end
          | None => Ok []
          end
      | SymbolKind.Constructor =>
          let fn := λ x, bool_decide (kind x = SymbolKind.Method)
                         && String.eqb (Js.toLowerCase (name x)) "__construct" in
          findMembers store (Reference.name ref) strategy (Some fn)
      | _ => Ok []
      end
  end.

(** ** [symbolStore.ts]: what [pruneScopedVars] keeps *)

(** The test of [ScopedVariablePruneVisitor.preorder]. *)
Definition prunable (s : PhpSymbol) : bool :=
  bool_decide (kind s = SymbolKind.Function) || bool_decide (kind s = SymbolKind.Method).

(** The children a node is left with. *)
Definition keptChildren (s : PhpSymbol) : list PhpSymbol :=
  if prunable s then List.filter ScopedVariablePruneVisitor._isNotVar (children s)
  else children s.

(** The symbol reader hangs nothing below a variable. *)
Definition variablesAreLeaves (root : PhpSymbol) : Prop :=
  Forall (λ n, kind n = SymbolKind.Variable_ → children n = [])
    (TreeTraverser.toArray root).

#[global] Instance variablesAreLeaves_dec root : Decision (variablesAreLeaves root).
Proof. unfold variablesAreLeaves. apply _. Defined.

(** ** [intelephense.ts]: documents and the symbol store

    The functions of the module that drive the symbol store.  Of the
    document store they ask which documents are open, so it is taken for
    the set of the URIs of the open documents; [root] stands for the tree
    that [SymbolTable.create] reads from the parsed document.  References
    and diagnostics, which do not touch the symbol store, are left out. *)

Module Intelephense.

Record t := mk {
  documentStore : gset string;
  symbolStore : SymbolStore.t
}.

Definition phpLanguageId : string := "php".
Definition htmlLanguageId : string := "html".

Definition openDocument (st : t) (uri languageId : string) (root : PhpSymbol)
  : Result unit * t :=
  if (negb (String.eqb languageId phpLanguageId)
      && negb (String.eqb languageId htmlLanguageId))
     || bool_decide (uri ∈ documentStore st)
  then (Ok (), st)
  else
    let documents := {[uri]} ∪ documentStore st in
    let '(outcome, store) := SymbolStore.add (symbolStore st) (SymbolTable.mk uri root) in
    (outcome, mk documents store).

Definition closeDocument (st : t) (uri : string) : t :=
  mk (documentStore st ∖ {[uri]}) (SymbolStore.pruneScopedVarsOf (symbolStore st) uri).

Definition discoverSymbols (st : t) (uri : string) (root : PhpSymbol) : Result Z * t :=
  if bool_decide (uri ∈ documentStore st) then
    match SymbolStore.getSymbolTable (symbolStore st) uri with
    | Some symbolTable => (Ok (SymbolTable.symbolCount symbolTable), st)
    | None => (Ok 0, st)
    end
  else
    let symbolTable := pruneScopedVars (SymbolTable.mk uri root) in
    match SymbolStore.add (symbolStore st) symbolTable with
    | (Ok _, store) => (Ok (SymbolTable.symbolCount symbolTable), mk (documentStore st) store)
    | (Throw e, store) => (Throw e, mk (documentStore st) store)
    end.

Definition forget (st : t) (uri : string) : Result unit * t :=
  let '(outcome, store) := SymbolStore.remove (symbolStore st) uri in
  (outcome, mk (documentStore st) store).

Definition numberDocumentsOpen (st : t) : Z := Z.of_nat (size (documentStore st)).

Definition numberDocumentsKnown (st : t) : Z := tableCount (symbolStore st).

Definition numberSymbolsKnown (st : t) : Z := SymbolStore.symbolCount (symbolStore st).

End Intelephense.

(** ** [types.ts]: arrays *)

Module JsArray.

Section JsArray.

Context {A : Type}.

(** [array[i]]; [undefined] outside the array. *)
Definition at_ (array : list A) (i : Z) : option A :=
  if i <? 0 then None else array !! Z.to_nat i.

(** A relative index of [slice] and [splice]: counted from the end when
    negative, and kept within the array. *)
Definition relativeIndex (array : list A) (i : Z) : nat :=
  let len := Z.of_nat (length array) in
  Z.to_nat (if i <? 0 then Z.max (len + i) 0 else Z.min i len).

(** [array.slice(start, end)] *)
Definition slice (array : list A) (start end_ : Z) : list A :=
  let k := relativeIndex array start in
  let final := relativeIndex array end_ in
  take (final - k) (drop k array).

(** [array.splice(start, 0, item)] *)
Definition spliceIn (array : list A) (start : Z) (item : A) : list A :=
  let k := relativeIndex array start in
  take k array ++ item :: drop k array.

(** [array.splice(start, 1)] *)
Definition spliceOut (array : list A) (start : Z) : list A :=
  let k := relativeIndex array start in
  take k array ++ drop (S k) array.

End JsArray.

End JsArray.

(** ** [types.ts]: binary search

    [compare] is applied to an element of the array; past the array it
    would be applied to [undefined], of which the comparators of this
    file read a field, which throws a TypeError. *)

Module BinarySearch.

Record BinarySearchResult := mkResult { rank : Z; isExactMatch : bool }.

Section BinarySearch.

Context {T : Type}.

(** The [while] loop of [_search], one turn per unit of [fuel];
    [None] when the fuel runs out before the loop ends. *)
Fixpoint searchLoop (fuel : nat) (_sortedArray : list T) (compare : T → Z)
    (left right : Z) : option (Result BinarySearchResult) :=
  match fuel with
  | O => None
  | S fuel' =>
      if right <? left then Some (Ok (mkResult left false))
      else
        let mid := (left + right) / 2 in
        match JsArray.at_ _sortedArray mid with
        | None => Some (Throw TypeError)
        | Some element =>
            let compareResult := compare element in
            if compareResult <? 0
            then searchLoop fuel' _sortedArray compare (mid + 1) right
            else if 0 <? compareResult
            then searchLoop fuel' _sortedArray compare left (mid - 1)
            else Some (Ok (mkResult mid true))
        end
  end.

(** The loop ends: every turn shortens the interval from [left] to
    [right]. *)
Lemma searchLoop_returns _sortedArray compare : ∀ fuel left right,
  (Z.to_nat (right - left + 1) < fuel)%nat →
  ∃ r, searchLoop fuel _sortedArray compare left right = Some r.
Proof.
  induction fuel as [|fuel IH]; intros left right Hfuel; [lia|]. simpl.
  destruct (right <? left) eqn:Hdone; [eauto|]. apply Z.ltb_ge in Hdone.
  assert (left ≤ (left + right) / 2 ≤ right) as Hmid.
  { split; [apply Z.div_le_lower_bound|apply Z.div_le_upper_bound]; lia. }
  destruct (JsArray.at_ _ _) as [element|]; [|eauto].
  destruct (compare element <? 0); [apply IH; lia|].
  destruct (0 <? compare element); [apply IH; lia|eauto].
Qed.

Definition searchFuel (_sortedArray : list T) (left : Z) : nat :=
  S (Z.to_nat (Z.of_nat (length _sortedArray) - left)).

Lemma searchLoop_fuel _sortedArray compare left :
  searchLoop (searchFuel _sortedArray left) _sortedArray compare left
    (Z.of_nat (length _sortedArray) - 1) ≠ None.
Proof.
  destruct (searchLoop_returns _sortedArray compare (searchFuel _sortedArray left) left
              (Z.of_nat (length _sortedArray) - 1)) as [r Hr].
  - unfold searchFuel. lia.
  - by rewrite Hr.
Qed.

(** [_search(compare, left = 0)] *)
Definition _search (_sortedArray : list T) (compare : T → Z) (left : Z)
  : Result BinarySearchResult :=
  match searchLoop (searchFuel _sortedArray left) _sortedArray compare left
          (Z.of_nat (length _sortedArray) - 1)
        as o return o ≠ None → Result BinarySearchResult with
  | Some r => λ _, r
  | None => λ H, False_rect _ (H eq_refl)
  end (searchLoop_fuel _sortedArray compare left).

(** [find]: the element, or [null]. *)
Definition find (_sortedArray : list T) (compare : T → Z) : Result (option T) :=
  let* result := _search _sortedArray compare 0 in
  Ok (if isExactMatch result then JsArray.at_ _sortedArray (rank result) else None).

Definition rank_ (_sortedArray : list T) (compare : T → Z) : Result Z :=
  let* result := _search _sortedArray compare 0 in
  Ok (rank result).

Definition range (_sortedArray : list T) (compareLower compareUpper : T → Z)
  : Result (list T) :=
  let* rankLower := rank_ _sortedArray compareLower in
  let* upper := _search _sortedArray compareUpper (rankLower + 1) in
  Ok (JsArray.slice _sortedArray rankLower (rank upper)).

End BinarySearch.

End BinarySearch.

(** The array is sorted for [compare]: along the array the sign of
    [compare] never falls, so that the elements below the sought place
    come first, then those at it, then those above it. *)
Definition ordered {T} (compare : T → Z) (sortedArray : list T) : Prop :=
  ∀ i j x y,
    i ≤ j → JsArray.at_ sortedArray i = Some x → JsArray.at_ sortedArray j = Some y →
    Z.sgn (compare x) ≤ Z.sgn (compare y).

(** ** [types.ts]: the suffix array

    [_collator] is [Intl.Collator().compare] and [_suffixDelegate] the
    delegate the array was made with.  The binary search of the array
    reads [_nodeArray] itself, so it sees every change of it.  A node is
    an object: where the code holds a node, the embedding holds the node
    with its place in [_nodeArray]. *)

Module SuffixArray.

Record SuffixArrayNode (T : Type) := mkNode { key : string; items : list T }.

Arguments mkNode {T} key items.
Arguments key {T} _.
Arguments items {T} _.

Record t (T : Type) := mk {
  _nodeArray : list (SuffixArrayNode T);
  _caseSensitive : bool
}.

Arguments mk {T} _nodeArray _caseSensitive.
Arguments _nodeArray {T} _.
Arguments _caseSensitive {T} _.

(** A loop over an array whose body may throw. *)
Fixpoint forEach {S A} (body : S → A → Result unit * S) (state : S) (array : list A)
  : Result unit * S :=
  match array with
  | [] => (Ok (), state)
  | x :: rest =>
      match body state x with
      | (Ok _, state') => forEach body state' rest
      | (Throw e, state') => (Throw e, state')
      end
  end.

Section SuffixArray.

Context {T : Type} `{EqDecision T}.

Variable _collator : string → string → Z.
Variable _suffixDelegate : T → list string.

(** [new SuffixArray(suffixDelegate, caseSensitive = true)] *)
Definition new (caseSensitive : bool) : t T := mk [] caseSensitive.

(** [lcText] *)
Definition folded (sa : t T) (text : string) : string :=
  if _caseSensitive sa then text else Js.toLowerCase text.

Definition _nodeFind (sa : t T) (text : string) : Result (option (Z * SuffixArrayNode T)) :=
  let lcText := folded sa text in
  let* result :=
    BinarySearch._search (_nodeArray sa) (λ n, _collator lcText (key n)) 0 in
  Ok (if BinarySearch.isExactMatch result
      then (λ node, (BinarySearch.rank result, node))
             <$> JsArray.at_ (_nodeArray sa) (BinarySearch.rank result)
      else None).

Definition _nodeMatch (sa : t T) (text : string) : Result (list (SuffixArrayNode T)) :=
  let lcText := folded sa text in
  BinarySearch.range (_nodeArray sa)
    (λ n, _collator lcText (key n))
    (λ n, if String.prefix lcText (key n) then 1 else -1).

Definition _insertNode (sa : t T) (node : SuffixArrayNode T) : Result unit * t T :=
  match BinarySearch.rank_ (_nodeArray sa) (λ n, _collator (key node) (key n)) with
  | Ok rank => (Ok (), mk (JsArray.spliceIn (_nodeArray sa) rank node) (_caseSensitive sa))
  | Throw e => (Throw e, sa)
  end.

(** [this._nodeArray[rank] === node] holds when [rank] is the place of
    the node. *)
Definition _deleteNode (sa : t T) (place : Z) (node : SuffixArrayNode T)
  : Result unit * t T :=
  match BinarySearch.rank_ (_nodeArray sa) (λ n, _collator (key node) (key n)) with
  | Ok rank =>
      (Ok (),
       if rank =? place
       then mk (JsArray.spliceOut (_nodeArray sa) rank) (_caseSensitive sa)
       else sa)
  | Throw e => (Throw e, sa)
  end.

(** The body of the loop of [add]. *)
Definition addSuffix (item : T) (sa : t T) (suffix : string) : Result unit * t T :=
  match _nodeFind sa suffix with
  | Throw e => (Throw e, sa)
  | Ok (Some (place, node)) =>
      (Ok (),
       mk (<[Z.to_nat place := mkNode (key node) (items node ++ [item])]> (_nodeArray sa))
          (_caseSensitive sa))
  | Ok None => _insertNode sa (mkNode suffix [item])
  end.

Definition add (sa : t T) (item : T) : Result unit * t T :=
  forEach (addSuffix item) sa (_suffixDelegate item).

Definition addMany (sa : t T) (items : list T) : Result unit * t T :=
  forEach add sa items.

(** [items.splice(items.indexOf(item), 1)] *)
Fixpoint removeItem (item : T) (items : list T) : list T :=
  match items with
  | [] => []
  | x :: rest => if decide (x = item) then rest else x :: removeItem item rest
  end.

(** The body of the loop of [remove]. *)
Definition removeSuffix (item : T) (sa : t T) (suffix : string) : Result unit * t T :=
  match _nodeFind sa suffix with
  | Throw e => (Throw e, sa)
  | Ok None => (Ok (), sa)
  | Ok (Some (place, node)) =>
      if decide (item ∈ items node) then
        let node' := mkNode (key node) (removeItem item (items node)) in
        let sa' := mk (<[Z.to_nat place := node']> (_nodeArray sa)) (_caseSensitive sa) in
        match items node' with
        | [] => _deleteNode sa' place node'
        | _ => (Ok (), sa')
        end
      else (Ok (), sa)
  end.

Definition remove (sa : t T) (item : T) : Result unit * t T :=
  forEach (removeSuffix item) sa (_suffixDelegate item).

Definition removeMany (sa : t T) (items : list T) : Result unit * t T :=
  forEach remove sa items.

Definition match_ (sa : t T) (text : string) : Result (list T) :=
  let* nodes := _nodeMatch sa text in
  Ok (flat_map items nodes).

End SuffixArray.

End SuffixArray.

(** The nodes of a suffix array are in the order that [_insertNode]
    gives them: every key comes before the keys that the collator puts
    before it. *)
Definition descending {T} (collator : string → string → Z)
    (nodes : list (SuffixArray.SuffixArrayNode T)) : Prop :=
  ∀ i j m n,
    i < j → JsArray.at_ nodes i = Some m → JsArray.at_ nodes j = Some n →
    collator (SuffixArray.key n) (SuffixArray.key m) < 0.

(** A comparison of strings that is a total order: zero on equal strings
    alone, of opposite signs in the two directions, and transitive. *)
Record collation (collator : string → string → Z) : Prop := {
  collation_eq a b : collator a b = 0 ↔ a = b;
  collation_antisym a b : Z.sgn (collator b a) = - Z.sgn (collator a b);
  collation_trans a b c : collator a b < 0 → collator b c < 0 → collator a c < 0
}.

(** The collator puts a string before the strings that begin with it. *)
Definition prefixFirst (collator : string → string → Z) : Prop :=
  ∀ text key, String.prefix text key = true → text ≠ key → collator text key < 0.

(** The item is filed under the key: a node of that key holds it. *)
Definition filedUnder {T} (nodes : list (SuffixArray.SuffixArrayNode T)) (key : string)
    (item : T) : Prop :=
  ∃ node, node ∈ nodes ∧ SuffixArray.key node = key ∧ item ∈ SuffixArray.items node.

(** The items filed under the key: those of the first node of that key,
    none when there is no such node. *)
Definition itemsAt {T} (nodes : list (SuffixArray.SuffixArrayNode T)) (key : string)
  : list T :=
  match List.find (λ n, String.eqb (SuffixArray.key n) key) nodes with
  | Some n => SuffixArray.items n
  | None => []
  end.

(** A suffix array as [add] and [remove] keep it: case-sensitive, its
    nodes in descending order of their keys, none of them empty. *)
Definition wellFormed {T} (collator : string → string → Z) (sa : SuffixArray.t T) : Prop :=
  SuffixArray._caseSensitive sa = true
  ∧ descending collator (SuffixArray._nodeArray sa)
  ∧ Forall (λ n, SuffixArray.items n ≠ []) (SuffixArray._nodeArray sa).

(** How often the delegate lists the key among the suffixes. *)
Definition occurrences (key : string) (suffixes : list string) : nat :=
  length (List.filter (λ suffix, bool_decide (suffix = key)) suffixes).

(** * Invariants of the store *)

(** The sum of [symbolCount] over the registered tables. *)
Definition tableSymbolCount (store : SymbolStore.t) : Z :=
  foldr (λ T sum, SymbolTable.symbolCount T + sum) 0 (tables store).

(** The location stub of a symbol, as [KeyedHashedStartLocation.create]
    builds it. *)
Definition stubOf (s : PhpSymbol) : option HashedStartLocation.t :=
  (λ l, HashedStartLocation.mk (uriHash l) (rangeStart l)) <$> location s.

(** Every node of the table that the index walk takes has a location, in
    the file of the table. *)
Definition locatedTable (T : SymbolTable.t) : Prop :=
  Forall (λ n, uriHash <$> location n = Some (uriMap.id (SymbolTable.uri T)))
    (IndexableSymbolVisitor.nodes (SymbolTable.root T)).

#[global] Instance locatedTable_dec T : Decision (locatedTable T).
Proof. unfold locatedTable. apply _. Defined.

(** The symbols the store has indexed: the nodes of the registered tables
    that the index walk takes. *)
Definition indexedSymbols (store : SymbolStore.t) : list PhpSymbol :=
  flat_map (λ T, IndexableSymbolVisitor.nodes (SymbolTable.root T)) (tables store).

(** The search by start position finds the node [n] of [T] again. *)
Definition resolvesTo (T : SymbolTable.t) (n : PhpSymbol) : Prop :=
  match location n with
  | Some l =>
      oid <$> FindByStartPositionTraverser.find (rangeStart l) (SymbolTable.root T)
      = Some (oid n)
  | None => False
  end.

#[global] Instance resolvesTo_dec T n : Decision (resolvesTo T n).
Proof. unfold resolvesTo. destruct (location n); apply _. Defined.

(** The stub [item], filed under [key], is that of an indexed node of a
    registered table which has this key. *)
Definition soundStub (store : SymbolStore.t) (key : string) (item : HashedStartLocation.t)
  : Prop :=
  match SymbolStore._tableIndex store !! HashedStartLocation.uriHash item with
  | Some T =>
      Exists (λ n, stubOf n = Some item ∧ key ∈ KeyedHashedStartLocation.symbolKeys n)
        (IndexableSymbolVisitor.nodes (SymbolTable.root T))
  | None => False
  end.

#[global] Instance soundStub_dec store key item : Decision (soundStub store key item).
Proof.
  unfold soundStub.
  destruct (SymbolStore._tableIndex store !! HashedStartLocation.uriHash item); apply _.
Defined.

(** The stub of the node [n] is in the bucket of each of its keys. *)
Definition filed (store : SymbolStore.t) (n : PhpSymbol) : Prop :=
  match stubOf n with
  | Some item =>
      Forall (λ key, item ∈ NameIndex.bucket (SymbolStore._symbolIndex store) key)
        (KeyedHashedStartLocation.symbolKeys n)
  | None => False
  end.

#[global] Instance filed_dec store n : Decision (filed store n).
Proof. unfold filed. destruct (stubOf n); apply _. Defined.

(** The invariant of the store: distinct nodes are distinct objects; a
    table is registered under the number of its URI, the nodes it has
    indexed lie in its file, are found again by their start position and
    are filed under their keys; and the name index holds nothing else. *)
Definition consistent (store : SymbolStore.t) : Prop :=
  NoDup (map oid (allNodes store))
  ∧ map_Forall
      (λ id T,
         id = uriMap.id (SymbolTable.uri T) ∧ locatedTable T
         ∧ Forall (λ n, resolvesTo T n ∧ filed store n)
             (IndexableSymbolVisitor.nodes (SymbolTable.root T)))
      (SymbolStore._tableIndex store)
  ∧ map_Forall (λ key items, Forall (soundStub store key) items)
      (SymbolStore._symbolIndex store).

#[global] Instance consistent_dec store : Decision (consistent store).
Proof. unfold consistent. apply _. Defined.

(** The children of [types], in order, that [findBaseMember] takes for
    declarations of the member [symbol]. *)
Definition declared (symbol : PhpSymbol) (types : list PhpSymbol) : list PhpSymbol :=
  flat_map (λ t, List.filter (sameMember symbol) (children t)) types.

Definition isTrait (s : PhpSymbol) : bool := bool_decide (kind s = SymbolKind.Trait).

(** The nodes that the specification takes for indexed by [add], in its
    words: not a parameter, not a file, no use-modifier, not a variable
    without a location, a name that is not empty. *)
Definition claimedIndexable (n : PhpSymbol) : Prop :=
  kind n ≠ SymbolKind.Parameter_ ∧ kind n ≠ SymbolKind.File
  ∧ hasModifier n SymbolModifier.Use = false
  ∧ ¬ (kind n = SymbolKind.Variable_ ∧ location n = None)
  ∧ name n ≠ "".

(** Every stub of the name index names a registered table. *)
Definition liveIndex (store : SymbolStore.t) : Prop :=
  map_Forall
    (λ _ items,
       Forall (λ item,
                 is_Some (SymbolStore._tableIndex store !! HashedStartLocation.uriHash item))
         items)
    (SymbolStore._symbolIndex store).

#[global] Instance liveIndex_dec store : Decision (liveIndex store).
Proof. unfold liveIndex. apply _. Defined.

(** The stubs an index item puts into the bucket of [key]. *)
Definition contribution (key : string) (item : KeyedHashedStartLocation.t)
  : list HashedStartLocation.t :=
  flat_map (λ k, if decide (key = k) then [KeyedHashedStartLocation.start item] else [])
    (KeyedHashedStartLocation.keys item).

Definition contributions (key : string) (items : list KeyedHashedStartLocation.t)
  : list HashedStartLocation.t :=
  flat_map (contribution key) items.

(** [removeFirst] of each stub of [gone], in turn. *)
Definition removeEach (gone items : list HashedStartLocation.t) : list HashedStartLocation.t :=
  foldl (λ items item, NameIndex.removeFirst item items) items gone.

(** No bucket of the index is empty. *)
Definition noEmptyBucket (idx : NameIndex.t) : Prop :=
  map_Forall (λ _ items, items ≠ []) idx.

#[global] Instance noEmptyBucket_dec idx : Decision (noEmptyBucket idx).
Proof. unfold noEmptyBucket. apply _. Defined.

(** The stubs that the nodes [ns] put into the bucket of [key]. *)
Definition stubsFor (key : string) (ns : list PhpSymbol) : list HashedStartLocation.t :=
  flat_map
    (λ n, match stubOf n with
          | Some stub =>
              flat_map (λ k, if decide (key = k) then [stub] else [])
                (KeyedHashedStartLocation.symbolKeys n)
          | None => []
          end)
    ns.

Definition ofTable (id : Z) (stub : HashedStartLocation.t) : bool :=
  bool_decide (HashedStartLocation.uriHash stub = id).

(** The invariant in the form that [add] and [remove] keep: every bucket,
    restricted to the stubs of one registered table, holds the stubs of
    the indexable nodes of that table with this key, in walk order, and
    no other stub is in the index. *)
Definition exact (store : SymbolStore.t) : Prop :=
  NoDup (map oid (allNodes store))
  ∧ liveIndex store
  ∧ noEmptyBucket (SymbolStore._symbolIndex store)
  ∧ ∀ id T,
      SymbolStore._tableIndex store !! id = Some T →
      id = uriMap.id (SymbolTable.uri T)
      ∧ locatedTable T
      ∧ Forall (resolvesTo T) (IndexableSymbolVisitor.nodes (SymbolTable.root T))
      ∧ ∀ key,
          List.filter (ofTable id) (NameIndex.bucket (SymbolStore._symbolIndex store) key)
          = stubsFor key (IndexableSymbolVisitor.nodes (SymbolTable.root T)).

(** A table as the symbol reader delivers it for a store: its indexable
    nodes lie in its file and are found again by their start position,
    and its nodes are objects of their own. *)
Definition freshTable (store : SymbolStore.t) (T : SymbolTable.t) : Prop :=
  locatedTable T
  ∧ Forall (resolvesTo T) (IndexableSymbolVisitor.nodes (SymbolTable.root T))
  ∧ NoDup (map oid (TreeTraverser.toArray (SymbolTable.root T) ++ allNodes store)).

(** The stores that [add] and [remove] build from the empty store. *)
Inductive reachable : SymbolStore.t → Prop :=
  | reachable_empty : reachable SymbolStore.empty
  | reachable_add store T :
      reachable store →
      freshTable (SymbolStore.remove store (SymbolTable.uri T)).2 T →
      reachable (SymbolStore.add store T).2
  | reachable_remove store uri :
      reachable store → reachable (SymbolStore.remove store uri).2.

#[global] Instance freshTable_dec store T : Decision (freshTable store T).
Proof. unfold freshTable. apply _. Defined.

(** * Scenarios *)

Module Scenario.

Definition at_ (uri : string) (l c l' c' : Z) : option HashedLocation :=
  Some (mkHashedLocation (uriMap.id uri) (mkRange (mkPosition l c) (mkPosition l' c'))).

Definition node (oid : nat) (kind : SymbolKind.t) (name : string) (modifiers : Z)
    (scope : option string) (associated : list Stub) (children : list PhpSymbol)
    (location : option HashedLocation) : PhpSymbol :=
  mkPhpSymbol oid kind name modifiers scope None None associated children location.

Definition file (oid : nat) (uri : string) (children : list PhpSymbol) : SymbolTable.t :=
  SymbolTable.mk uri
    (node oid SymbolKind.File uri 0 None [] children (at_ uri 0 0 1000 0)).

Definition indexed (tables : list SymbolTable.t) : SymbolStore.t :=
  foldl (λ store T, (SymbolStore.add store T).2) SymbolStore.empty tables.

Definition isMethod (s : PhpSymbol) : bool := bool_decide (kind s = SymbolKind.Method).

(** [interface I { function f(); }]
    [class C implements I { function f(){} function g(){} }] *)
Definition types := "file:///types.php".
Definition I_f : PhpSymbol :=
  node 2 SymbolKind.Method "f" SymbolModifier.Public (Some "I") [] [] (at_ types 1 14 1 27).
Definition I : PhpSymbol :=
  node 1 SymbolKind.Interface "I" 0 None [] [I_f] (at_ types 1 0 1 29).
Definition C_f : PhpSymbol :=
  node 4 SymbolKind.Method "f" SymbolModifier.Public (Some "C") [] [] (at_ types 2 23 2 37).
Definition C_g : PhpSymbol :=
  node 5 SymbolKind.Method "g" SymbolModifier.Public (Some "C") [] [] (at_ types 2 38 2 52).
Definition C : PhpSymbol :=
  node 3 SymbolKind.Class "C" 0 None [mkStub SymbolKind.Interface "I"] [C_f; C_g]
    (at_ types 2 0 2 54).
Definition typesTable : SymbolTable.t := file 0 types [I; C].
Definition typesStore : SymbolStore.t := indexed [typesTable].

(** [class A extends B {}] and [class B extends A {}] *)
Definition cycle := "file:///cycle.php".
Definition A : PhpSymbol :=
  node 11 SymbolKind.Class "A" 0 None [mkStub SymbolKind.Class "B"] [] (at_ cycle 1 0 1 20).
Definition B : PhpSymbol :=
  node 12 SymbolKind.Class "B" 0 None [mkStub SymbolKind.Class "A"] [] (at_ cycle 2 0 2 20).
Definition cycleTable : SymbolTable.t := file 10 cycle [A; B].
Definition cycleStore : SymbolStore.t := indexed [cycleTable].

(** [namespace Foo\Bar;] *)
Definition ns := "file:///ns.php".
Definition FooBar : PhpSymbol :=
  node 21 SymbolKind.Namespace "Foo\Bar" 0 None [] [] (at_ ns 1 0 1 18).
Definition nsTable : SymbolTable.t := file 20 ns [FooBar].
Definition nsStore : SymbolStore.t := indexed [nsTable].

(** Two files that both declare [class Foo {}]. *)
Definition first := "file:///first.php".
Definition second := "file:///second.php".
Definition Foo1 : PhpSymbol :=
  node 31 SymbolKind.Class "Foo" 0 None [] [] (at_ first 1 0 1 12).
Definition Foo2 : PhpSymbol :=
  node 41 SymbolKind.Class "Foo" 0 None [] [] (at_ second 1 0 1 12).
Definition firstTable : SymbolTable.t := file 30 first [Foo1].
Definition secondTable : SymbolTable.t := file 40 second [Foo2].
Definition firstStore : SymbolStore.t := indexed [firstTable].

(** [function f() { $x = 1; }] *)
Definition fn := "file:///fn.php".
Definition x : PhpSymbol :=
  node 52 SymbolKind.Variable_ "$x" 0 (Some "f") [] [] (at_ fn 1 15 1 17).
Definition f : PhpSymbol :=
  node 51 SymbolKind.Function "f" 0 None [] [x] (at_ fn 1 0 1 24).
Definition fnTable : SymbolTable.t := file 50 fn [f].
Definition fnStore : SymbolStore.t := indexed [fnTable].

(** [$config = [];] at the top of a script. *)
Definition script := "file:///script.php".
Definition config : PhpSymbol :=
  node 61 SymbolKind.Variable_ "$config" 0 None [] [] (at_ script 1 0 1 7).
Definition scriptTable : SymbolTable.t := file 60 script [config].

(** The store that holds [fnTable], after [pruneScopedVars] on that table
    and after the [remove] that follows. *)
Definition fnPruned : SymbolStore.t := SymbolStore.pruneScopedVarsOf fnStore fn.
Definition fnForgotten : SymbolStore.t := (SymbolStore.remove fnPruned fn).2.

(** [const LIMIT = 10;] and [function limit() {}] *)
Definition limits := "file:///limits.php".
Definition LIMIT : PhpSymbol :=
  node 71 SymbolKind.Constant "LIMIT" 0 None [] [] (at_ limits 1 6 1 16).
Definition limit : PhpSymbol :=
  node 72 SymbolKind.Function "limit" 0 None [] [] (at_ limits 2 0 2 19).
Definition limitsTable : SymbolTable.t := file 70 limits [LIMIT; limit].
Definition limitsStore : SymbolStore.t := indexed [limitsTable].

(** [interface Base { function f(); }]
    [interface Sub extends Base { function f(); }] *)
Definition ifaces := "file:///ifaces.php".
Definition Base_f : PhpSymbol :=
  node 82 SymbolKind.Method "f" SymbolModifier.Public (Some "Base") [] []
    (at_ ifaces 1 17 1 30).
Definition Base : PhpSymbol :=
  node 81 SymbolKind.Interface "Base" 0 None [] [Base_f] (at_ ifaces 1 0 1 32).
Definition Sub_f : PhpSymbol :=
  node 84 SymbolKind.Method "f" SymbolModifier.Public (Some "Sub") [] []
    (at_ ifaces 2 29 2 42).
Definition Sub : PhpSymbol :=
  node 83 SymbolKind.Interface "Sub" 0 None [mkStub SymbolKind.Interface "Base"] [Sub_f]
    (at_ ifaces 2 0 2 44).
Definition ifacesTable : SymbolTable.t := file 80 ifaces [Base; Sub].
Definition ifacesStore : SymbolStore.t := indexed [ifacesTable].

(** [class Top { function run() {} }]
    [class Mid extends Top { function run() {} }]
    [class Bottom extends Mid { function run() {} }] *)
Definition chain := "file:///chain.php".
Definition Top_run : PhpSymbol :=
  node 92 SymbolKind.Method "run" SymbolModifier.Public (Some "Top") [] []
    (at_ chain 1 12 1 29).
Definition Top : PhpSymbol :=
  node 91 SymbolKind.Class "Top" 0 None [] [Top_run] (at_ chain 1 0 1 31).
Definition Mid_run : PhpSymbol :=
  node 94 SymbolKind.Method "run" SymbolModifier.Public (Some "Mid") [] []
    (at_ chain 2 24 2 41).
Definition Mid : PhpSymbol :=
  node 93 SymbolKind.Class "Mid" 0 None [mkStub SymbolKind.Class "Top"] [Mid_run]
    (at_ chain 2 0 2 43).
Definition Bottom_run : PhpSymbol :=
  node 96 SymbolKind.Method "run" SymbolModifier.Public (Some "Bottom") [] []
    (at_ chain 3 27 3 44).
Definition Bottom : PhpSymbol :=
  node 95 SymbolKind.Class "Bottom" 0 None [mkStub SymbolKind.Class "Mid"] [Bottom_run]
    (at_ chain 3 0 3 46).
Definition chainTable : SymbolTable.t := file 90 chain [Top; Mid; Bottom].
Definition chainStore : SymbolStore.t := indexed [chainTable].

(** The class [C] alone, in a new version of the file of [I] and [C]. *)
Definition typesTable' : SymbolTable.t := file 0 types [C].

End Scenario.

(** * Further scenarios *)

Module Samples.

(** Members named [run], as the children of a class and of its ancestors
    are listed: a magic one from a doc comment, a declared one, a declared
    one with a doc comment, and a method [toString]. *)
Definition member (oid : nat) (name : string) (modifiers : Z) (doc : option PhpSymbolDoc)
  : PhpSymbol :=
  mkPhpSymbol oid SymbolKind.Method name modifiers (Some "Worker") None doc [] [] None.

Definition magicRun : PhpSymbol :=
  member 201 "run" (Z.lor SymbolModifier.Public SymbolModifier.Magic) None.
Definition realRun : PhpSymbol := member 202 "run" SymbolModifier.Public None.
Definition docRun : PhpSymbol :=
  member 203 "run" SymbolModifier.Public (Some (mkDoc "Runs the worker.")).
Definition toString : PhpSymbol := member 204 "toString" SymbolModifier.Public None.
Definition runs : list PhpSymbol := [magicRun; realRun; docRun; toString].

(** [class Keeper { private function secret() {} function open() {} }]
    [class Heir extends Keeper { function own() {} }] *)
Definition vault := "file:///vault.php".
Definition Keeper_secret : PhpSymbol :=
  Scenario.node 112 SymbolKind.Method "secret" SymbolModifier.Private (Some "Keeper") [] []
    (Scenario.at_ vault 1 15 1 43).
Definition Keeper_open : PhpSymbol :=
  Scenario.node 113 SymbolKind.Method "open" SymbolModifier.Public (Some "Keeper") [] []
    (Scenario.at_ vault 1 44 1 62).
Definition Keeper : PhpSymbol :=
  Scenario.node 111 SymbolKind.Class "Keeper" 0 None [] [Keeper_secret; Keeper_open]
    (Scenario.at_ vault 1 0 1 64).
Definition Heir_own : PhpSymbol :=
  Scenario.node 115 SymbolKind.Method "own" SymbolModifier.Public (Some "Heir") [] []
    (Scenario.at_ vault 2 28 2 45).
Definition Heir : PhpSymbol :=
  Scenario.node 114 SymbolKind.Class "Heir" 0 None [mkStub SymbolKind.Class "Keeper"]
    [Heir_own] (Scenario.at_ vault 2 0 2 47).
Definition vaultTable : SymbolTable.t := Scenario.file 110 vault [Keeper; Heir].
Definition vaultStore : SymbolStore.t := Scenario.indexed [vaultTable].
Definition heir : TypeAggregate.t := TypeAggregate.mk vaultStore Heir false.

(** A table whose class node has no location. *)
Definition broken := "file:///broken.php".
Definition Broken : PhpSymbol :=
  Scenario.node 121 SymbolKind.Class "Broken" 0 None [] [] None.
Definition brokenTable : SymbolTable.t := Scenario.file 120 broken [Broken].

(** A table whose root has no location. *)
Definition adrift := "file:///adrift.php".
Definition adriftTable : SymbolTable.t :=
  SymbolTable.mk adrift
    (Scenario.node 130 SymbolKind.File adrift 0 None [] [Scenario.config] None).

(** [class K { function m() { $g = function () { }; } }] *)
Definition closure := "file:///closure.php".
Definition K_m_g : PhpSymbol :=
  Scenario.node 143 SymbolKind.Function "" SymbolModifier.Anonymous (Some "K::m") [] []
    (Scenario.at_ closure 1 32 1 48).
Definition K_m : PhpSymbol :=
  Scenario.node 142 SymbolKind.Method "m" SymbolModifier.Public (Some "K") [] [K_m_g]
    (Scenario.at_ closure 1 10 1 51).
Definition K : PhpSymbol :=
  Scenario.node 141 SymbolKind.Class "K" 0 None [] [K_m] (Scenario.at_ closure 1 0 1 53).
Definition closureTable : SymbolTable.t := Scenario.file 140 closure [K].

(** A test of a position against a range for the scenarios: zero within
    the range, its ends included, [-1] before it and [1] after it. *)
Definition before (p q : Position) : bool :=
  (line p <? line q) || ((line p =? line q) && (character p <? character q)).

Definition inRange (position : Position) (range : Range) : Z :=
  if before position (start range) then -1
  else if before (end_ range) position then 1
  else 0.

(** References: to the class [C], and to the variable [$x] inside the
    function [f] of the file of that URI. *)
Definition toClassC : Reference.t :=
  Reference.mk SymbolKind.Class "C" None "" None
    (mkHashedLocation (uriMap.id Scenario.fn) (mkRange (mkPosition 1 16) (mkPosition 1 17))).
Definition toX (uri : string) : Reference.t :=
  Reference.mk SymbolKind.Variable_ "$x" None "" None
    (mkHashedLocation (uriMap.id uri) (mkRange (mkPosition 1 20) (mkPosition 1 22))).

(** The function [f] and its variable, in an open document. *)
Definition fnOpen : Intelephense.t := Intelephense.mk {[Scenario.fn]} Scenario.fnStore.

(** The file of [I] and [C] is known, no document is open. *)
Definition typesKnown : Intelephense.t := Intelephense.mk ∅ Scenario.typesStore.

(** A sorted array of numbers, and the comparator that looks for a
    number in it. *)
Definition odds : list Z := [1; 3; 5; 7].
Definition lookFor (target : Z) (n : Z) : Z := n - target.

(** A collation for the scenarios: strings compared code unit by code
    unit. *)
Definition codeUnitOrder (a b : string) : Z :=
  match String.compare a b with
  | Lt => -1
  | Eq => 0
  | Gt => 1
  end.

(** Delegates: a word is filed under its suffixes, or under itself. *)
Fixpoint suffixes (word : string) : list string :=
  match word with
  | EmptyString => []
  | String _ rest => word :: suffixes rest
  end.

Definition whole (word : string) : list string := [word].

(** The suffix array of the word [ba], and an array of whole words. *)
Definition ofBa : SuffixArray.t string :=
  SuffixArray.mk [SuffixArray.mkNode "ba" ["ba"]; SuffixArray.mkNode "a" ["ba"]] true.

Definition words : SuffixArray.t string :=
  SuffixArray.mk
    [SuffixArray.mkNode "c" ["c"]; SuffixArray.mkNode "ba" ["ba"];
     SuffixArray.mkNode "b" ["b"]; SuffixArray.mkNode "a" ["a"]] true.

End Samples.

(** * Lemmas *)

(** A decidable proposition about closed data, decided by evaluation. *)
Ltac by_compute :=
  match goal with
  | |- ?P => refine (@bool_decide_eq_true_1 P _ _); vm_compute; reflexivity
  end.

(** ** Resolution of index results *)

Lemma liveIndex_bucket store key item :
  liveIndex store →
  item ∈ NameIndex.bucket (SymbolStore._symbolIndex store) key →
  is_Some (SymbolStore._tableIndex store !! HashedStartLocation.uriHash item).
Proof.
  unfold liveIndex, NameIndex.bucket. intros Hlive Hin.
  destruct (SymbolStore._symbolIndex store !! key) as [items|] eqn:Hk; simpl in Hin.
  - specialize (Hlive key items Hk). simpl in Hlive.
    rewrite Forall_forall in Hlive. by apply Hlive.
  - by apply elem_of_nil in Hin.
Qed.

Lemma resolveInto_returns store results : ∀ symbols,
  Forall (λ item,
            is_Some (SymbolStore._tableIndex store !! HashedStartLocation.uriHash item))
    results →
  ∃ l, SymbolStore.resolveInto store symbols results = Ok l.
Proof.
  induction results as [|item rest IH]; intros symbols Hlive; simpl; [eauto|].
  apply Forall_cons in Hlive as [[table ->] Hrest].
  destruct (FindByStartPositionTraverser.find _ _); eauto.
Qed.

Lemma setAdd_NoDup (seen : list PhpSymbol) x :
  NoDup (map oid seen) → NoDup (map oid (Js.setAdd oid seen x)).
Proof.
  intros Hnd. unfold Js.setAdd. destruct (Js.has oid seen x) eqn:Hseen; [done|].
  rewrite map_app. apply NoDup_app. split; [done|]. split; [|apply NoDup_singleton].
  intros y Hy Hy'. apply list_elem_of_singleton in Hy' as ->.
  by apply has_false_not_in in Hseen.
Qed.

Lemma setAddAll_NoDup (xs : list PhpSymbol) : ∀ seen,
  NoDup (map oid seen) → NoDup (map oid (Js.setAddAll oid seen xs)).
Proof.
  induction xs as [|x xs IH]; intros seen Hnd; simpl; [done|].
  apply IH. by apply setAdd_NoDup.
Qed.

Lemma resolveInto_NoDup store results : ∀ symbols l,
  SymbolStore.resolveInto store symbols results = Ok l →
  NoDup (map oid symbols) → NoDup (map oid l).
Proof.
  induction results as [|item rest IH]; intros symbols l H Hnd; simpl in H.
  - by simplify_eq.
  - destruct (SymbolStore._tableIndex store !! _) as [table|]; [|done].
    destruct (FindByStartPositionTraverser.find _ _); eauto using setAdd_NoDup.
Qed.

Lemma filter_NoDup_oid (p : PhpSymbol → bool) (l : list PhpSymbol) :
  NoDup (map oid l) → NoDup (map oid (List.filter p l)).
Proof.
  induction l as [|x l IH]; simpl; [done|].
  rewrite NoDup_cons. intros [Hx Hnd]. destruct (p x); simpl; [|auto].
  apply NoDup_cons. split; [|auto].
  intros Hin. apply Hx. apply list_elem_of_fmap in Hin as (y & -> & Hy).
  apply list_elem_of_fmap. exists y. split; [done|].
  apply list_elem_of_In, filter_In in Hy as [Hy _]. by apply list_elem_of_In.
Qed.

Lemma NoDup_oid_NoDup (l : list PhpSymbol) : NoDup (map oid l) → NoDup l.
Proof. apply NoDup_fmap_1. Qed.

Lemma find_bucket_live store text :
  liveIndex store →
  Forall (λ item,
            is_Some (SymbolStore._tableIndex store !! HashedStartLocation.uriHash item))
    (NameIndex.find text (SymbolStore._symbolIndex store)).
Proof.
  intros Hlive. apply Forall_forall. intros item Hin.
  eapply liveIndex_bucket; [done|]. exact Hin.
Qed.

Lemma match_bucket_live store text :
  liveIndex store →
  Forall (λ item,
            is_Some (SymbolStore._tableIndex store !! HashedStartLocation.uriHash item))
    (NameIndex.match_ text (SymbolStore._symbolIndex store)).
Proof.
  intros Hlive. apply Forall_forall. intros item Hin.
  unfold NameIndex.match_ in Hin.
  apply list_elem_of_In, in_flat_map in Hin as ([key items] & Hnode & Hitem).
  apply filter_In in Hnode as [Hnode _]. apply list_elem_of_In in Hnode.
  rewrite merge_sort_Permutation in Hnode.
  apply elem_of_map_to_list in Hnode.
  specialize (Hlive key items Hnode). simpl in Hlive.
  rewrite Forall_forall in Hlive. apply Hlive. by apply list_elem_of_In.
Qed.

Lemma find_returns store text filter :
  liveIndex store → ∃ l, SymbolStore.find store text filter = Ok l.
Proof.
  intros Hlive. unfold SymbolStore.find, SymbolStore._indexResultToSymbols.
  destruct (negb (Js.nonEmpty text)); [eauto|].
  destruct (resolveInto_returns store _ [] (find_bucket_live store text Hlive)) as [l ->].
  simpl. eauto.
Qed.

Lemma find_NoDup store text filter l :
  SymbolStore.find store text filter = Ok l → NoDup (map oid l).
Proof.
  unfold SymbolStore.find, SymbolStore._indexResultToSymbols.
  destruct (negb (Js.nonEmpty text)); [intros [= <-]; constructor|].
  destruct (SymbolStore.resolveInto _ _ _) as [result|] eqn:Hr; simpl; [|done].
  intros [= <-]. apply filter_NoDup_oid.
  eapply resolveInto_NoDup; [exact Hr | constructor].
Qed.

Lemma match_returns store text filter :
  liveIndex store → ∃ l, SymbolStore.match_ store text filter = Ok l.
Proof.
  intros Hlive. unfold SymbolStore.match_, SymbolStore._indexResultToSymbols.
  destruct (negb (Js.nonEmpty text)); [eauto|].
  destruct (resolveInto_returns store _ [] (match_bucket_live store text Hlive)) as [l ->].
  simpl. destruct filter; eauto.
Qed.

Lemma match_NoDup store text filter l :
  SymbolStore.match_ store text filter = Ok l → NoDup (map oid l).
Proof.
  unfold SymbolStore.match_, SymbolStore._indexResultToSymbols.
  destruct (negb (Js.nonEmpty text)); [intros [= <-]; constructor|].
  destruct (SymbolStore.resolveInto _ _ _) as [result|] eqn:Hr; simpl; [|done].
  assert (NoDup (map oid result)) by (eapply resolveInto_NoDup; [exact Hr | constructor]).
  destruct filter; intros [= <-]; [by apply filter_NoDup_oid | done].
Qed.

(** ** Kinds, names and filters *)

Lemma classLike_kinds s :
  kindIn s classLikeMask = true
  ↔ kind s = SymbolKind.Class ∨ kind s = SymbolKind.Interface ∨ kind s = SymbolKind.Trait.
Proof.
  unfold kindIn. destruct (kind s); vm_compute; split; intros H;
    try discriminate; try tauto; destruct H as [H|[H|H]]; discriminate.
Qed.

Lemma find_passes store text filter l x :
  SymbolStore.find store text filter = Ok l → x ∈ l →
  SymbolStore.passes filter x = true ∧ SymbolStore.nameMatches text x = true.
Proof.
  unfold SymbolStore.find. destruct (negb (Js.nonEmpty text)).
  - intros [= <-] Hx. by apply elem_of_nil in Hx.
  - destruct (SymbolStore._indexResultToSymbols _ _) as [result|]; simpl; [|done].
    intros [= <-] Hx. apply list_elem_of_In, filter_In in Hx as [_ Hx].
    by apply andb_true_iff in Hx.
Qed.

Lemma nonEmpty_false text : Js.nonEmpty text = false ↔ text = "".
Proof. destruct text; simpl; split; congruence. Qed.

(** ** The loop of [_getAssociated] *)

Lemma _getAssociated_eq type fuel r :
  TypeAggregate.associatedLoop fuel (TypeAggregate.symbolStore type)
    (TypeAggregate._excludeTraits type) (associated (TypeAggregate._symbol type)) []
  = Some r →
  TypeAggregate._getAssociated type = r.
Proof.
  intros Hfuel. unfold TypeAggregate._getAssociated.
  generalize (TypeAggregate.associatedLoop_fuel (TypeAggregate.symbolStore type)
                (TypeAggregate._symbol type) (TypeAggregate._excludeTraits type)).
  destruct (TypeAggregate.associatedLoop
              (associatedFuel (TypeAggregate.symbolStore type) (TypeAggregate._symbol type))
              _ _ _ _) as [r'|] eqn:Hown; intros Hsome; [|done].
  destruct (Nat.le_ge_cases fuel
              (associatedFuel (TypeAggregate.symbolStore type) (TypeAggregate._symbol type)))
    as [Hle|Hle].
  - pose proof (TypeAggregate.associatedLoop_more _ _ _ _ _ _ _ Hfuel Hle) as H.
    congruence.
  - pose proof (TypeAggregate.associatedLoop_more _ _ _ _ _ _ _ Hown Hle) as H.
    congruence.
Qed.

Lemma associatedLoop_Ok store excludeTraits :
  liveIndex store →
  ∀ fuel queue seen r,
    TypeAggregate.associatedLoop fuel store excludeTraits queue seen = Some r →
    ∃ l, r = Ok l.
Proof.
  intros Hlive. induction fuel as [|fuel IH]; intros queue seen r H; [done|].
  simpl in H. destruct queue as [|stub queue]; [simplify_eq; eauto|].
  destruct (excludeTraits && bool_decide (stubKind stub = SymbolKind.Trait)); [eauto|].
  destruct (find_returns store (stubName stub) (Some PhpSymbolNs.isClassLike) Hlive)
    as [found Hfound].
  rewrite Hfound in H. destruct (head found) as [symbol|]; [|eauto].
  destruct (Js.has oid seen symbol); eauto.
Qed.

(** ** Buckets of the name index under [add] and [remove] *)

Lemma bucket_addKey item (idx : NameIndex.t) key k :
  NameIndex.bucket (NameIndex.addKey item idx key) k
  = NameIndex.bucket idx k ++ (if decide (k = key) then [item] else []).
Proof.
  unfold NameIndex.addKey, NameIndex.bucket. destruct (decide (k = key)) as [->|Hne].
  - by rewrite lookup_insert_eq.
  - rewrite lookup_insert_ne by done. by rewrite app_nil_r.
Qed.

Lemma bucket_add item keys k : ∀ idx : NameIndex.t,
  NameIndex.bucket (NameIndex.add item keys idx) k
  = NameIndex.bucket idx k
    ++ flat_map (λ key, if decide (k = key) then [item] else []) keys.
Proof.
  unfold NameIndex.add. induction keys as [|key keys IH]; intros idx; simpl.
  - by rewrite app_nil_r.
  - rewrite IH, bucket_addKey. by rewrite <- app_assoc.
Qed.

Lemma bucket_addItems items k : ∀ idx : NameIndex.t,
  NameIndex.bucket (SymbolStore.addItems items idx) k
  = NameIndex.bucket idx k ++ contributions k items.
Proof.
  unfold SymbolStore.addItems, contributions.
  induction items as [|item items IH]; intros idx; simpl.
  - by rewrite app_nil_r.
  - rewrite IH, bucket_add. by rewrite <- app_assoc.
Qed.

Lemma removeFirst_absent item items :
  item ∉ items → NameIndex.removeFirst item items = items.
Proof.
  induction items as [|x items IH]; simpl; [done|].
  rewrite not_elem_of_cons. intros [Hne Hnin].
  destruct (decide (x = item)); [congruence|]. by rewrite IH.
Qed.

Lemma bucket_removeKey item (idx : NameIndex.t) key k :
  NameIndex.bucket (NameIndex.removeKey item idx key) k
  = if decide (k = key) then NameIndex.removeFirst item (NameIndex.bucket idx k)
    else NameIndex.bucket idx k.
Proof.
  unfold NameIndex.removeKey, NameIndex.bucket.
  destruct (decide (k = key)) as [->|Hne].
  - destruct (idx !! key) as [items|] eqn:Hkey; simpl; [|by rewrite Hkey].
    destruct (decide (item ∈ items)) as [Hin|Hnin].
    + destruct (NameIndex.removeFirst item items) eqn:Hrem.
      * by rewrite lookup_delete_eq.
      * by rewrite lookup_insert_eq.
    + rewrite Hkey. simpl. by rewrite removeFirst_absent.
  - destruct (idx !! key) as [items|] eqn:Hkey; [|done].
    destruct (decide (item ∈ items)); [|done].
    destruct (NameIndex.removeFirst item items).
    + by rewrite lookup_delete_ne.
    + by rewrite lookup_insert_ne.
Qed.

Lemma bucket_remove item keys k : ∀ idx : NameIndex.t,
  NameIndex.bucket (NameIndex.remove item keys idx) k
  = removeEach (flat_map (λ key, if decide (k = key) then [item] else []) keys)
      (NameIndex.bucket idx k).
Proof.
  unfold NameIndex.remove, removeEach.
  induction keys as [|key keys IH]; intros idx; simpl; [done|].
  rewrite IH, bucket_removeKey. rewrite foldl_app.
  by destruct (decide (k = key)).
Qed.

Lemma bucket_removeItems items k : ∀ idx : NameIndex.t,
  NameIndex.bucket (SymbolStore.removeItems items idx) k
  = removeEach (contributions k items) (NameIndex.bucket idx k).
Proof.
  unfold SymbolStore.removeItems, contributions, removeEach.
  induction items as [|item items IH]; intros idx; simpl; [done|].
  rewrite IH, bucket_remove. unfold removeEach. by rewrite foldl_app.
Qed.

Lemma removeFirst_app_fresh item before after :
  item ∉ before →
  NameIndex.removeFirst item (before ++ item :: after) = before ++ after.
Proof.
  induction before as [|x before IH]; simpl.
  - intros _. by destruct (decide (item = item)).
  - rewrite not_elem_of_cons. intros [Hne Hnin].
    destruct (decide (x = item)); [congruence|]. by rewrite IH.
Qed.

Lemma removeEach_added added : ∀ before,
  (∀ item, item ∈ added → item ∉ before) →
  removeEach added (before ++ added) = before.
Proof.
  unfold removeEach. induction added as [|item added IH]; intros before Hfresh; simpl.
  - by rewrite app_nil_r.
  - rewrite removeFirst_app_fresh by (apply Hfresh; by left).
    apply IH. intros x Hx. apply Hfresh. by right.
Qed.

Lemma noEmptyBucket_addKey item idx key :
  noEmptyBucket idx → noEmptyBucket (NameIndex.addKey item idx key).
Proof.
  unfold noEmptyBucket, NameIndex.addKey. intros Hidx.
  apply map_Forall_insert_2; [|done]. by destruct (NameIndex.bucket idx key).
Qed.

Lemma noEmptyBucket_removeKey item idx key :
  noEmptyBucket idx → noEmptyBucket (NameIndex.removeKey item idx key).
Proof.
  unfold noEmptyBucket, NameIndex.removeKey. intros Hidx.
  destruct (idx !! key) as [items|]; [|done].
  destruct (decide (item ∈ items)); [|done].
  destruct (NameIndex.removeFirst item items) eqn:Hrem.
  - by apply map_Forall_delete.
  - by apply map_Forall_insert_2.
Qed.

Lemma noEmptyBucket_addItems items : ∀ idx,
  noEmptyBucket idx → noEmptyBucket (SymbolStore.addItems items idx).
Proof.
  unfold SymbolStore.addItems. induction items as [|item items IH]; intros idx Hidx; simpl;
    [done|].
  apply IH. unfold NameIndex.add.
  generalize dependent idx.
  induction (KeyedHashedStartLocation.keys item) as [|key keys IHk]; intros idx Hidx; simpl;
    [done|].
  apply IHk. by apply noEmptyBucket_addKey.
Qed.

Lemma noEmptyBucket_removeItems items : ∀ idx,
  noEmptyBucket idx → noEmptyBucket (SymbolStore.removeItems items idx).
Proof.
  unfold SymbolStore.removeItems. induction items as [|item items IH]; intros idx Hidx; simpl;
    [done|].
  apply IH. unfold NameIndex.remove.
  generalize dependent idx.
  induction (KeyedHashedStartLocation.keys item) as [|key keys IHk]; intros idx Hidx; simpl;
    [done|].
  apply IHk. by apply noEmptyBucket_removeKey.
Qed.

(** Two indexes without empty buckets that have the same buckets are the
    same index. *)
Lemma index_eq (idx idx' : NameIndex.t) :
  noEmptyBucket idx → noEmptyBucket idx' →
  (∀ key, NameIndex.bucket idx key = NameIndex.bucket idx' key) →
  idx = idx'.
Proof.
  intros Hidx Hidx' Hbuckets. apply map_eq. intros key.
  specialize (Hbuckets key). unfold NameIndex.bucket in Hbuckets.
  destruct (idx !! key) as [items|] eqn:Hk, (idx' !! key) as [items'|] eqn:Hk';
    simpl in Hbuckets; simplify_eq; try done.
  - by specialize (Hidx _ _ Hk).
  - by specialize (Hidx' _ _ Hk').
Qed.

(** ** [remove] and the index walk *)

Lemma remove_unregistered store uri :
  SymbolStore.getSymbolTable store uri = None →
  SymbolStore.remove store uri = (Ok (), store).
Proof. unfold SymbolStore.getSymbolTable, SymbolStore.remove. by intros ->. Qed.

Lemma remove_unregisters store uri store' :
  SymbolStore.remove store uri = (Ok (), store') →
  SymbolStore.getSymbolTable store' uri = None.
Proof.
  unfold SymbolStore.remove, SymbolStore.getSymbolTable.
  destruct (SymbolStore._tableIndex store !! uriMap.id uri) as [T|] eqn:HT.
  - destruct (IndexableSymbolVisitor.items _); intros [= <-]; simpl.
    apply lookup_delete_eq.
  - by intros [= <-].
Qed.

(** The only error of the index walk is that of a node without location. *)
Lemma items_throws root e :
  IndexableSymbolVisitor.items root = Throw e → e = TypeError.
Proof.
  unfold IndexableSymbolVisitor.items.
  induction (IndexableSymbolVisitor.nodes root) as [|n ns IH]; simpl; [done|].
  unfold KeyedHashedStartLocation.create at 1. destruct (location n); simpl.
  - destruct (mapM _ ns); simpl; [done|]. intros [= ->]. by apply IH.
  - by intros [= <-].
Qed.

Lemma excluded_kinds n :
  kindIn n IndexableSymbolVisitor.excludedKinds = false
  ↔ kind n ≠ SymbolKind.Parameter_ ∧ kind n ≠ SymbolKind.File
    ∧ kind n ≠ SymbolKind.Variable_.
Proof.
  unfold kindIn. destruct (kind n); vm_compute; split; intros H;
    try done; try (by repeat split); destruct H as (? & ? & ?); done.
Qed.

Lemma nonEmpty_true text : Js.nonEmpty text = true ↔ text ≠ "".
Proof. destruct text; simpl; split; congruence. Qed.

Lemma indexable_iff n :
  IndexableSymbolVisitor.indexable n = true
  ↔ kind n ≠ SymbolKind.Parameter_ ∧ kind n ≠ SymbolKind.File
    ∧ kind n ≠ SymbolKind.Variable_
    ∧ hasModifier n SymbolModifier.Use = false
    ∧ name n ≠ "".
Proof.
  unfold IndexableSymbolVisitor.indexable.
  rewrite !andb_true_iff, !negb_true_iff, excluded_kinds, nonEmpty_true. tauto.
Qed.

Lemma items_of_located_nodes (ns : list PhpSymbol) :
  Forall (λ n, is_Some (location n)) ns →
  ∃ items,
    mapM KeyedHashedStartLocation.create ns = Ok items
    ∧ map KeyedHashedStartLocation.keys items = map KeyedHashedStartLocation.symbolKeys ns
    ∧ map (λ item, Some (KeyedHashedStartLocation.start item)) items = map stubOf ns.
Proof.
  induction ns as [|n ns IH]; intros Hloc; simpl; [by exists []|].
  apply Forall_cons in Hloc as [[l Hl] Hloc]. destruct (IH Hloc) as (items & -> & Hk & Hs).
  unfold KeyedHashedStartLocation.create, stubOf. rewrite Hl. simpl.
  eexists. split; [done|]. simpl. unfold stubOf in Hs. by rewrite Hk, Hs.
Qed.

Lemma items_Ok_located (ns : list PhpSymbol) items :
  mapM KeyedHashedStartLocation.create ns = Ok items →
  Forall (λ n, is_Some (location n)) ns.
Proof.
  revert items. induction ns as [|n ns IH]; intros items; simpl; [constructor|].
  unfold KeyedHashedStartLocation.create at 1. destruct (location n) eqn:Hl; simpl; [|done].
  destruct (mapM _ ns) eqn:Hrest; simpl; [|done]. intros _.
  constructor; [by rewrite Hl | by eapply IH].
Qed.

Lemma located_items T :
  locatedTable T →
  ∃ items,
    IndexableSymbolVisitor.items (SymbolTable.root T) = Ok items
    ∧ Forall (λ item,
                HashedStartLocation.uriHash (KeyedHashedStartLocation.start item)
                = uriMap.id (SymbolTable.uri T))
        items.
Proof.
  unfold locatedTable, IndexableSymbolVisitor.items.
  induction (IndexableSymbolVisitor.nodes (SymbolTable.root T)) as [|n ns IH];
    intros Hloc; simpl; [by exists []|].
  apply Forall_cons in Hloc as [Hn Hloc]. destruct (IH Hloc) as (items & -> & Hitems).
  unfold KeyedHashedStartLocation.create. destruct (location n) as [l|]; [|done].
  simpl in *. eexists. split; [done|]. constructor; [|done]. simpl. congruence.
Qed.

Lemma contributions_elem key items item :
  item ∈ contributions key items →
  ∃ keyed, keyed ∈ items ∧ item = KeyedHashedStartLocation.start keyed.
Proof.
  unfold contributions, contribution. intros Hin.
  apply list_elem_of_In, in_flat_map in Hin as (keyed & Hkeyed & Hin).
  apply in_flat_map in Hin as (k & _ & Hin).
  destruct (decide (key = k)); [|done]. destruct Hin as [<-|[]].
  exists keyed. split; [by apply list_elem_of_In | done].
Qed.

Lemma resolveInto_same_tables store store' results : ∀ symbols,
  SymbolStore._tableIndex store = SymbolStore._tableIndex store' →
  SymbolStore.resolveInto store symbols results
  = SymbolStore.resolveInto store' symbols results.
Proof.
  induction results as [|item rest IH]; intros symbols Htables; simpl; [done|].
  rewrite <- Htables. destruct (SymbolStore._tableIndex store !! _); [|done].
  destruct (FindByStartPositionTraverser.find _ _); by apply IH.
Qed.

(** ** Index stubs and the symbols they resolve to *)

Lemma same_object (l : list PhpSymbol) x y :
  NoDup (map oid l) → x ∈ l → y ∈ l → oid x = oid y → x = y.
Proof.
  induction l as [|z l IH]; simpl; intros Hnd Hx Hy Heq; [by apply elem_of_nil in Hx|].
  apply NoDup_cons in Hnd as [Hz Hnd].
  apply elem_of_cons in Hx as [->|Hx]; apply elem_of_cons in Hy as [->|Hy]; try done.
  - destruct Hz. rewrite Heq. by apply list_elem_of_fmap_2.
  - destruct Hz. rewrite <- Heq. by apply list_elem_of_fmap_2.
  - by apply IH.
Qed.

Lemma setAdd_keeps (seen : list PhpSymbol) x n :
  n ∈ seen → n ∈ Js.setAdd oid seen x.
Proof.
  unfold Js.setAdd. destruct (Js.has oid seen x); [done|]. intros ?.
  apply elem_of_app. by left.
Qed.

Lemma setAdd_has (seen : list PhpSymbol) x :
  ∃ y, y ∈ Js.setAdd oid seen x ∧ oid y = oid x.
Proof.
  unfold Js.setAdd. destruct (Js.has oid seen x) eqn:Hseen.
  - unfold Js.has in Hseen. apply existsb_exists in Hseen as (y & Hy & Heq).
    exists y. split; [by apply list_elem_of_In | by apply Nat.eqb_eq].
  - exists x. split; [|done]. apply elem_of_app. right. by left.
Qed.

Lemma resolveInto_keeps store results : ∀ symbols l n,
  SymbolStore.resolveInto store symbols results = Ok l → n ∈ symbols → n ∈ l.
Proof.
  induction results as [|item rest IH]; intros symbols l n H Hn; simpl in H.
  - by simplify_eq.
  - destruct (SymbolStore._tableIndex store !! _); [|done].
    destruct (FindByStartPositionTraverser.find _ _); eauto using setAdd_keeps.
Qed.

Lemma resolveInto_elem store results : ∀ symbols l n,
  SymbolStore.resolveInto store symbols results = Ok l → n ∈ l →
  n ∈ symbols
  ∨ ∃ item T,
      item ∈ results
      ∧ SymbolStore._tableIndex store !! HashedStartLocation.uriHash item = Some T
      ∧ FindByStartPositionTraverser.find (HashedStartLocation.start item)
          (SymbolTable.root T) = Some n.
Proof.
  induction results as [|item rest IH]; intros symbols l n H Hn; simpl in H.
  - simplify_eq. by left.
  - destruct (SymbolStore._tableIndex store !! HashedStartLocation.uriHash item)
      as [T|] eqn:HT; [|done].
    destruct (FindByStartPositionTraverser.find _ _) as [s|] eqn:Hs.
    + destruct (IH _ _ _ H Hn) as [Hin|(item' & T' & ? & ? & ?)].
      * apply setAdd_elem in Hin as [?| ->]; [by left|].
        right. exists item, T. split; [by left | done].
      * right. exists item', T'. split; [by right | done].
    + destruct (IH _ _ _ H Hn) as [?|(item' & T' & ? & ? & ?)]; [by left|].
      right. exists item', T'. split; [by right | done].
Qed.

Lemma resolveInto_found store results : ∀ symbols l item T n,
  SymbolStore.resolveInto store symbols results = Ok l →
  item ∈ results →
  SymbolStore._tableIndex store !! HashedStartLocation.uriHash item = Some T →
  FindByStartPositionTraverser.find (HashedStartLocation.start item) (SymbolTable.root T)
  = Some n →
  ∃ n', n' ∈ l ∧ oid n' = oid n.
Proof.
  induction results as [|first rest IH]; intros symbols l item T n H Hitem HT Hn;
    [by apply elem_of_nil in Hitem|].
  simpl in H. apply elem_of_cons in Hitem as [<-|Hitem].
  - rewrite HT, Hn in H.
    destruct (setAdd_has symbols n) as (y & Hy & Heq).
    exists y. split; [|done]. eauto using resolveInto_keeps.
  - destruct (SymbolStore._tableIndex store !! HashedStartLocation.uriHash first); [|done].
    destruct (FindByStartPositionTraverser.find _ (SymbolTable.root t)); eauto.
Qed.

Lemma lower_key n : Js.toLowerCase (name n) ∈ KeyedHashedStartLocation.symbolKeys n.
Proof.
  unfold KeyedHashedStartLocation.symbolKeys, KeyedHashedStartLocation.namespaceKeys,
    PhpSymbolNs.keys.
  destruct (bool_decide _); [|by left].
  destruct (String.eqb _ _); by left.
Qed.

Lemma exact_kinds n :
  kindIn n SymbolStore.exactKindMask = true
  ↔ kind n = SymbolKind.Constant ∨ kind n = SymbolKind.Variable_.
Proof.
  unfold kindIn. destruct (kind n); vm_compute; split; intros H;
    try discriminate; try tauto; destruct H as [H|H]; discriminate.
Qed.

Lemma nameMatches_iff text n :
  SymbolStore.nameMatches text n = true
  ↔ if decide (kind n = SymbolKind.Constant ∨ kind n = SymbolKind.Variable_)
    then name n = text
    else Js.toLowerCase (name n) = Js.toLowerCase text.
Proof.
  unfold SymbolStore.nameMatches. pose proof (exact_kinds n) as Hk.
  destruct (kindIn n SymbolStore.exactKindMask); simpl;
    destruct (decide _) as [Hd|Hd].
  - rewrite orb_false_r. apply String.eqb_eq.
  - destruct Hd. by apply Hk.
  - destruct Hk as [_ Hk]. by specialize (Hk Hd).
  - apply String.eqb_eq.
Qed.

Lemma nameMatches_lower text n :
  SymbolStore.nameMatches text n = true →
  Js.toLowerCase (name n) = Js.toLowerCase text.
Proof. rewrite nameMatches_iff. destruct (decide _); congruence. Qed.

Lemma toLowerCase_empty s : Js.toLowerCase s = "" → s = "".
Proof. by destruct s. Qed.

Lemma nodes_toArray root n :
  n ∈ IndexableSymbolVisitor.nodes root →
  n ∈ TreeTraverser.toArray root ∧ IndexableSymbolVisitor.indexable n = true.
Proof.
  unfold IndexableSymbolVisitor.nodes, TreeTraverser.filter.
  rewrite !list_elem_of_In, filter_In. tauto.
Qed.

Lemma indexedSymbols_elem store n :
  n ∈ indexedSymbols store
  ↔ ∃ id T, SymbolStore._tableIndex store !! id = Some T
            ∧ n ∈ IndexableSymbolVisitor.nodes (SymbolTable.root T).
Proof.
  unfold indexedSymbols, tables. rewrite list_elem_of_In, in_flat_map. split.
  - intros (T & HT & Hn). apply list_elem_of_In, list_elem_of_fmap in HT as ([id T'] & -> & HT).
    apply elem_of_map_to_list in HT. exists id, T'. by rewrite list_elem_of_In.
  - intros (id & T & HT & Hn). exists T. split; [|by apply list_elem_of_In].
    apply list_elem_of_In, list_elem_of_fmap. exists (id, T). split; [done|].
    by apply elem_of_map_to_list.
Qed.

Lemma consistent_live store : consistent store → liveIndex store.
Proof.
  intros (_ & _ & Hindex) key items Hkey. specialize (Hindex key items Hkey).
  simpl in *. eapply Forall_impl; [exact Hindex|]. intros item. unfold soundStub.
  by destruct (SymbolStore._tableIndex store !! _).
Qed.

Lemma resolved_are_indexed store key :
  consistent store →
  ∀ result n,
    SymbolStore.resolveInto store [] (NameIndex.bucket (SymbolStore._symbolIndex store) key)
    = Ok result →
    n ∈ result →
    n ∈ indexedSymbols store ∧ key ∈ KeyedHashedStartLocation.symbolKeys n.
Proof.
  intros (Hobj & Htables & Hindex) result n Hres Hn.
  destruct (resolveInto_elem _ _ _ _ _ Hres Hn) as [Hnil|(item & T & Hitem & HT & Hfind)];
    [by apply elem_of_nil in Hnil|].
  unfold NameIndex.bucket in Hitem.
  destruct (SymbolStore._symbolIndex store !! key) as [items|] eqn:Hkey; simpl in Hitem;
    [|by apply elem_of_nil in Hitem].
  specialize (Hindex key items Hkey). simpl in Hindex.
  rewrite Forall_forall in Hindex. specialize (Hindex item Hitem).
  unfold soundStub in Hindex. rewrite HT in Hindex.
  apply Exists_exists in Hindex as (n' & Hn' & Hstub & Hk).
  specialize (Htables _ T HT) as (_ & _ & Hnodes). simpl in Hnodes.
  rewrite Forall_forall in Hnodes. destruct (Hnodes n' Hn') as [Hresolves _].
  unfold resolvesTo in Hresolves. unfold stubOf in Hstub.
  destruct (location n') as [l|]; [|done]. simpl in Hstub. injection Hstub as <-.
  simpl in Hfind. rewrite Hfind in Hresolves. simpl in Hresolves.
  injection Hresolves as Hoid.
  assert (n = n') as ->.
  { apply (same_object (allNodes store)); [done| | |done].
    - apply traverser_find_elem in Hfind as [Hin _]. eauto using registered_nodes.
    - apply nodes_toArray in Hn' as [Hin _]. eauto using registered_nodes. }
  split; [|done]. apply indexedSymbols_elem. eauto.
Qed.

Lemma indexed_are_resolved store key :
  consistent store →
  ∀ result n,
    SymbolStore.resolveInto store [] (NameIndex.bucket (SymbolStore._symbolIndex store) key)
    = Ok result →
    n ∈ indexedSymbols store → key ∈ KeyedHashedStartLocation.symbolKeys n →
    n ∈ result.
Proof.
  intros (Hobj & Htables & Hindex) result n Hres Hn Hk.
  apply indexedSymbols_elem in Hn as (id & T & HT & Hn).
  specialize (Htables _ T HT) as (Hid & Hlocated & Hnodes). simpl in Hnodes.
  rewrite Forall_forall in Hnodes. destruct (Hnodes n Hn) as [Hresolves Hfiled].
  unfold locatedTable in Hlocated. rewrite Forall_forall in Hlocated.
  specialize (Hlocated n Hn). simpl in Hlocated.
  unfold resolvesTo in Hresolves. unfold filed, stubOf in Hfiled.
  destruct (location n) as [l|] eqn:Hl; [|done]. simpl in *.
  rewrite Forall_forall in Hfiled. specialize (Hfiled key Hk).
  injection Hlocated as Hhash.
  destruct (FindByStartPositionTraverser.find (rangeStart l) (SymbolTable.root T))
    as [m|] eqn:Hfind; [|done].
  injection Hresolves as Hoid.
  destruct (resolveInto_found _ _ _ _ _ T m Hres Hfiled) as (n' & Hn' & Hoid').
  { simpl. by rewrite Hhash, <- Hid. }
  { done. }
  assert (n' = n) as ->; [|done].
  apply (same_object (allNodes store)); [done| | |congruence].
  - destruct (resolveInto_nodes _ _ _ _ Hres n' Hn') as [Hnil|]; [|done].
    by apply elem_of_nil in Hnil.
  - apply nodes_toArray in Hn as [Hin _]. eauto using registered_nodes.
Qed.

(** ** Members under the strategy Base *)

Lemma sameMember_noPrivate symbol x :
  hasModifier symbol SymbolModifier.Private = false →
  TypeAggregate.noPrivate (Some (sameMember symbol)) x = sameMember symbol x.
Proof.
  intros Hpublic. unfold TypeAggregate.noPrivate. simpl.
  destruct (sameMember symbol x) eqn:Hsame; [|by rewrite andb_false_r].
  rewrite andb_true_r. unfold sameMember in Hsame.
  apply andb_true_iff in Hsame as [Hsame _]. apply andb_true_iff in Hsame as [_ Hmod].
  apply Z.eqb_eq in Hmod. unfold hasModifier in *. by rewrite Hmod, Hpublic.
Qed.

Lemma classLoop_sameMember symbol types : ∀ p,
  hasModifier symbol SymbolModifier.Private = false →
  p = Some (sameMember symbol) ∨ p = Some (TypeAggregate.noPrivate (Some (sameMember symbol))) →
  TypeAggregate.classLoop types p (Some (sameMember symbol))
  = (declared symbol (List.filter (λ t, negb (isTrait t)) types), List.filter isTrait types).
Proof.
  intros p Hpublic. revert p.
  induction types as [|t types IH]; intros p Hp; simpl; [done|].
  rewrite IH by (by right).
  change (bool_decide (kind t = SymbolKind.Trait)) with (isTrait t).
  destruct (isTrait t); simpl; [done|].
  f_equal. unfold declared. simpl. f_equal.
  destruct Hp as [->| ->]; simpl; [done|].
  apply filter_ext. intros x. by apply sameMember_noPrivate.
Qed.

Lemma traitMembers_sameMember symbol traits :
  hasModifier symbol SymbolModifier.Private = false →
  TypeAggregate._traitMembers traits
    (Some (TypeAggregate.noPrivate (Some (sameMember symbol))))
  = declared symbol traits.
Proof.
  intros Hpublic. unfold TypeAggregate._traitMembers, TypeAggregate._interfaceMembers, declared.
  induction traits as [|t traits IH]; simpl; [done|]. f_equal; [|exact IH].
  apply filter_ext. intros x. by apply sameMember_noPrivate.
Qed.

Lemma replaces_Base mapped s : TypeAggregate.replaces MemberMergeStrategy.Base mapped s = true.
Proof. destruct mapped; simpl; by rewrite ?orb_true_r. Qed.

Lemma mergeMembers_Base_one_name key : ∀ symbols mapped,
  key ≠ "__proto__" →
  Forall (λ s, name s = key) symbols →
  foldl (TypeAggregate.mergeStep MemberMergeStrategy.Base) [(key, mapped)] symbols
  = [(key, default mapped (last symbols))].
Proof.
  intros symbols mapped Hkey. revert mapped.
  induction symbols as [|s symbols IH]; intros mapped Hnames; simpl; [done|].
  apply Forall_cons in Hnames as [Hs Hnames].
  unfold TypeAggregate.mergeStep at 2. rewrite replaces_Base.
  unfold JsObject.set. rewrite Hs.
  destruct (String.eqb key "__proto__") eqn:Hproto; [by apply String.eqb_eq in Hproto|].
  simpl. rewrite String.eqb_refl. rewrite IH by done.
  rewrite last_cons. by destruct (last symbols).
Qed.

Lemma mergeMembers_Base_same_name key symbols :
  key ≠ "__proto__" →
  Forall (λ s, name s = key) symbols →
  TypeAggregate._mergeMembers symbols MemberMergeStrategy.Base
  = match last symbols with Some s => [s] | None => [] end.
Proof.
  intros Hkey Hnames. unfold TypeAggregate._mergeMembers. simpl.
  destruct symbols as [|s symbols]; [done|].
  apply Forall_cons in Hnames as [Hs Hnames]. simpl.
  unfold TypeAggregate.mergeStep at 2. rewrite replaces_Base.
  unfold JsObject.set. rewrite Hs.
  destruct (String.eqb key "__proto__") eqn:Hproto; [by apply String.eqb_eq in Hproto|].
  simpl. rewrite (mergeMembers_Base_one_name key) by done.
  rewrite last_cons. by destruct (last symbols).
Qed.

Lemma setAddAll_head (xs : list PhpSymbol) : ∀ first seen,
  head (Js.setAddAll oid (first :: seen) xs) = Some first.
Proof.
  induction xs as [|x xs IH]; intros first seen; simpl; [done|].
  unfold Js.setAdd. destruct (Js.has oid (first :: seen) x); apply IH.
Qed.

Lemma arrayFromSet_head (xs : list PhpSymbol) :
  head (Js.arrayFromSet oid xs) = head xs.
Proof.
  destruct xs as [|x xs]; [done|]. unfold Js.arrayFromSet. simpl.
  apply setAddAll_head.
Qed.

Lemma findMembers_one_type store scopeName fqn strategy predicate :
  TypeString.atomicClassArray scopeName = [fqn] →
  findMembers store scopeName strategy predicate
  = let* type := TypeAggregate.create store fqn in
    match type with
    | Some type =>
        let* found := TypeAggregate.members type strategy predicate in
        Ok (Js.arrayFromSet oid found)
    | None => Ok []
    end.
Proof.
  intros Hone. unfold findMembers. rewrite Hone.
  destruct (TypeAggregate.create store fqn) as [[type|]|]; simpl; try done.
  by destruct (TypeAggregate.members type strategy predicate).
Qed.

Lemma declared_names symbol types :
  kind symbol ≠ SymbolKind.Method →
  Forall (λ s, name s = name symbol) (declared symbol types).
Proof.
  intros Hkind. apply Forall_forall. intros s Hs. unfold declared in Hs.
  apply list_elem_of_In, in_flat_map in Hs as (t & _ & Hs).
  apply filter_In in Hs as [_ Hs]. unfold sameMember in Hs.
  apply andb_true_iff in Hs as [_ Hs].
  rewrite bool_decide_eq_false_2 in Hs by done. symmetry. by apply String.eqb_eq.
Qed.

(** ** The invariant is kept by [add] and [remove] *)

Lemma contributions_stubsFor key (ns : list PhpSymbol) : ∀ items,
  mapM KeyedHashedStartLocation.create ns = Ok items →
  contributions key items = stubsFor key ns.
Proof.
  induction ns as [|n ns IH]; intros items; simpl; [by intros [= <-]|].
  unfold KeyedHashedStartLocation.create at 1, stubOf.
  destruct (location n) as [l|]; simpl; [|done].
  destruct (mapM _ ns) as [rest|]; simpl; [|done]. intros [= <-]. simpl.
  by rewrite (IH rest).
Qed.

Lemma stubsFor_elem key (ns : list PhpSymbol) stub :
  stub ∈ stubsFor key ns
  ↔ ∃ n, n ∈ ns ∧ stubOf n = Some stub ∧ key ∈ KeyedHashedStartLocation.symbolKeys n.
Proof.
  unfold stubsFor. rewrite list_elem_of_In, in_flat_map. split.
  - intros (n & Hn & Hin). destruct (stubOf n) as [stub'|] eqn:Hstub; [|done].
    apply in_flat_map in Hin as (k & Hk & Hin).
    destruct (decide (key = k)) as [->|]; [|done]. destruct Hin as [->|[]].
    exists n. by rewrite !list_elem_of_In.
  - intros (n & Hn & Hstub & Hk). exists n. split; [by apply list_elem_of_In|].
    rewrite Hstub. apply in_flat_map. exists key. split; [by apply list_elem_of_In|].
    destruct (decide (key = key)); [by left | done].
Qed.

Lemma stubsFor_hash T key stub :
  locatedTable T →
  stub ∈ stubsFor key (IndexableSymbolVisitor.nodes (SymbolTable.root T)) →
  HashedStartLocation.uriHash stub = uriMap.id (SymbolTable.uri T).
Proof.
  intros Hlocated Hin. apply stubsFor_elem in Hin as (n & Hn & Hstub & _).
  unfold locatedTable in Hlocated. rewrite Forall_forall in Hlocated.
  specialize (Hlocated n Hn). simpl in Hlocated. unfold stubOf in Hstub.
  destruct (location n); simplify_eq/=. done.
Qed.

Lemma filter_all (p : HashedStartLocation.t → bool) l :
  (∀ x, x ∈ l → p x = true) → List.filter p l = l.
Proof.
  induction l as [|x l IH]; intros Hall; simpl; [done|].
  rewrite Hall by (by left). f_equal. apply IH. intros y Hy. apply Hall. by right.
Qed.

Lemma filter_none (p : HashedStartLocation.t → bool) l :
  (∀ x, x ∈ l → p x = false) → List.filter p l = [].
Proof.
  induction l as [|x l IH]; intros Hall; simpl; [done|].
  rewrite Hall by (by left). apply IH. intros y Hy. apply Hall. by right.
Qed.

Lemma removeEach_cons_other gone : ∀ x items,
  x ∉ gone → removeEach gone (x :: items) = x :: removeEach gone items.
Proof.
  unfold removeEach. induction gone as [|g gone IH]; intros x items Hx; simpl; [done|].
  apply not_elem_of_cons in Hx as [Hne Hx].
  destruct (decide (x = g)); [done|]. by apply IH.
Qed.

(** Taking out, one by one, the stubs of a table that a bucket holds
    leaves the stubs of the other tables. *)
Lemma removeEach_ofTable id items : ∀ gone,
  List.filter (ofTable id) items = gone →
  removeEach gone items = List.filter (λ stub, negb (ofTable id stub)) items.
Proof.
  induction items as [|x items IH]; intros gone Hgone; simpl in *.
  - by subst.
  - destruct (ofTable id x) eqn:Hx; simpl.
    + subst gone. unfold removeEach. simpl.
      destruct (decide (x = x)); [|done]. by apply IH.
    + rewrite removeEach_cons_other; [by rewrite (IH gone)|].
      intros Hin. rewrite <- Hgone in Hin.
      apply list_elem_of_In, filter_In in Hin as [_ Hin]. congruence.
Qed.

Lemma liveIndex_of_buckets store :
  (∀ key item,
     item ∈ NameIndex.bucket (SymbolStore._symbolIndex store) key →
     is_Some (SymbolStore._tableIndex store !! HashedStartLocation.uriHash item)) →
  liveIndex store.
Proof.
  intros Hbuckets key items Hkey. simpl. apply Forall_forall. intros item Hitem.
  apply (Hbuckets key). unfold NameIndex.bucket. by rewrite Hkey.
Qed.

Lemma NoDup_allNodes_insert store store' id T :
  SymbolStore._tableIndex store !! id = None →
  SymbolStore._tableIndex store' = <[id := T]> (SymbolStore._tableIndex store) →
  NoDup (map oid (TreeTraverser.toArray (SymbolTable.root T) ++ allNodes store)) →
  NoDup (map oid (allNodes store')).
Proof.
  intros Hnew Htables. unfold allNodes, tables. rewrite Htables.
  rewrite (Permutation_flat_map _
             (Permutation_map snd (map_to_list_insert _ id T Hnew))).
  done.
Qed.

Lemma NoDup_allNodes_delete store store' id T :
  SymbolStore._tableIndex store !! id = Some T →
  SymbolStore._tableIndex store' = delete id (SymbolStore._tableIndex store) →
  NoDup (map oid (allNodes store)) →
  NoDup (map oid (allNodes store')).
Proof.
  intros Hold Htables. unfold allNodes, tables. rewrite Htables.
  rewrite <- (Permutation_flat_map _
                (Permutation_map snd (map_to_list_delete _ id T Hold))).
  simpl. rewrite map_app. by intros (_ & _ & ?)%NoDup_app.
Qed.

Lemma filter_filter_implied (p q : HashedStartLocation.t → bool) l :
  (∀ x, p x = true → q x = true) →
  List.filter p (List.filter q l) = List.filter p l.
Proof.
  intros Himp. induction l as [|x l IH]; simpl; [done|].
  destruct (q x) eqn:Hq; simpl.
  - by rewrite IH.
  - destruct (p x) eqn:Hp; [|done]. apply Himp in Hp. congruence.
Qed.

Lemma exact_remove store uri :
  exact store →
  ∃ removed,
    SymbolStore.remove store uri = (Ok (), removed)
    ∧ exact removed
    ∧ SymbolStore.getSymbolTable removed uri = None.
Proof.
  intros (Hobj & Hlive & Hnonempty & Htables). unfold SymbolStore.remove.
  destruct (SymbolStore._tableIndex store !! uriMap.id uri) as [T|] eqn:HT.
  2:{ exists store. split; [done|]. split; [unfold exact; auto | done]. }
  destruct (Htables _ _ HT) as (_ & Hlocated & _ & Hbucket).
  destruct (located_items T Hlocated) as (items & Hitems & _). rewrite Hitems.
  eexists. split; [done|]. split; [|apply lookup_delete_eq].
  destruct store as [tbl idx cnt]. simpl in *.
  assert (Hbucket' : ∀ key,
            NameIndex.bucket (SymbolStore.removeItems items idx) key
            = List.filter (λ stub, negb (ofTable (uriMap.id uri) stub))
                (NameIndex.bucket idx key)).
  { intros key. rewrite bucket_removeItems. apply removeEach_ofTable.
    rewrite Hbucket. symmetry. by apply contributions_stubsFor. }
  split; [|split; [|split]].
  - by apply (NoDup_allNodes_delete (SymbolStore.mk tbl idx cnt) _ _ T HT).
  - apply liveIndex_of_buckets. simpl. intros key item. rewrite Hbucket'.
    intros Hin. apply list_elem_of_In, filter_In in Hin as [Hin Hother].
    apply list_elem_of_In in Hin.
    pose proof (liveIndex_bucket (SymbolStore.mk tbl idx cnt) key item Hlive Hin) as Hreg.
    simpl in Hreg. rewrite lookup_delete_ne; [done|].
    unfold ofTable in Hother. apply negb_true_iff, bool_decide_eq_false in Hother. congruence.
  - by apply noEmptyBucket_removeItems.
  - intros id' T' HT'. simpl in *. apply lookup_delete_Some in HT' as [Hne HT'].
    destruct (Htables _ _ HT') as (Hid & Hlocated' & Hresolves & Hbucket'').
    repeat split; try done. intros key. rewrite Hbucket', <- Hbucket''.
    apply filter_filter_implied. intros x. unfold ofTable.
    intros Hx%bool_decide_eq_true. apply negb_true_iff, bool_decide_eq_false. congruence.
Qed.

Lemma exact_add_new store T :
  exact store →
  SymbolStore.getSymbolTable store (SymbolTable.uri T) = None →
  freshTable store T →
  ∃ added, SymbolStore.add store T = (Ok (), added) ∧ exact added.
Proof.
  intros (Hobj & Hlive & Hnonempty & Htables) Hnew (Hlocated & Hresolves & Hfresh).
  unfold SymbolStore.add. rewrite (remove_unregistered _ _ Hnew).
  destruct (located_items T Hlocated) as (items & Hitems & _). rewrite Hitems.
  eexists. split; [done|].
  destruct store as [tbl idx cnt]. unfold SymbolStore.getSymbolTable in Hnew. simpl in *.
  assert (Hold : ∀ key stub, stub ∈ NameIndex.bucket idx key →
                 ofTable (uriMap.id (SymbolTable.uri T)) stub = false).
  { intros key stub Hin.
    pose proof (liveIndex_bucket (SymbolStore.mk tbl idx cnt) key stub Hlive Hin) as Hreg.
    simpl in Hreg. unfold ofTable. apply bool_decide_eq_false. intros Heq.
    rewrite Heq, Hnew in Hreg. by destruct Hreg. }
  split; [|split; [|split]].
  - by apply (NoDup_allNodes_insert (SymbolStore.mk tbl idx cnt) _ _ T Hnew).
  - apply liveIndex_of_buckets. simpl. intros key item. rewrite bucket_addItems.
    intros [Hin|Hin]%elem_of_app.
    + pose proof (liveIndex_bucket (SymbolStore.mk tbl idx cnt) key item Hlive Hin) as Hreg.
      simpl in Hreg. destruct (decide (uriMap.id (SymbolTable.uri T)
                                       = HashedStartLocation.uriHash item)) as [<-|Hne].
      * by rewrite lookup_insert_eq.
      * by rewrite lookup_insert_ne.
    + rewrite (contributions_stubsFor key _ _ Hitems) in Hin.
      rewrite (stubsFor_hash T key item Hlocated Hin). by rewrite lookup_insert_eq.
  - by apply noEmptyBucket_addItems.
  - intros id' T' HT'. simpl in *. apply lookup_insert_Some in HT' as [[<- <-]|[Hne HT']].
    + repeat split; try done. intros key.
      rewrite bucket_addItems, List.filter_app, (contributions_stubsFor key _ _ Hitems).
      rewrite (filter_none _ (NameIndex.bucket idx key)) by (apply Hold).
      simpl. apply filter_all. intros stub Hstub. unfold ofTable.
      apply bool_decide_eq_true. by eapply stubsFor_hash.
    + destruct (Htables _ _ HT') as (Hid & Hlocated' & Hresolves' & Hbucket).
      repeat split; try done. intros key.
      rewrite bucket_addItems, List.filter_app, Hbucket.
      rewrite (filter_none _ (contributions key items)); [by rewrite app_nil_r|].
      intros stub Hstub. rewrite (contributions_stubsFor key _ _ Hitems) in Hstub.
      unfold ofTable. apply bool_decide_eq_false.
      rewrite (stubsFor_hash T key stub Hlocated Hstub). congruence.
Qed.

Lemma exact_add store T :
  exact store →
  freshTable (SymbolStore.remove store (SymbolTable.uri T)).2 T →
  ∃ added, SymbolStore.add store T = (Ok (), added) ∧ exact added.
Proof.
  intros Hexact Hfresh.
  destruct (exact_remove store (SymbolTable.uri T) Hexact) as (removed & Hrem & Hexact' & Hnew).
  rewrite Hrem in Hfresh. simpl in Hfresh.
  destruct (exact_add_new removed T Hexact' Hnew Hfresh) as (added & Hadd & Hadded).
  exists added. split; [|done].
  unfold SymbolStore.add in *. rewrite Hrem.
  by rewrite (remove_unregistered _ _ Hnew) in Hadd.
Qed.

Lemma exact_empty : exact SymbolStore.empty.
Proof.
  split; [constructor|]. split; [done|]. split; [done|].
  intros id T HT. simpl in HT. by rewrite lookup_empty in HT.
Qed.

Lemma reachable_exact store : reachable store → exact store.
Proof.
  induction 1 as [|store T _ IH Hfresh|store uri _ IH].
  - apply exact_empty.
  - destruct (exact_add store T IH Hfresh) as (added & -> & Hadded). done.
  - destruct (exact_remove store uri IH) as (removed & -> & Hremoved & _). done.
Qed.

Lemma exact_consistent store : exact store → consistent store.
Proof.
  intros (Hobj & Hlive & Hnonempty & Htables). split; [done|]. split.
  - intros id T HT. simpl. destruct (Htables _ _ HT) as (Hid & Hlocated & Hresolves & Hbucket).
    split; [done|]. split; [done|]. apply Forall_forall. intros n Hn.
    rewrite Forall_forall in Hresolves. split; [by apply Hresolves|].
    unfold locatedTable in Hlocated. rewrite Forall_forall in Hlocated.
    specialize (Hlocated n Hn). simpl in Hlocated. unfold filed.
    destruct (stubOf n) as [stub|] eqn:Hstub.
    2:{ unfold stubOf in Hstub. by destruct (location n). }
    apply Forall_forall. intros key Hkey.
    assert (stub ∈ stubsFor key (IndexableSymbolVisitor.nodes (SymbolTable.root T))) as Hin.
    { apply stubsFor_elem. eauto. }
    rewrite <- Hbucket in Hin. apply list_elem_of_In, filter_In in Hin as [Hin _].
    by apply list_elem_of_In.
  - intros key items Hkey. simpl. apply Forall_forall. intros item Hitem.
    assert (item ∈ NameIndex.bucket (SymbolStore._symbolIndex store) key) as Hin.
    { unfold NameIndex.bucket. by rewrite Hkey. }
    destruct (liveIndex_bucket store key item Hlive Hin) as [T HT].
    unfold soundStub. rewrite HT.
    destruct (Htables _ _ HT) as (_ & _ & _ & Hbucket).
    assert (item ∈ stubsFor key (IndexableSymbolVisitor.nodes (SymbolTable.root T))) as Hstub.
    { rewrite <- Hbucket. apply list_elem_of_In, filter_In. split; [by apply list_elem_of_In|].
      unfold ofTable. by apply bool_decide_eq_true. }
    apply stubsFor_elem in Hstub as (n & Hn & Hstub & Hk).
    apply Exists_exists. eauto.
Qed.

(** Every store that [add] and [remove] build from the empty store, out
    of tables as the symbol reader delivers them, satisfies the
    invariants under which the lookups are characterised, and both
    operations return on it. *)
Lemma reachable_invariants store :
  reachable store →
  consistent store ∧ liveIndex store ∧ noEmptyBucket (SymbolStore._symbolIndex store).
Proof.
  intros Hreach. pose proof (reachable_exact _ Hreach) as Hexact.
  split; [by apply exact_consistent|]. by destruct Hexact as (_ & ? & ? & _).
Qed.

(** ** The running count under [add] and [remove] alone *)

Lemma count_sum_Permutation (l l' : list SymbolTable.t) :
  l ≡ₚ l' →
  foldr (λ T sum, SymbolTable.symbolCount T + sum) 0 l
  = foldr (λ T sum, SymbolTable.symbolCount T + sum) 0 l'.
Proof. induction 1; simpl; lia. Qed.

Lemma tableSymbolCount_insert store store' id T :
  SymbolStore._tableIndex store !! id = None →
  SymbolStore._tableIndex store' = <[id := T]> (SymbolStore._tableIndex store) →
  tableSymbolCount store' = SymbolTable.symbolCount T + tableSymbolCount store.
Proof.
  intros Hnew Htables. unfold tableSymbolCount, tables. rewrite Htables.
  by rewrite (count_sum_Permutation _ _
                (Permutation_map snd (map_to_list_insert _ id T Hnew))).
Qed.

Lemma tableSymbolCount_delete store store' id T :
  SymbolStore._tableIndex store !! id = Some T →
  SymbolStore._tableIndex store' = delete id (SymbolStore._tableIndex store) →
  tableSymbolCount store = SymbolTable.symbolCount T + tableSymbolCount store'.
Proof.
  intros Hold Htables. unfold tableSymbolCount, tables. rewrite Htables.
  by rewrite <- (count_sum_Permutation _ _
                   (Permutation_map snd (map_to_list_delete _ id T Hold))).
Qed.

Lemma count_remove store uri removed :
  SymbolStore.remove store uri = (Ok (), removed) →
  SymbolStore.symbolCount store = tableSymbolCount store →
  SymbolStore.symbolCount removed = tableSymbolCount removed.
Proof.
  unfold SymbolStore.remove.
  destruct (SymbolStore._tableIndex store !! uriMap.id uri) as [T|] eqn:HT;
    [|by intros [= <-]].
  destruct (IndexableSymbolVisitor.items _) as [items|]; [|done]. intros [= <-] Hcount.
  unfold SymbolStore.symbolCount in *.
  match goal with
  | |- _ = tableSymbolCount ?removed =>
      pose proof (tableSymbolCount_delete store removed _ T HT eq_refl) as Hsum
  end.
  simpl. lia.
Qed.

Lemma count_add store T added :
  SymbolStore.add store T = (Ok (), added) →
  SymbolStore.symbolCount store = tableSymbolCount store →
  SymbolStore.symbolCount added = tableSymbolCount added.
Proof.
  unfold SymbolStore.add.
  destruct (SymbolStore.remove store (SymbolTable.uri T)) as [[[]|e] removed] eqn:Hrem;
    [|done].
  destruct (IndexableSymbolVisitor.items _) as [items|]; [|done].
  intros [= <-] Hcount. pose proof (count_remove _ _ _ Hrem Hcount) as Hremoved.
  pose proof (remove_unregisters _ _ _ Hrem) as Hnew.
  unfold SymbolStore.symbolCount, SymbolStore.getSymbolTable in *.
  match goal with
  | |- _ = tableSymbolCount ?added =>
      pose proof (tableSymbolCount_insert removed added _ T Hnew eq_refl) as Hsum
  end.
  simpl. lia.
Qed.

Lemma reachable_count store :
  reachable store → SymbolStore.symbolCount store = tableSymbolCount store.
Proof.
  induction 1 as [|store T Hreach IH Hfresh|store uri Hreach IH].
  - done.
  - destruct (exact_add store T (reachable_exact _ Hreach) Hfresh) as (added & Hadd & _).
    rewrite Hadd. simpl. by eapply count_add.
  - destruct (exact_remove store uri (reachable_exact _ Hreach)) as (removed & Hrem & _).
    rewrite Hrem. simpl. by eapply count_remove.
Qed.

(** * Properties of the store and of the aggregate *)

(** ** C1: what [find] returns *)



(** The two methods [f] are found under [F]. *)
Example find_methods_by_name :
  SymbolStore.find Scenario.typesStore "F" (Some Scenario.isMethod)
  = Ok [Scenario.I_f; Scenario.C_f].
Proof. by vm_compute. Qed.

(** The constant [LIMIT] is found under its own spelling only, the
    function [limit] under both. *)
Example find_constant_by_exact_name :
  SymbolStore.find Scenario.limitsStore "LIMIT" None = Ok [Scenario.LIMIT; Scenario.limit]
  ∧ SymbolStore.find Scenario.limitsStore "limit" None = Ok [Scenario.limit].
Proof. split; by vm_compute. Qed.

(** ** C2: [add] replaces *)

(** C2. For every store and every table [T], registered already under its
    URI or not, [add(T)] is [remove(T.uri)] followed by [add(T)] on the
    store that [remove] leaves, which holds no table for the URI; it stops
    where [remove] throws, and the error it may throw is never the
    duplicate-key error. *)
Theorem add_is_remove_then_add store T :
  SymbolStore.add store T
  = match SymbolStore.remove store (SymbolTable.uri T) with
    | (Ok _, removed) => SymbolStore.add removed T
    | (Throw e, broken) => (Throw e, broken)
    end
  ∧ match SymbolStore.remove store (SymbolTable.uri T) with
    | (Ok _, removed) => SymbolStore.getSymbolTable removed (SymbolTable.uri T) = None
    | (Throw _, _) => True
    end
  ∧ (SymbolStore.add store T).1 ≠ Throw DuplicateKey.
Proof.
  split; [|split].
  - destruct (SymbolStore.remove store (SymbolTable.uri T)) as [[[]|e] removed] eqn:Hrem.
    + unfold SymbolStore.add at 1 2. rewrite Hrem.
      by rewrite (remove_unregistered removed) by (by eapply remove_unregisters).
    + unfold SymbolStore.add. by rewrite Hrem.
  - destruct (SymbolStore.remove store (SymbolTable.uri T)) as [[[]|e] removed] eqn:Hrem;
      [|done]. by eapply remove_unregisters.
  - unfold SymbolStore.add, SymbolStore.remove.
    destruct (SymbolStore._tableIndex store !! _) as [old|]; simpl.
    + destruct (IndexableSymbolVisitor.items (SymbolTable.root old)) as [|e] eqn:Hold; simpl.
      * destruct (IndexableSymbolVisitor.items (SymbolTable.root T)) as [|e] eqn:Hnew;
          simpl; [done|].
        apply items_throws in Hnew as ->. done.
      * apply items_throws in Hold as ->. done.
    + destruct (IndexableSymbolVisitor.items (SymbolTable.root T)) as [|e] eqn:Hnew;
        simpl; [done|].
      apply items_throws in Hnew as ->. done.
Qed.

(** Adding the new version of a file to the store that holds the old one
    gives the store that holds the new version only. *)
Example add_replaces_table :
  SymbolStore.getSymbolTable Scenario.typesStore Scenario.types = Some Scenario.typesTable
  ∧ SymbolStore.add Scenario.typesStore Scenario.typesTable'
    = (Ok (), Scenario.indexed [Scenario.typesTable']).
Proof. split; by vm_compute. Qed.

(** ** C3: [add] then [remove] *)

(** C3, amended. When the URI of [T] is not registered, the index stubs
    of the store all name a registered table, no bucket is empty and the
    indexable nodes of [T] have their location in the file of [T], then
    [add(T)] followed by [remove(T.uri)] returns and gives back the store
    as it was: the symbol count, the tables and every bucket of the name
    index, so that [find] returns for every text what it returned before
    [add(T)]. *)
Theorem add_then_remove_restores store T :
  SymbolStore.getSymbolTable store (SymbolTable.uri T) = None →
  liveIndex store →
  noEmptyBucket (SymbolStore._symbolIndex store) →
  locatedTable T →
  ∃ added,
    SymbolStore.add store T = (Ok (), added)
    ∧ SymbolStore.symbolCount added
      = SymbolStore.symbolCount store + SymbolTable.symbolCount T
    ∧ SymbolStore.remove added (SymbolTable.uri T) = (Ok (), store)
    ∧ ∀ text filter,
        SymbolStore.find (SymbolStore.remove added (SymbolTable.uri T)).2 text filter
        = SymbolStore.find store text filter.
Proof.
  intros Hnew Hlive Hnonempty Hlocated.
  destruct (located_items T Hlocated) as (items & Hitems & Hhash).
  assert (SymbolStore.remove
            (SymbolStore.mk
               (<[uriMap.id (SymbolTable.uri T) := T]> (SymbolStore._tableIndex store))
               (SymbolStore.addItems items (SymbolStore._symbolIndex store))
               (SymbolStore._symbolCount store + SymbolTable.symbolCount T))
            (SymbolTable.uri T) = (Ok (), store)) as Hrestored.
  { unfold SymbolStore.remove. simpl. rewrite lookup_insert_eq, Hitems.
    f_equal. destruct store as [tbl idx cnt]. simpl in *. f_equal.
    - by apply delete_insert_id.
    - apply index_eq.
      + by apply noEmptyBucket_removeItems, noEmptyBucket_addItems.
      + done.
      + intros key. rewrite bucket_removeItems, bucket_addItems.
        apply removeEach_added. intros item Hitem Hold.
        apply contributions_elem in Hitem as (keyed & Hkeyed & ->).
        rewrite Forall_forall in Hhash. specialize (Hhash keyed Hkeyed).
        pose proof (liveIndex_bucket (SymbolStore.mk tbl idx cnt) key _ Hlive Hold) as Hreg.
        simpl in Hreg. rewrite Hhash in Hreg.
        unfold SymbolStore.getSymbolTable in Hnew. simpl in Hnew.
        rewrite Hnew in Hreg. by destruct Hreg.
    - lia. }
  exists (SymbolStore.mk
            (<[uriMap.id (SymbolTable.uri T) := T]> (SymbolStore._tableIndex store))
            (SymbolStore.addItems items (SymbolStore._symbolIndex store))
            (SymbolStore._symbolCount store + SymbolTable.symbolCount T)).
  split.
  { unfold SymbolStore.add. by rewrite (remove_unregistered _ _ Hnew), Hitems. }
  split; [done|].
  split; [exact Hrestored|]. intros text filter. by rewrite Hrestored.
Qed.

Lemma add_then_remove_restores_witness :
  SymbolStore.getSymbolTable Scenario.firstStore (SymbolTable.uri Scenario.secondTable) = None
  ∧ liveIndex Scenario.firstStore
  ∧ noEmptyBucket (SymbolStore._symbolIndex Scenario.firstStore)
  ∧ locatedTable Scenario.secondTable
  ∧ ∃ added,
      SymbolStore.add Scenario.firstStore Scenario.secondTable = (Ok (), added)
      ∧ SymbolStore.symbolCount added
        = SymbolStore.symbolCount Scenario.firstStore
          + SymbolTable.symbolCount Scenario.secondTable
      ∧ SymbolStore.remove added (SymbolTable.uri Scenario.secondTable)
        = (Ok (), Scenario.firstStore)
      ∧ ∀ text filter,
          SymbolStore.find
            (SymbolStore.remove added (SymbolTable.uri Scenario.secondTable)).2 text filter
          = SymbolStore.find Scenario.firstStore text filter.
Proof.
  assert (H1 : SymbolStore.getSymbolTable Scenario.firstStore
                 (SymbolTable.uri Scenario.secondTable) = None) by (by vm_compute).
  assert (H2 : liveIndex Scenario.firstStore) by by_compute.
  assert (H3 : noEmptyBucket (SymbolStore._symbolIndex Scenario.firstStore)) by by_compute.
  assert (H4 : locatedTable Scenario.secondTable) by by_compute.
  repeat (split; [assumption|]).
  exact (add_then_remove_restores Scenario.firstStore Scenario.secondTable H1 H2 H3 H4).
Defined.

(** Two files declare [class Foo]. With the first one indexed, [add] and
    then [remove] of the second leave its name [Foo] findable: [find]
    returns the class of the first file. *)
Lemma name_of_removed_table_still_found :
  SymbolStore.getSymbolTable Scenario.firstStore (SymbolTable.uri Scenario.secondTable) = None
  ∧ SymbolTable.symbols Scenario.secondTable = [Scenario.Foo2]
  ∧ SymbolStore.remove
      (SymbolStore.add Scenario.firstStore Scenario.secondTable).2
      (SymbolTable.uri Scenario.secondTable)
    = (Ok (), Scenario.firstStore)
  ∧ SymbolStore.find Scenario.firstStore (name Scenario.Foo2) None = Ok [Scenario.Foo1].
Proof. repeat split; by vm_compute. Qed.

(** ** C4: the running symbol count *)

(** C4 at its failing input. The store holds the table of
    [function f() { $x = 1; }] and counts its two symbols;
    [pruneScopedVars] on that table takes the variable out, and the store
    still counts two where its table has one; the [remove] that follows
    takes one off and leaves a count of one in a store without tables. *)
Theorem count_stale_after_prune :
  SymbolStore.add SymbolStore.empty Scenario.fnTable = (Ok (), Scenario.fnStore)
  ∧ SymbolStore.symbolCount Scenario.fnStore = 2
  ∧ tableSymbolCount Scenario.fnStore = 2
  ∧ SymbolStore.symbolCount Scenario.fnPruned = 2
  ∧ tableSymbolCount Scenario.fnPruned = 1
  ∧ SymbolStore.remove Scenario.fnPruned Scenario.fn = (Ok (), Scenario.fnForgotten)
  ∧ tables Scenario.fnForgotten = []
  ∧ SymbolStore.symbolCount Scenario.fnForgotten = 1.
Proof. repeat split; by vm_compute. Qed.

(** ** C5: the nodes that [add] indexes *)

(** C5, amended. The nodes of a table that [add] indexes are exactly
    those that are not of kind Parameter, File or Variable (a variable is
    left out with a location as well as without), do not have the Use
    modifier and have a name that is not empty; when [add] returns, the
    bucket of every key holds what [remove] left of it, followed by the
    stubs of these nodes that have the key, in walk order. *)
Theorem add_indexes_indexable_nodes store T :
  (∀ n,
     n ∈ IndexableSymbolVisitor.nodes (SymbolTable.root T)
     ↔ n ∈ TreeTraverser.toArray (SymbolTable.root T)
       ∧ kind n ≠ SymbolKind.Parameter_ ∧ kind n ≠ SymbolKind.File
       ∧ kind n ≠ SymbolKind.Variable_
       ∧ hasModifier n SymbolModifier.Use = false
       ∧ name n ≠ "")
  ∧ ∀ added,
      SymbolStore.add store T = (Ok (), added) →
      ∃ items,
        IndexableSymbolVisitor.items (SymbolTable.root T) = Ok items
        ∧ map KeyedHashedStartLocation.keys items
          = map KeyedHashedStartLocation.symbolKeys
              (IndexableSymbolVisitor.nodes (SymbolTable.root T))
        ∧ map (λ item, Some (KeyedHashedStartLocation.start item)) items
          = map stubOf (IndexableSymbolVisitor.nodes (SymbolTable.root T))
        ∧ ∀ key,
            NameIndex.bucket (SymbolStore._symbolIndex added) key
            = NameIndex.bucket
                (SymbolStore._symbolIndex (SymbolStore.remove store (SymbolTable.uri T)).2) key
              ++ contributions key items.
Proof.
  split.
  - intros n. unfold IndexableSymbolVisitor.nodes, TreeTraverser.filter.
    rewrite <- indexable_iff, !list_elem_of_In, filter_In. tauto.
  - intros added. unfold SymbolStore.add.
    destruct (SymbolStore.remove store (SymbolTable.uri T)) as [[[]|e] removed]; [|done].
    destruct (IndexableSymbolVisitor.items (SymbolTable.root T)) as [items|e] eqn:Hitems;
      [|done].
    intros [= <-]. simpl.
    pose proof (items_Ok_located _ _ Hitems) as Hloc.
    destruct (items_of_located_nodes _ Hloc) as (items' & Hitems' & Hkeys & Hstubs).
    unfold IndexableSymbolVisitor.items in Hitems. rewrite Hitems in Hitems'.
    injection Hitems' as <-.
    exists items. split; [done|]. split; [done|]. split; [done|].
    intros key. apply bucket_addItems.
Qed.

(** A script variable with a location is one of the nodes that the
    specification takes for indexed; the index walk leaves it out and the
    name index of the store stays empty. *)
Lemma located_variable_not_indexed :
  Scenario.config ∈ TreeTraverser.toArray (SymbolTable.root Scenario.scriptTable)
  ∧ claimedIndexable Scenario.config
  ∧ is_Some (location Scenario.config)
  ∧ IndexableSymbolVisitor.nodes (SymbolTable.root Scenario.scriptTable) = []
  ∧ SymbolStore.add SymbolStore.empty Scenario.scriptTable
    = (Ok (), SymbolStore.mk {[uriMap.id Scenario.script := Scenario.scriptTable]} ∅ 1).
Proof.
  split; [|split; [|split; [|split]]].
  - apply list_elem_of_In. right. by left.
  - unfold claimedIndexable. repeat split; try done. by intros [_ ?].
  - by eexists.
  - by vm_compute.
  - by vm_compute.
Qed.

(** ** C6: construction of a type aggregate *)



(** ** C7: resolution of the associated types *)


(** [A extends B] and [B extends A]: the types associated with [A] are
    [B] and then [A] itself, each once. *)
Example associated_of_cycle :
  TypeAggregate.associated_
    (TypeAggregate.mk Scenario.cycleStore Scenario.A false) None
  = Ok [Scenario.B; Scenario.A].
Proof. by vm_compute. Qed.


(** ** C8: members of a class that implements an interface *)

(** C8. The store that indexes [interface I { function f(); }] and
    [class C implements I { function f(){} function g(){} }] lists, for
    the methods of [C], [f] of [C], [g] of [C] and [f] of [I] under the
    strategy None, and [f] of [C] and [g] of [C] under Override. *)
Theorem members_of_implementing_class :
  SymbolStore.add SymbolStore.empty Scenario.typesTable = (Ok (), Scenario.typesStore)
  ∧ findMembers Scenario.typesStore "C" MemberMergeStrategy.None (Some Scenario.isMethod)
    = Ok [Scenario.C_f; Scenario.C_g; Scenario.I_f]
  ∧ findMembers Scenario.typesStore "C" MemberMergeStrategy.Override (Some Scenario.isMethod)
    = Ok [Scenario.C_f; Scenario.C_g].
Proof. repeat split; by vm_compute. Qed.

(** ** C9: the base declaration of a member *)




(** ** C10: lookups list a symbol once *)


(** The namespace [Foo\Bar] is indexed under two keys, both matched by the
    prefix [fo]: the index returns its stub twice, the store lists it once. *)
Example namespace_matched_once :
  length (NameIndex.match_ "fo" (SymbolStore._symbolIndex Scenario.nsStore)) = 2%nat
  ∧ SymbolStore.match_ Scenario.nsStore "fo" None = Ok [Scenario.FooBar].
Proof. by vm_compute. Qed.


(** ** Further properties *)

(** X1. Every store built from the empty store by [add] and [remove], out
    of tables whose indexable nodes lie in their file and are found again
    by their start position and whose nodes are objects of their own, is
    consistent: its index stubs name registered tables, none of its
    buckets is empty, and its running symbol count is the sum of the
    symbol counts of its tables. *)
Theorem reachable_store_invariants store :
  reachable store →
  consistent store ∧ liveIndex store ∧ noEmptyBucket (SymbolStore._symbolIndex store)
  ∧ SymbolStore.symbolCount store = tableSymbolCount store.
Proof.
  intros Hreach. destruct (reachable_invariants _ Hreach) as (? & ? & ?).
  by pose proof (reachable_count _ Hreach).
Qed.

Lemma reachable_store_invariants_witness :
  reachable Scenario.typesStore
  ∧ consistent Scenario.typesStore ∧ liveIndex Scenario.typesStore
  ∧ noEmptyBucket (SymbolStore._symbolIndex Scenario.typesStore)
  ∧ SymbolStore.symbolCount Scenario.typesStore = tableSymbolCount Scenario.typesStore.
Proof.
  assert (Hreach : reachable Scenario.typesStore).
  { apply (reachable_add SymbolStore.empty Scenario.typesTable reachable_empty).
    by_compute. }
  split; [exact Hreach|]. exact (reachable_store_invariants Scenario.typesStore Hreach).
Defined.



(** The namespace [Foo\Bar] has the keys [foo\bar] and [foo]; it is not
    found under [bar]. *)
Example namespace_not_found_by_second_segment :
  KeyedHashedStartLocation.symbolKeys Scenario.FooBar = ["foo\bar"; "foo"]
  ∧ NameIndex.find "bar" (SymbolStore._symbolIndex Scenario.nsStore) = []
  ∧ SymbolStore.match_ Scenario.nsStore "bar" None = Ok [].
Proof. repeat split; by vm_compute. Qed.

(** ** The map of [_mergeMembers] *)

Lemma own_put o key s k :
  JsObject.own (JsObject.put o key s) k
  = if String.eqb key k then Some s else JsObject.own o k.
Proof.
  induction o as [|[k' s'] o IH]; simpl.
  - by rewrite String.eqb_sym.
  - destruct (String.eqb k' key) eqn:Hk; simpl.
    + apply String.eqb_eq in Hk as ->. by destruct (String.eqb key k).
    + rewrite IH. destruct (String.eqb k' k) eqn:Hk'; [|done].
      apply String.eqb_eq in Hk' as ->. by rewrite String.eqb_sym, Hk.
Qed.

Lemma own_elem o key s : JsObject.own o key = Some s → (key, s) ∈ o.
Proof.
  induction o as [|[k' s'] o IH]; simpl; [done|].
  destruct (String.eqb k' key) eqn:Hk.
  - apply String.eqb_eq in Hk as ->. intros [= ->]. by left.
  - intros H. right. auto.
Qed.

Lemma elem_own o key s : NoDup (map fst o) → (key, s) ∈ o → JsObject.own o key = Some s.
Proof.
  induction o as [|[k' s'] o IH]; simpl; intros Hnd Hin; [by apply elem_of_nil in Hin|].
  apply NoDup_cons in Hnd as [Hk' Hnd].
  apply elem_of_cons in Hin as [[= <- <-]|Hin].
  - by rewrite String.eqb_refl.
  - destruct (String.eqb k' key) eqn:Hk; [|auto].
    apply String.eqb_eq in Hk as ->. exfalso. apply Hk'.
    apply list_elem_of_fmap. by exists (key, s).
Qed.

Lemma put_keys o key s :
  map fst (JsObject.put o key s)
  = match JsObject.own o key with
    | Some _ => map fst o
    | None => map fst o ++ [key]
    end.
Proof.
  induction o as [|[k' s'] o IH]; simpl; [done|].
  destruct (String.eqb k' key) eqn:Hk; simpl; [done|].
  rewrite IH. by destruct (JsObject.own o key).
Qed.

Lemma own_None_keys o key : JsObject.own o key = None → key ∉ map fst o.
Proof.
  induction o as [|[k' s'] o IH]; simpl; [intros _ H; by apply elem_of_nil in H|].
  destruct (String.eqb k' key) eqn:Hk; [done|]. intros H Hin.
  apply elem_of_cons in Hin as [->|Hin]; [by rewrite String.eqb_refl in Hk|by apply IH].
Qed.

Lemma put_elem o key s entry :
  entry ∈ JsObject.put o key s → entry ∈ o ∨ entry = (key, s).
Proof.
  induction o as [|[k' s'] o IH]; simpl.
  - rewrite list_elem_of_singleton. auto.
  - destruct (String.eqb k' key) eqn:Hk.
    + apply String.eqb_eq in Hk as ->. rewrite !elem_of_cons. intuition.
    + rewrite !elem_of_cons. intuition.
Qed.

Lemma wellKeyed_put o s : wellKeyed o → wellKeyed (JsObject.put o (name s) s).
Proof.
  intros [Hnames Hnd]. split.
  - apply Forall_forall. intros entry Hin. apply put_elem in Hin as [Hin| ->]; [|done].
    by eapply Forall_forall in Hnames.
  - rewrite put_keys. destruct (JsObject.own o (name s)) eqn:Hown; [done|].
    apply NoDup_app. split; [done|]. split; [|apply NoDup_singleton].
    intros k Hk Hk'. apply list_elem_of_singleton in Hk' as ->.
    by apply own_None_keys in Hown.
Qed.

Lemma wellKeyed_mergeStep strategy o s :
  wellKeyed o → wellKeyed (TypeAggregate.mergeStep strategy o s).
Proof.
  intros Ho. unfold TypeAggregate.mergeStep, JsObject.set.
  repeat case_match; auto using wellKeyed_put.
Qed.

Lemma wellKeyed_merge strategy symbols : ∀ o,
  wellKeyed o → wellKeyed (foldl (TypeAggregate.mergeStep strategy) o symbols).
Proof.
  induction symbols as [|s symbols IH]; simpl; auto using wellKeyed_mergeStep.
Qed.

Lemma merge_elem strategy symbols : ∀ o entry,
  entry ∈ foldl (TypeAggregate.mergeStep strategy) o symbols →
  entry ∈ o ∨ entry.2 ∈ symbols.
Proof.
  induction symbols as [|s symbols IH]; simpl; intros o entry Hin; [by left|].
  apply IH in Hin as [Hin|Hin]; [|right; by right].
  unfold TypeAggregate.mergeStep, JsObject.set in Hin.
  repeat case_match; auto.
  apply put_elem in Hin as [Hin| ->]; [by left|right; by left].
Qed.

Lemma wellKeyed_values o s :
  wellKeyed o → s ∈ JsObject.values o ↔ JsObject.own o (name s) = Some s.
Proof.
  intros [Hnames Hnd]. unfold JsObject.values. split.
  - intros Hin. apply list_elem_of_fmap in Hin as ([k s'] & -> & Hin). simpl.
    apply elem_own; [done|]. eapply Forall_forall in Hnames; [|exact Hin].
    simpl in Hnames. by rewrite Hnames.
  - intros Hown. apply own_elem in Hown. apply list_elem_of_fmap. by exists (name s, s).
Qed.

Lemma wellKeyed_nil : wellKeyed [].
Proof. split; [done|apply NoDup_nil_2]. Qed.

(** The entry of one key after a step of the merge. *)
Lemma own_mergeStep strategy o s key :
  name s ≠ "__proto__" →
  JsObject.own (TypeAggregate.mergeStep strategy o s) key
  = if String.eqb (name s) key && TypeAggregate.replaces strategy (JsObject.get o key) s
    then Some s else JsObject.own o key.
Proof.
  intros Hproto. unfold TypeAggregate.mergeStep, JsObject.set.
  apply String.eqb_neq in Hproto. rewrite Hproto.
  destruct (String.eqb (name s) key) eqn:Hk; simpl.
  - apply String.eqb_eq in Hk as <-.
    destruct (TypeAggregate.replaces _ _ _); [|done].
    by rewrite own_put, String.eqb_refl.
  - destruct (TypeAggregate.replaces _ _ _); [|done].
    by rewrite own_put, Hk.
Qed.

(** X3. Under a strategy other than None the merged members are members
    of the list, and no two of them have the same name. *)
Theorem mergeMembers_distinct_names symbols strategy :
  strategy ≠ MemberMergeStrategy.None →
  NoDup (map name (TypeAggregate._mergeMembers symbols strategy))
  ∧ ∀ s, s ∈ TypeAggregate._mergeMembers symbols strategy → s ∈ symbols.
Proof.
  intros Hs. unfold TypeAggregate._mergeMembers.
  rewrite bool_decide_eq_false_2 by done.
  pose proof (wellKeyed_merge strategy symbols [] wellKeyed_nil) as [Hnames Hnd].
  split.
  - unfold JsObject.values. rewrite map_map.
    erewrite map_ext_Forall; [exact Hnd|]. done.
  - intros s Hin. apply list_elem_of_fmap in Hin as (entry & -> & Hin).
    apply merge_elem in Hin as [Hin|Hin]; [by apply elem_of_nil in Hin|done].
Qed.

Lemma mergeMembers_distinct_names_witness :
  MemberMergeStrategy.Documented ≠ MemberMergeStrategy.None
  ∧ NoDup (map name (TypeAggregate._mergeMembers Samples.runs MemberMergeStrategy.Documented))
  ∧ ∀ s, s ∈ TypeAggregate._mergeMembers Samples.runs MemberMergeStrategy.Documented →
         s ∈ Samples.runs.
Proof.
  assert (Hstrategy : MemberMergeStrategy.Documented ≠ MemberMergeStrategy.None)
    by discriminate.
  split; [exact Hstrategy|].
  exact (mergeMembers_distinct_names Samples.runs MemberMergeStrategy.Documented Hstrategy).
Defined.

(** Of the members [run] the declared one is kept under Override, the
    last one under Base and the documented one under Documented;
    [toString] is kept under Base alone. *)
Example merge_of_runs :
  TypeAggregate._mergeMembers Samples.runs MemberMergeStrategy.Override = [Samples.realRun]
  ∧ TypeAggregate._mergeMembers Samples.runs MemberMergeStrategy.Base
    = [Samples.docRun; Samples.toString]
  ∧ TypeAggregate._mergeMembers Samples.runs MemberMergeStrategy.Documented
    = [Samples.docRun].
Proof. repeat split; by vm_compute. Qed.

Lemma get_own o key :
  JsObject.get o key
  = match JsObject.own o key with
    | Some m => JsObject.Own m
    | None =>
        if existsb (String.eqb key) JsObject.prototypeKeys
        then JsObject.Inherited else JsObject.Undefined
    end.
Proof. done. Qed.

Lemma prototypeKey_test key :
  existsb (String.eqb key) JsObject.prototypeKeys = true ↔ key ∈ JsObject.prototypeKeys.
Proof.
  rewrite existsb_exists. split.
  - intros (k & Hin & Hk). apply String.eqb_eq in Hk as ->. by apply list_elem_of_In.
  - intros Hin. exists key. split; [by apply list_elem_of_In|apply String.eqb_refl].
Qed.

Lemma Override_keys symbols : ∀ o,
  Forall (λ entry, entry.1 ∉ JsObject.prototypeKeys) o →
  Forall (λ entry, entry.1 ∉ JsObject.prototypeKeys)
    (foldl (TypeAggregate.mergeStep MemberMergeStrategy.Override) o symbols).
Proof.
  induction symbols as [|s symbols IH]; simpl; intros o Ho; [done|].
  apply IH. unfold TypeAggregate.mergeStep. rewrite get_own.
  destruct (JsObject.own o (name s)) as [m|] eqn:Hown.
  - apply own_elem in Hown.
    assert (name s ∉ JsObject.prototypeKeys) as Hkey.
    { eapply Forall_forall in Ho; [|exact Hown]. done. }
    case_match; [|done]. unfold JsObject.set. case_match; [done|].
    apply Forall_forall. intros entry Hin. apply put_elem in Hin as [Hin| ->]; [|done].
    by eapply Forall_forall in Ho.
  - destruct (existsb (String.eqb (name s)) JsObject.prototypeKeys) eqn:Hp; simpl; [done|].
    unfold JsObject.set. case_match; [done|].
    apply Forall_forall. intros entry Hin. apply put_elem in Hin as [Hin| ->].
    + by eapply Forall_forall in Ho.
    + simpl. rewrite <- prototypeKey_test. by rewrite Hp.
Qed.

Lemma Override_own key symbols : ∀ o,
  key ∉ JsObject.prototypeKeys →
  Forall (λ s, name s ≠ "__proto__") symbols →
  JsObject.own (foldl (TypeAggregate.mergeStep MemberMergeStrategy.Override) o symbols) key
  = match JsObject.own o key with
    | Some m =>
        if isMagic m
        then match List.find (λ s, named key s && negb (isMagic s)) symbols with
             | Some s => Some s
             | None => Some m
             end
        else Some m
    | None => preferred key symbols
    end.
Proof.
  intros o Hkey Hproto. revert o.
  induction Hproto as [|s symbols Hs Hproto IH]; intros o; simpl.
  { unfold preferred. simpl. destruct (JsObject.own o key) as [m|]; [|done].
    by destruct (isMagic m). }
  rewrite IH, (own_mergeStep _ _ _ _ Hs), get_own.
  assert (existsb (String.eqb key) JsObject.prototypeKeys = false) as Hkey'.
  { apply not_true_is_false. by rewrite prototypeKey_test. }
  rewrite Hkey'. unfold preferred, named, isMagic. simpl.
  destruct (String.eqb (name s) key) eqn:Hk; simpl; [|done].
  destruct (JsObject.own o key) as [m|] eqn:Hown; simpl.
  - destruct (hasModifier m SymbolModifier.Magic) eqn:Hm,
      (hasModifier s SymbolModifier.Magic) eqn:Hs'; simpl; rewrite ?Hm, ?Hs'; done.
  - destruct (hasModifier s SymbolModifier.Magic) eqn:Hs'; simpl; [|done].
    by destruct (List.find _ symbols).
Qed.

(** X4. Under the strategy Override no member is listed whose name is a
    property of [Object.prototype], such as [toString] or [constructor]:
    the map of the merge finds the inherited property under that name
    and keeps it. *)
Theorem Override_drops_prototype_names symbols s :
  s ∈ TypeAggregate._mergeMembers symbols MemberMergeStrategy.Override →
  name s ∉ JsObject.prototypeKeys.
Proof.
  unfold TypeAggregate._mergeMembers. simpl. intros Hin.
  pose proof (wellKeyed_merge MemberMergeStrategy.Override symbols [] wellKeyed_nil) as Hwk.
  apply (wellKeyed_values _ _ Hwk) in Hin. apply own_elem in Hin.
  pose proof (Override_keys symbols [] (Forall_nil_2 _)) as Hkeys.
  eapply Forall_forall in Hkeys; [|exact Hin]. done.
Qed.

Lemma Override_drops_prototype_names_witness :
  Samples.realRun ∈ TypeAggregate._mergeMembers Samples.runs MemberMergeStrategy.Override
  ∧ name Samples.realRun ∉ JsObject.prototypeKeys.
Proof.
  assert (Hin : Samples.realRun
                ∈ TypeAggregate._mergeMembers Samples.runs MemberMergeStrategy.Override)
    by (vm_compute; left).
  split; [exact Hin|].
  exact (Override_drops_prototype_names Samples.runs Samples.realRun Hin).
Defined.

(** A class that declares [toString] alone has no members under
    Override. *)
Example toString_is_dropped :
  TypeAggregate._mergeMembers [Samples.toString] MemberMergeStrategy.Override = [].
Proof. by vm_compute. Qed.

(** X5. Under the strategy Override the merge keeps, for a name that
    [Object.prototype] does not have, the first member of that name that
    is not magic, or the first member of that name when all are magic;
    these are the merged members.  (A member named [__proto__] would
    change the prototype of the map; the list has none.) *)
Theorem mergeMembers_Override symbols s :
  Forall (λ s, name s ≠ "__proto__") symbols →
  s ∈ TypeAggregate._mergeMembers symbols MemberMergeStrategy.Override
  ↔ (name s ∉ JsObject.prototypeKeys) ∧ preferred (name s) symbols = Some s.
Proof.
  intros Hproto. unfold TypeAggregate._mergeMembers. simpl.
  pose proof (wellKeyed_merge MemberMergeStrategy.Override symbols [] wellKeyed_nil) as Hwk.
  rewrite (wellKeyed_values _ _ Hwk). split.
  - intros Hin. assert (name s ∉ JsObject.prototypeKeys) as Hkey.
    { pose proof (Override_keys symbols [] (Forall_nil_2 _)) as Hkeys.
      eapply Forall_forall in Hkeys; [|exact (own_elem _ _ _ Hin)]. done. }
    split; [done|]. by rewrite (Override_own _ _ [] Hkey Hproto) in Hin.
  - intros [Hkey Hpref]. by rewrite (Override_own _ _ [] Hkey Hproto).
Qed.

Lemma mergeMembers_Override_witness :
  Forall (λ s, name s ≠ "__proto__") Samples.runs
  ∧ (Samples.realRun ∈ TypeAggregate._mergeMembers Samples.runs MemberMergeStrategy.Override
     ↔ (name Samples.realRun ∉ JsObject.prototypeKeys)
       ∧ preferred (name Samples.realRun) Samples.runs = Some Samples.realRun).
Proof.
  assert (Hproto : Forall (λ s, name s ≠ "__proto__") Samples.runs) by by_compute.
  split; [exact Hproto|].
  exact (mergeMembers_Override Samples.runs Samples.realRun Hproto).
Defined.

Lemma Base_own key symbols : ∀ o,
  Forall (λ s, name s ≠ "__proto__") symbols →
  JsObject.own (foldl (TypeAggregate.mergeStep MemberMergeStrategy.Base) o symbols) key
  = match last (List.filter (named key) symbols) with
    | Some s => Some s
    | None => JsObject.own o key
    end.
Proof.
  intros o Hproto. revert o.
  induction Hproto as [|s symbols Hs Hproto IH]; intros o; simpl; [done|].
  rewrite IH, (own_mergeStep _ _ _ _ Hs), replaces_Base, andb_true_r.
  unfold named at 2 3. destruct (String.eqb (name s) key); [|done].
  rewrite last_cons. by destruct (last _).
Qed.

(** X6. Under the strategy Base the merge keeps the last member of
    every name, magic or not; these are the merged members. *)
Theorem mergeMembers_Base symbols s :
  Forall (λ s, name s ≠ "__proto__") symbols →
  s ∈ TypeAggregate._mergeMembers symbols MemberMergeStrategy.Base
  ↔ last (List.filter (named (name s)) symbols) = Some s.
Proof.
  intros Hproto. unfold TypeAggregate._mergeMembers. simpl.
  pose proof (wellKeyed_merge MemberMergeStrategy.Base symbols [] wellKeyed_nil) as Hwk.
  rewrite (wellKeyed_values _ _ Hwk), (Base_own _ _ [] Hproto). simpl.
  by destruct (last _).
Qed.

Lemma mergeMembers_Base_witness :
  Forall (λ s, name s ≠ "__proto__") Samples.runs
  ∧ (Samples.docRun ∈ TypeAggregate._mergeMembers Samples.runs MemberMergeStrategy.Base
     ↔ last (List.filter (named (name Samples.docRun)) Samples.runs) = Some Samples.docRun).
Proof.
  assert (Hproto : Forall (λ s, name s ≠ "__proto__") Samples.runs) by by_compute.
  split; [exact Hproto|].
  exact (mergeMembers_Base Samples.runs Samples.docRun Hproto).
Defined.

(** A member that is not magic and has a doc comment of its own is not
    replaced under Documented. *)
Lemma Documented_settled key m symbols : ∀ o,
  Forall (λ s, name s ≠ "__proto__") symbols →
  JsObject.own o key = Some m → isMagic m = false → hasOwnDoc m = true →
  JsObject.own (foldl (TypeAggregate.mergeStep MemberMergeStrategy.Documented) o symbols) key
  = Some m.
Proof.
  intros o Hproto. revert o.
  induction Hproto as [|s symbols Hs Hproto IH]; intros o Hown Hm Hdoc; simpl; [done|].
  apply IH; [|done..]. rewrite (own_mergeStep _ _ _ _ Hs), get_own, Hown.
  unfold isMagic in Hm. unfold hasOwnDoc in Hdoc. simpl. rewrite Hm. simpl.
  destruct (doc m) as [d|]; [|done]. apply negb_true_iff in Hdoc. rewrite Hdoc.
  simpl. by rewrite andb_false_r.
Qed.

Lemma Documented_first key d symbols : ∀ o,
  Forall (λ s, name s ≠ "__proto__") symbols →
  List.find (λ s, named key s && negb (isMagic s) && hasOwnDoc s) symbols = Some d →
  match JsObject.own o key with
  | Some m => isMagic m || negb (hasOwnDoc m) = true
  | None => True
  end →
  JsObject.own (foldl (TypeAggregate.mergeStep MemberMergeStrategy.Documented) o symbols) key
  = Some d.
Proof.
  intros o Hproto. revert o.
  induction Hproto as [|s symbols Hs Hproto IH]; intros o Hd Ho; simpl in *; [done|].
  destruct (named key s && negb (isMagic s) && hasOwnDoc s) eqn:Hp.
  - simplify_eq. apply andb_prop in Hp as [Hp Hdoc]. apply andb_prop in Hp as [Hk Hm].
    apply negb_true_iff in Hm.
    apply Documented_settled; [done| |done..].
    rewrite (own_mergeStep _ _ _ _ Hs), get_own. unfold named in Hk.
    rewrite Hk, andb_true_l.
    assert (bool_decide (is_Some (doc d)) = true) as Hsome.
    { apply bool_decide_eq_true_2. unfold hasOwnDoc in Hdoc. by destruct (doc d). }
    unfold isMagic in Hm.
    destruct (JsObject.own o key) as [m|].
    + simpl. rewrite Hm, Hsome. simpl. unfold isMagic, hasOwnDoc in Ho.
      destruct (hasModifier m SymbolModifier.Magic); simpl in *; [done|].
      destruct (doc m) as [dm|]; simpl in *; [|done].
      apply negb_true_iff, negb_false_iff in Ho. by rewrite Ho.
    + destruct (existsb (String.eqb key) JsObject.prototypeKeys);
        unfold TypeAggregate.replaces; [|done]. by rewrite Hsome.
  - apply IH; [done|]. rewrite (own_mergeStep _ _ _ _ Hs).
    destruct (String.eqb (name s) key && _) eqn:Hr; [|done].
    apply andb_prop in Hr as [Hk _]. unfold named in Hp. rewrite Hk in Hp. simpl in Hp.
    destruct (isMagic s); simpl in *; [done|]. by rewrite Hp.
Qed.



(** ** Members of a class *)

Lemma classLoop_inherited predicate (types : list PhpSymbol) :
  TypeAggregate.classLoop types (Some (TypeAggregate.noPrivate predicate)) predicate
  = (flat_map (λ a, List.filter (TypeAggregate.noPrivate predicate) (children a))
       (List.filter (λ t, negb (isTrait t)) types),
     List.filter isTrait types).
Proof.
  induction types as [|s types IH]; simpl; [done|]. rewrite IH.
  change (bool_decide (kind s = SymbolKind.Trait)) with (isTrait s).
  by destruct (isTrait s).
Qed.

Lemma classMembers_None root assoc predicate :
  kind root = SymbolKind.Class →
  TypeAggregate._classMembers (root :: assoc) MemberMergeStrategy.None predicate
  = TypeAggregate.applyPredicate predicate (children root)
    ++ flat_map (λ a, List.filter (TypeAggregate.noPrivate predicate) (children a))
         (List.filter (λ t, negb (isTrait t)) assoc)
    ++ flat_map (λ a, List.filter (TypeAggregate.noPrivate predicate) (children a))
         (List.filter isTrait assoc).
Proof.
  intros Hkind. unfold TypeAggregate._classMembers. simpl.
  rewrite classLoop_inherited, Hkind. simpl. by rewrite app_assoc.
Qed.

Lemma flat_map_partition {A B} (f : A → list B) (p : A → bool) (l : list A) :
  flat_map f (List.filter (λ x, negb (p x)) l) ++ flat_map f (List.filter p l)
  ≡ₚ flat_map f l.
Proof.
  induction l as [|x l IH]; simpl; [done|]. destruct (p x); simpl.
  - rewrite <- IH. rewrite Permutation_app_swap_app. done.
  - by rewrite <- app_assoc, IH.
Qed.

Lemma applyPredicate_passes predicate (l : list PhpSymbol) s :
  s ∈ TypeAggregate.applyPredicate predicate l
  ↔ s ∈ l ∧ SymbolStore.passes predicate s = true.
Proof.
  destruct predicate as [p|]; simpl.
  - rewrite list_elem_of_In, filter_In, <- list_elem_of_In. done.
  - tauto.
Qed.

Lemma mergeMembers_elem symbols strategy s :
  s ∈ TypeAggregate._mergeMembers symbols strategy → s ∈ symbols.
Proof.
  unfold TypeAggregate._mergeMembers. case_bool_decide; [done|].
  intros Hin. apply list_elem_of_fmap in Hin as (entry & -> & Hin).
  apply merge_elem in Hin as [Hin|Hin]; [by apply elem_of_nil in Hin|done].
Qed.

Lemma inherited_elem predicate (types : list PhpSymbol) s :
  s ∈ flat_map (λ a, List.filter (TypeAggregate.noPrivate predicate) (children a)) types →
  hasModifier s SymbolModifier.Private = false
  ∧ SymbolStore.passes predicate s = true
  ∧ ∃ a, a ∈ types ∧ s ∈ children a.
Proof.
  rewrite list_elem_of_In, in_flat_map. intros (a & Ha & Hs).
  apply filter_In in Hs as [Hs Hp]. unfold TypeAggregate.noPrivate in Hp.
  apply andb_prop in Hp as [Hprivate Hp]. apply negb_true_iff in Hprivate.
  repeat split; [done..|]. exists a. by rewrite !list_elem_of_In.
Qed.

(** X8. The members of a class, under any strategy and predicate, pass
    the predicate and are children of the class itself or children, not
    private, of one of its resolved associated types: a private member of
    an ancestor or of a trait is never listed. *)
Theorem class_members_not_private_inherited type strategy predicate assoc found :
  kind (TypeAggregate._symbol type) = SymbolKind.Class →
  TypeAggregate._getAssociated type = Ok assoc →
  TypeAggregate.members type strategy predicate = Ok found →
  ∀ s, s ∈ found →
    SymbolStore.passes predicate s = true
    ∧ (s ∈ children (TypeAggregate._symbol type)
       ∨ (hasModifier s SymbolModifier.Private = false
          ∧ ∃ a, a ∈ assoc ∧ s ∈ children a)).
Proof.
  intros Hkind Hassoc. unfold TypeAggregate.members. rewrite Hassoc, Hkind. simpl.
  intros [= <-] s. unfold TypeAggregate._classMembers. simpl.
  rewrite classLoop_inherited, Hkind. simpl. rewrite elem_of_app.
  intros [Hin|Hin].
  - apply mergeMembers_elem, elem_of_app in Hin as [Hin|Hin].
    + apply applyPredicate_passes in Hin as [? ?]. auto.
    + apply inherited_elem in Hin as (? & ? & a & Ha & ?). split; [done|]. right.
      split; [done|]. exists a. split; [|done].
      apply list_elem_of_In, filter_In in Ha as [Ha _]. by apply list_elem_of_In.
  - apply inherited_elem in Hin as (? & ? & a & Ha & ?). split; [done|]. right.
    split; [done|]. exists a. split; [|done].
    apply list_elem_of_In, filter_In in Ha as [Ha _]. by apply list_elem_of_In.
Qed.

Lemma class_members_not_private_inherited_witness :
  kind (TypeAggregate._symbol Samples.heir) = SymbolKind.Class
  ∧ TypeAggregate._getAssociated Samples.heir = Ok [Samples.Keeper]
  ∧ TypeAggregate.members Samples.heir MemberMergeStrategy.Override None
    = Ok [Samples.Heir_own; Samples.Keeper_open]
  ∧ ∀ s, s ∈ [Samples.Heir_own; Samples.Keeper_open] →
      SymbolStore.passes None s = true
      ∧ (s ∈ children (TypeAggregate._symbol Samples.heir)
         ∨ (hasModifier s SymbolModifier.Private = false
            ∧ ∃ a, a ∈ [Samples.Keeper] ∧ s ∈ children a)).
Proof.
  assert (Hkind : kind (TypeAggregate._symbol Samples.heir) = SymbolKind.Class)
    by reflexivity.
  assert (Hassoc : TypeAggregate._getAssociated Samples.heir = Ok [Samples.Keeper])
    by (vm_compute; reflexivity).
  assert (Hfound : TypeAggregate.members Samples.heir MemberMergeStrategy.Override None
                   = Ok [Samples.Heir_own; Samples.Keeper_open])
    by (vm_compute; reflexivity).
  split; [exact Hkind|]. split; [exact Hassoc|]. split; [exact Hfound|].
  exact (class_members_not_private_inherited Samples.heir MemberMergeStrategy.Override None
           [Samples.Keeper] [Samples.Heir_own; Samples.Keeper_open] Hkind Hassoc Hfound).
Defined.

(** X9. Without merging, the members of a class are the children of the
    class that pass the predicate and, from each resolved associated
    type, the children that are not private and pass it, each as often
    as it is listed: their number is the sum of these numbers. *)
Theorem class_members_None type predicate assoc :
  kind (TypeAggregate._symbol type) = SymbolKind.Class →
  TypeAggregate._getAssociated type = Ok assoc →
  ∃ found,
    TypeAggregate.members type MemberMergeStrategy.None predicate = Ok found
    ∧ found ≡ₚ TypeAggregate.applyPredicate predicate (children (TypeAggregate._symbol type))
               ++ flat_map (λ a, List.filter (TypeAggregate.noPrivate predicate) (children a))
                    assoc
    ∧ length found
      = (length (TypeAggregate.applyPredicate predicate (children (TypeAggregate._symbol type)))
         + list_sum (map (λ a, length (List.filter (TypeAggregate.noPrivate predicate)
                                         (children a))) assoc))%nat.
Proof.
  intros Hkind Hassoc. unfold TypeAggregate.members. rewrite Hassoc, Hkind. simpl.
  eexists. split; [done|]. rewrite (classMembers_None _ _ _ Hkind).
  assert (Hperm := flat_map_partition
            (λ a, List.filter (TypeAggregate.noPrivate predicate) (children a)) isTrait assoc).
  split.
  - by rewrite Hperm.
  - rewrite length_app, Hperm. f_equal.
    clear. induction assoc as [|a assoc IH]; simpl; [done|]. by rewrite length_app, IH.
Qed.

Lemma class_members_None_witness :
  kind (TypeAggregate._symbol Samples.heir) = SymbolKind.Class
  ∧ TypeAggregate._getAssociated Samples.heir = Ok [Samples.Keeper]
  ∧ ∃ found,
      TypeAggregate.members Samples.heir MemberMergeStrategy.None None = Ok found
      ∧ found ≡ₚ TypeAggregate.applyPredicate None
                   (children (TypeAggregate._symbol Samples.heir))
                 ++ flat_map (λ a, List.filter (TypeAggregate.noPrivate None) (children a))
                      [Samples.Keeper]
      ∧ length found
        = (length (TypeAggregate.applyPredicate None
                     (children (TypeAggregate._symbol Samples.heir)))
           + list_sum (map (λ a, length (List.filter (TypeAggregate.noPrivate None)
                                           (children a))) [Samples.Keeper]))%nat.
Proof.
  assert (Hkind : kind (TypeAggregate._symbol Samples.heir) = SymbolKind.Class)
    by reflexivity.
  assert (Hassoc : TypeAggregate._getAssociated Samples.heir = Ok [Samples.Keeper])
    by (vm_compute; reflexivity).
  split; [exact Hkind|]. split; [exact Hassoc|].
  exact (class_members_None Samples.heir None [Samples.Keeper] Hkind Hassoc).
Defined.

(** ** [match] and [find] *)

Lemma prefix_refl s : String.prefix s s = true.
Proof.
  induction s as [|c s IH]; simpl; [done|].
  destruct (ascii_dec c c); [done|congruence].
Qed.

Lemma bucket_in_match (idx : NameIndex.t) text item :
  item ∈ NameIndex.bucket idx (Js.toLowerCase text) → item ∈ NameIndex.match_ text idx.
Proof.
  unfold NameIndex.bucket, NameIndex.match_. intros Hin.
  destruct (idx !! Js.toLowerCase text) as [items|] eqn:Hkey;
    [|by apply elem_of_nil in Hin].
  simpl in Hin. apply list_elem_of_In, in_flat_map.
  exists (Js.toLowerCase text, items). split; [|by apply list_elem_of_In].
  apply filter_In. split; [|apply prefix_refl].
  apply list_elem_of_In. rewrite merge_sort_Permutation. by apply elem_of_map_to_list.
Qed.

(** X10. In a consistent store every symbol that [find] returns for a
    text is among those that [match] returns for the same text and
    filter. *)
Theorem match_includes_find store text filter found :
  consistent store →
  SymbolStore.find store text filter = Ok found →
  ∃ matched,
    SymbolStore.match_ store text filter = Ok matched
    ∧ ∀ s, s ∈ found → s ∈ matched.
Proof.
  intros Hcons Hfind.
  destruct (match_returns store text filter (consistent_live _ Hcons)) as [matched Hmatch].
  exists matched. split; [done|]. intros s Hs.
  pose proof (find_nodes _ _ _ _ _ Hfind Hs) as Hnode.
  pose proof (find_passes _ _ _ _ _ Hfind Hs) as [Hpass _].
  unfold SymbolStore.find in Hfind. unfold SymbolStore.match_ in Hmatch.
  destruct (negb (Js.nonEmpty text)); [simplify_eq; by apply elem_of_nil in Hs|].
  unfold SymbolStore._indexResultToSymbols in *.
  destruct (SymbolStore.resolveInto store [] (NameIndex.find _ _)) as [result|] eqn:Hr;
    simpl in Hfind; [|done].
  destruct (SymbolStore.resolveInto store [] (NameIndex.match_ _ _)) as [matches|] eqn:Hm;
    simpl in Hmatch; [|done].
  simplify_eq. apply list_elem_of_In, filter_In in Hs as [Hs _]. apply list_elem_of_In in Hs.
  destruct (resolveInto_elem _ _ _ _ _ Hr Hs) as [Hnil|(item & T & Hitem & HT & Hstart)];
    [by apply elem_of_nil in Hnil|].
  apply bucket_in_match in Hitem.
  destruct (resolveInto_found _ _ _ _ _ _ _ Hm Hitem HT Hstart) as (s' & Hs' & Hoid).
  assert (s' = s) as ->.
  { destruct Hcons as (Hnd & _). eapply same_object; [exact Hnd| |done..].
    destruct (resolveInto_nodes _ _ _ _ Hm s' Hs') as [Hnil|]; [|done].
    by apply elem_of_nil in Hnil. }
  destruct filter as [f|]; simplify_eq; [|done].
  apply list_elem_of_In, filter_In. split; [by apply list_elem_of_In|done].
Qed.

Lemma match_includes_find_witness :
  consistent Scenario.typesStore
  ∧ SymbolStore.find Scenario.typesStore "F" (Some Scenario.isMethod)
    = Ok [Scenario.I_f; Scenario.C_f]
  ∧ ∃ matched,
      SymbolStore.match_ Scenario.typesStore "F" (Some Scenario.isMethod) = Ok matched
      ∧ ∀ s, s ∈ [Scenario.I_f; Scenario.C_f] → s ∈ matched.
Proof.
  assert (Hok : consistent Scenario.typesStore) by by_compute.
  assert (Hfound : SymbolStore.find Scenario.typesStore "F" (Some Scenario.isMethod)
                   = Ok [Scenario.I_f; Scenario.C_f]) by (vm_compute; reflexivity).
  split; [exact Hok|]. split; [exact Hfound|].
  exact (match_includes_find Scenario.typesStore "F" (Some Scenario.isMethod)
           [Scenario.I_f; Scenario.C_f] Hok Hfound).
Defined.

(** ** The registry of tables *)

Lemma uriMap_id_inj uri uri' : uriMap.id uri = uriMap.id uri' → uri = uri'.
Proof. unfold uriMap.id. intros [= H]. by apply (inj encode) in H. Qed.

Lemma remove_tables store uri :
  SymbolStore._tableIndex (SymbolStore.remove store uri).2
  = delete (uriMap.id uri) (SymbolStore._tableIndex store).
Proof.
  unfold SymbolStore.remove.
  destruct (SymbolStore._tableIndex store !! uriMap.id uri) as [T|] eqn:HT; simpl.
  - by destruct (IndexableSymbolVisitor.items _).
  - by rewrite delete_id.
Qed.

Lemma add_tables store T added :
  SymbolStore.add store T = (Ok (), added) →
  SymbolStore._tableIndex added
  = <[uriMap.id (SymbolTable.uri T) := T]>
      (delete (uriMap.id (SymbolTable.uri T)) (SymbolStore._tableIndex store))
  ∧ ∃ items, IndexableSymbolVisitor.items (SymbolTable.root T) = Ok items.
Proof.
  unfold SymbolStore.add. pose proof (remove_tables store (SymbolTable.uri T)) as Hrm.
  destruct (SymbolStore.remove store (SymbolTable.uri T)) as [[[]|e] removed]; [|done].
  destruct (IndexableSymbolVisitor.items (SymbolTable.root T)) as [items|e] eqn:Hitems;
    [|done].
  intros [= <-]. simpl in *. rewrite Hrm. eauto.
Qed.

Lemma create_throws ns :
  Exists (λ n, location n = None) ns →
  mapM KeyedHashedStartLocation.create ns = Throw TypeError.
Proof.
  induction 1 as [n ns Hn|n ns Hex IH]; simpl.
  - unfold KeyedHashedStartLocation.create. by rewrite Hn.
  - rewrite IH. unfold KeyedHashedStartLocation.create. by destruct (location n).
Qed.

(** X11. After an [add] that returns, [getSymbolTable] gives the table
    for its URI and what it gave before for every other URI, and
    [tableCount] has grown by one unless the URI was registered; a
    [remove] of that URI then returns, takes the table out of the
    registry again and leaves the tables of the other URIs alone. *)
Theorem registry_after_add store T added :
  SymbolStore.add store T = (Ok (), added) →
  SymbolStore.getSymbolTable added (SymbolTable.uri T) = Some T
  ∧ (∀ uri, uri ≠ SymbolTable.uri T →
       SymbolStore.getSymbolTable added uri = SymbolStore.getSymbolTable store uri)
  ∧ tableCount added
    = match SymbolStore.getSymbolTable store (SymbolTable.uri T) with
      | Some _ => tableCount store
      | None => tableCount store + 1
      end
  ∧ ∃ removed,
      SymbolStore.remove added (SymbolTable.uri T) = (Ok (), removed)
      ∧ SymbolStore.getSymbolTable removed (SymbolTable.uri T) = None
      ∧ (∀ uri, uri ≠ SymbolTable.uri T →
           SymbolStore.getSymbolTable removed uri = SymbolStore.getSymbolTable store uri)
      ∧ tableCount removed = tableCount added - 1.
Proof.
  intros Hadd. destruct (add_tables _ _ _ Hadd) as (Htables & items & Hitems).
  unfold SymbolStore.getSymbolTable, tableCount. rewrite Htables.
  assert (Hother : ∀ uri, uri ≠ SymbolTable.uri T →
            uriMap.id (SymbolTable.uri T) ≠ uriMap.id uri).
  { intros uri Huri Hid. by apply uriMap_id_inj in Hid. }
  split; [by rewrite lookup_insert_eq|]. split.
  { intros uri Huri. rewrite lookup_insert_ne, lookup_delete_ne by auto. done. }
  split.
  { rewrite map_size_insert_None by (by rewrite lookup_delete_eq).
    rewrite map_size_delete.
    destruct (SymbolStore._tableIndex store !! uriMap.id (SymbolTable.uri T)) eqn:HT;
      simpl; [|lia].
    assert (size (SymbolStore._tableIndex store) ≠ 0%nat); [|lia].
    intros Hsize. apply map_size_empty_inv in Hsize. by rewrite Hsize in HT. }
  pose proof (remove_tables added (SymbolTable.uri T)) as Hrm.
  unfold SymbolStore.remove in *. rewrite Htables in *. rewrite lookup_insert_eq in *.
  rewrite Hitems in *. simpl in Hrm. eexists. split; [done|]. simpl.
  rewrite delete_insert_eq, delete_delete_eq. split; [by rewrite lookup_delete_eq|].
  split.
  { intros uri Huri. by rewrite lookup_delete_ne by auto. }
  rewrite map_size_insert_None by (by rewrite lookup_delete_eq). lia.
Qed.

Lemma registry_after_add_witness :
  SymbolStore.add Scenario.firstStore Scenario.secondTable
  = (Ok (), Scenario.indexed [Scenario.firstTable; Scenario.secondTable])
  ∧ ∃ removed,
      SymbolStore.remove (Scenario.indexed [Scenario.firstTable; Scenario.secondTable])
        Scenario.second = (Ok (), removed)
      ∧ SymbolStore.getSymbolTable removed Scenario.second = None
      ∧ tableCount removed
        = tableCount (Scenario.indexed [Scenario.firstTable; Scenario.secondTable]) - 1.
Proof.
  assert (Hadd : SymbolStore.add Scenario.firstStore Scenario.secondTable
                 = (Ok (), Scenario.indexed [Scenario.firstTable; Scenario.secondTable]))
    by (vm_compute; reflexivity).
  split; [exact Hadd|].
  destruct (registry_after_add Scenario.firstStore Scenario.secondTable _ Hadd)
    as (_ & _ & _ & removed & Hremove & Hgone & _ & Hcount).
  exists removed. split; [exact Hremove|]. split; [exact Hgone | exact Hcount].
Defined.

(** X12. [add] registers the table before it walks it: when an indexable
    node of the table has no location the walk throws a TypeError and
    leaves the table registered, with none of its symbols indexed or
    counted; the [remove] of that URI throws in turn, after it has taken
    the table out of the registry. *)
Theorem add_throws_after_registering store T removed :
  SymbolStore.remove store (SymbolTable.uri T) = (Ok (), removed) →
  Exists (λ n, location n = None) (IndexableSymbolVisitor.nodes (SymbolTable.root T)) →
  ∃ broken,
    SymbolStore.add store T = (Throw TypeError, broken)
    ∧ SymbolStore.getSymbolTable broken (SymbolTable.uri T) = Some T
    ∧ tableCount broken = tableCount removed + 1
    ∧ SymbolStore._symbolIndex broken = SymbolStore._symbolIndex removed
    ∧ SymbolStore.symbolCount broken = SymbolStore.symbolCount removed
    ∧ SymbolStore.remove broken (SymbolTable.uri T) = (Throw TypeError, removed).
Proof.
  intros Hrm Hex. pose proof (remove_unregisters _ _ _ Hrm) as Hnone.
  apply create_throws in Hex.
  unfold SymbolStore.add. rewrite Hrm.
  unfold IndexableSymbolVisitor.items at 1. rewrite Hex.
  eexists. split; [done|]. unfold SymbolStore.getSymbolTable, tableCount in *. simpl.
  split; [by rewrite lookup_insert_eq|]. split.
  { rewrite map_size_insert_None by done. lia. }
  split; [done|]. split; [done|].
  unfold SymbolStore.remove. simpl. rewrite lookup_insert_eq.
  unfold IndexableSymbolVisitor.items. rewrite Hex.
  rewrite delete_insert_eq, delete_id by done. by destruct removed.
Qed.

Lemma add_throws_after_registering_witness :
  SymbolStore.remove Scenario.firstStore (SymbolTable.uri Samples.brokenTable)
  = (Ok (), Scenario.firstStore)
  ∧ Exists (λ n, location n = None)
      (IndexableSymbolVisitor.nodes (SymbolTable.root Samples.brokenTable))
  ∧ ∃ broken,
      SymbolStore.add Scenario.firstStore Samples.brokenTable = (Throw TypeError, broken)
      ∧ SymbolStore.getSymbolTable broken (SymbolTable.uri Samples.brokenTable)
        = Some Samples.brokenTable
      ∧ tableCount broken = tableCount Scenario.firstStore + 1
      ∧ SymbolStore._symbolIndex broken = SymbolStore._symbolIndex Scenario.firstStore
      ∧ SymbolStore.symbolCount broken = SymbolStore.symbolCount Scenario.firstStore
      ∧ SymbolStore.remove broken (SymbolTable.uri Samples.brokenTable)
        = (Throw TypeError, Scenario.firstStore).
Proof.
  assert (Hremove : SymbolStore.remove Scenario.firstStore
                      (SymbolTable.uri Samples.brokenTable) = (Ok (), Scenario.firstStore))
    by (vm_compute; reflexivity).
  assert (Hnode : Exists (λ n, location n = None)
                    (IndexableSymbolVisitor.nodes (SymbolTable.root Samples.brokenTable)))
    by (apply Exists_exists; exists Samples.Broken; split; [vm_compute; left | reflexivity]).
  split; [exact Hremove|]. split; [exact Hnode|].
  exact (add_throws_after_registering Scenario.firstStore Samples.brokenTable
           Scenario.firstStore Hremove Hnode).
Defined.

(** ** The location of a symbol *)

(** X13. In a consistent store every symbol that [find] returns is a
    node of a registered table and lies in the file of that table:
    [symbolLocation] gives the URI of the table with the range of the
    symbol, and gives nothing once the table is removed. *)
Theorem found_symbol_location store text filter found s :
  consistent store →
  SymbolStore.find store text filter = Ok found →
  s ∈ found →
  ∃ T l,
    SymbolStore.getSymbolTable store (SymbolTable.uri T) = Some T
    ∧ s ∈ TreeTraverser.toArray (SymbolTable.root T)
    ∧ location s = Some l
    ∧ symbolLocation store s = Ok (Some (mkLocation (SymbolTable.uri T) (range l)))
    ∧ symbolLocation (SymbolStore.remove store (SymbolTable.uri T)).2 s = Ok None.
Proof.
  intros Hcons Hfind Hs. unfold SymbolStore.find in Hfind.
  destruct (negb (Js.nonEmpty text)); [simplify_eq; by apply elem_of_nil in Hs|].
  unfold SymbolStore._indexResultToSymbols, NameIndex.find in Hfind.
  destruct (SymbolStore.resolveInto _ _ _) as [result|] eqn:Hr; simpl in Hfind; [|done].
  simplify_eq. apply list_elem_of_In, filter_In in Hs as [Hs _]. apply list_elem_of_In in Hs.
  destruct (resolved_are_indexed _ _ Hcons _ _ Hr Hs) as [Hindexed _].
  apply indexedSymbols_elem in Hindexed as (id & T & HT & Hnode).
  destruct Hcons as (_ & Htables & _).
  destruct (Htables _ _ HT) as (-> & Hlocated & _).
  eapply Forall_forall in Hlocated; [|exact Hnode].
  destruct (location s) as [l|] eqn:Hl; simplify_eq/=.
  exists T, l. unfold SymbolStore.getSymbolTable, symbolLocation.
  rewrite remove_tables, Hl, Hlocated, HT, lookup_delete_eq.
  apply nodes_toArray in Hnode as [Hnode _]. done.
Qed.

Lemma found_symbol_location_witness :
  consistent Scenario.typesStore
  ∧ SymbolStore.find Scenario.typesStore "F" (Some Scenario.isMethod)
    = Ok [Scenario.I_f; Scenario.C_f]
  ∧ Scenario.I_f ∈ [Scenario.I_f; Scenario.C_f]
  ∧ ∃ T l,
      SymbolStore.getSymbolTable Scenario.typesStore (SymbolTable.uri T) = Some T
      ∧ Scenario.I_f ∈ TreeTraverser.toArray (SymbolTable.root T)
      ∧ location Scenario.I_f = Some l
      ∧ symbolLocation Scenario.typesStore Scenario.I_f
        = Ok (Some (mkLocation (SymbolTable.uri T) (range l)))
      ∧ symbolLocation (SymbolStore.remove Scenario.typesStore (SymbolTable.uri T)).2
          Scenario.I_f = Ok None.
Proof.
  assert (Hok : consistent Scenario.typesStore) by by_compute.
  assert (Hfound : SymbolStore.find Scenario.typesStore "F" (Some Scenario.isMethod)
                   = Ok [Scenario.I_f; Scenario.C_f]) by (vm_compute; reflexivity).
  assert (Hin : Scenario.I_f ∈ [Scenario.I_f; Scenario.C_f]) by left.
  split; [exact Hok|]. split; [exact Hfound|]. split; [exact Hin|].
  exact (found_symbol_location Scenario.typesStore "F" (Some Scenario.isMethod)
           [Scenario.I_f; Scenario.C_f] Scenario.I_f Hok Hfound Hin).
Defined.

(** The method [f] of the interface lies in the file of [I] and [C]. *)
Example location_of_I_f :
  symbolLocation Scenario.typesStore Scenario.I_f
  = Ok (Some (mkLocation Scenario.types (mkRange (mkPosition 1 14) (mkPosition 1 27)))).
Proof. by vm_compute. Qed.

(** ** Trees of symbols *)

Lemma PhpSymbol_tree_ind (P : PhpSymbol → Prop) :
  (∀ s, Forall P (children s) → P s) → ∀ s, P s.
Proof.
  intros step. fix IH 1. intros s. apply step.
  destruct s as [? ? ? ? ? ? ? ? cs ?]. simpl.
  induction cs as [|c cs IHcs]; constructor; [apply IH|apply IHcs].
Qed.

Lemma toArray_children s :
  TreeTraverser.toArray s = s :: flat_map TreeTraverser.toArray (children s).
Proof.
  by destruct s.
Qed.

(** ** The symbol table *)


Lemma scopeSymbol_kinds s :
  _isScopeSymbol s = true
  ↔ kind s = SymbolKind.Class ∨ kind s = SymbolKind.Interface ∨ kind s = SymbolKind.Trait
    ∨ kind s = SymbolKind.Function ∨ kind s = SymbolKind.Method.
Proof.
  unfold _isScopeSymbol, kindIn. destruct (kind s); vm_compute; intuition congruence.
Qed.

(** X15. [scopeSymbols] lists the nodes of the table that are classes,
    interfaces, traits, functions or methods.  The mask of
    [_isScopeSymbol] names [SymbolKind.None] too, but that kind has no
    bit: a root of kind None is not listed, nor is a root of kind
    File. *)
Theorem scopeSymbols_kinds T n :
  n ∈ scopeSymbols T
  ↔ n ∈ TreeTraverser.toArray (SymbolTable.root T)
    ∧ (kind n = SymbolKind.Class ∨ kind n = SymbolKind.Interface
       ∨ kind n = SymbolKind.Trait ∨ kind n = SymbolKind.Function
       ∨ kind n = SymbolKind.Method).
Proof.
  unfold scopeSymbols, TreeTraverser.filter.
  by rewrite list_elem_of_In, filter_In, <- list_elem_of_In, scopeSymbol_kinds.
Qed.

(** X16. The filter [_indexFilter] of the unused [_indexSymbols] takes
    every node that the index walk of [add] takes, and besides them
    exactly the variables that have no location, no use-modifier and a
    name. *)
Theorem indexFilter_and_index_walk n :
  _indexFilter n = true
  ↔ IndexableSymbolVisitor.indexable n = true
    ∨ (kind n = SymbolKind.Variable_ ∧ location n = None
       ∧ hasModifier n SymbolModifier.Use = false ∧ name n ≠ "").
Proof.
  unfold _indexFilter, IndexableSymbolVisitor.indexable, kindIn.
  rewrite <- (nonEmpty_true (name n)).
  destruct (hasModifier n SymbolModifier.Use), (Js.nonEmpty (name n)), (location n) as [l|],
    (kind n); vm_compute; intuition congruence.
Qed.

(** ** The walk of a visitor *)

Lemma traverse_children {V} (halt : V → bool) (pre : V → PhpSymbol → bool * V) node visitor :
  TreeVisitor.traverse halt pre node visitor
  = if halt visitor then visitor
    else
      let '(descend, visitor) := pre visitor node in
      if halt visitor then visitor
      else if descend then
        foldl (λ visitor c,
                 if halt visitor then visitor
                 else TreeVisitor.traverse halt pre c visitor)
          visitor (children node)
      else visitor.
Proof.
  destruct node as [? ? ? ? ? ? ? ? cs ?]. simpl.
  destruct (halt visitor); [done|]. destruct (pre visitor _) as [descend visitor'].
  destruct (halt visitor') eqn:Hhalt; [done|]. destruct descend; [|done].
  clear visitor. revert visitor' Hhalt.
  induction cs as [|c cs IH]; intros visitor Hhalt; simpl; [done|]. rewrite Hhalt.
  destruct (halt (TreeVisitor.traverse halt pre c visitor)) eqn:Hhalt'; [|by apply IH].
  clear IH. induction cs as [|c' cs IH]; simpl; [done|]. by rewrite Hhalt'.
Qed.

(** What [preorder] keeps on the nodes of the tree, the walk keeps. *)
Lemma traverse_invariant {V} (halt : V → bool) (pre : V → PhpSymbol → bool * V)
    (inv : V → Prop) (visited : PhpSymbol → Prop) :
  (∀ visitor node, visited node → inv visitor → inv (pre visitor node).2) →
  ∀ node visitor,
    (∀ n, n ∈ TreeTraverser.toArray node → visited n) →
    inv visitor → inv (TreeVisitor.traverse halt pre node visitor).
Proof.
  intros Hpre. induction node as [node IH] using PhpSymbol_tree_ind.
  intros visitor Hnodes Hinv. rewrite traverse_children.
  destruct (halt visitor); [done|].
  assert (inv (pre visitor node).2) as Hinv'.
  { apply Hpre; [|done]. apply Hnodes. rewrite toArray_children. by left. }
  destruct (pre visitor node) as [descend visitor']. simpl in Hinv'.
  destruct (halt visitor'); [done|]. destruct descend; [|done].
  assert (Hcs : ∀ c, c ∈ children node →
                ∀ n, n ∈ TreeTraverser.toArray c → visited n).
  { intros c Hc n Hn. apply Hnodes. rewrite toArray_children. right.
    apply list_elem_of_In, in_flat_map. exists c. by rewrite <- !list_elem_of_In. }
  clear Hnodes Hinv. revert visitor' Hinv'.
  induction (children node) as [|c cs IHcs]; intros visitor' Hinv'; simpl; [done|].
  apply Forall_cons in IH as [IHc IH].
  apply IHcs; [done|intros; eapply Hcs; [by right|done]|].
  destruct (halt visitor'); [done|]. apply IHc; [|done]. apply Hcs. by left.
Qed.

(** ** Scopes *)

Lemma scopeVisitor_kinds absolute n :
  ScopeVisitor.isScope absolute n = true
  ↔ (kind n = SymbolKind.Class ∨ kind n = SymbolKind.Interface ∨ kind n = SymbolKind.Trait
     ∨ kind n = SymbolKind.Function ∨ kind n = SymbolKind.Method
     ∨ kind n = SymbolKind.File)
    ∧ hasModifier n SymbolModifier.Use = false
    ∧ (absolute = true → kind n = SymbolKind.Function →
       hasModifier n SymbolModifier.Anonymous = false).
Proof.
  unfold ScopeVisitor.isScope, kindIn.
  destruct absolute, (hasModifier n SymbolModifier.Use),
    (hasModifier n SymbolModifier.Anonymous), (kind n);
    vm_compute; intuition congruence.
Qed.

(** The scope that the walk of a [ScopeVisitor] leaves on top of the
    stack. *)
Lemma scope_walk isInRange absolute T pos n :
  ScopeVisitor.scope
    (TreeVisitor.traverse ScopeVisitor.haltTraverse (ScopeVisitor.preorder isInRange)
       (SymbolTable.root T) (ScopeVisitor.new pos absolute)) = Some n →
  n ∈ TreeTraverser.toArray (SymbolTable.root T)
  ∧ ScopeVisitor.isScope absolute n = true
  ∧ ∃ l, location n = Some l
         ∧ isInRange pos (range l) = 0
         ∧ line (rangeStart l) ≤ line pos.
Proof.
  set (good := λ n : PhpSymbol,
         n ∈ TreeTraverser.toArray (SymbolTable.root T)
         ∧ ScopeVisitor.isScope absolute n = true
         ∧ ∃ l, location n = Some l ∧ isInRange pos (range l) = 0
                ∧ line (rangeStart l) ≤ line pos).
  set (inv := λ visitor : ScopeVisitor.t,
         ScopeVisitor.pos visitor = pos ∧ ScopeVisitor._absolute visitor = absolute
         ∧ Forall good (ScopeVisitor._scopeStack visitor)).
  assert (inv (TreeVisitor.traverse ScopeVisitor.haltTraverse
                 (ScopeVisitor.preorder isInRange) (SymbolTable.root T)
                 (ScopeVisitor.new pos absolute))) as (_ & _ & Hstack).
  { apply (traverse_invariant _ _ inv
             (λ n, n ∈ TreeTraverser.toArray (SymbolTable.root T))); [|done|done].
    intros visitor node Hnode (Hpos & Habs & Hstack). unfold ScopeVisitor.preorder.
    destruct (location node) as [l|] eqn:Hl; [|done]. rewrite Hpos, Habs.
    destruct (line pos <? line (rangeStart l)) eqn:Hline; [done|].
    apply Z.ltb_ge in Hline.
    destruct (isInRange pos (range l) =? 0) eqn:Hin; [|done]. apply Z.eqb_eq in Hin.
    simpl. destruct (ScopeVisitor.isScope absolute node) eqn:Hscope; [|done].
    split; [done|]. split; [done|]. simpl. apply Forall_app. split; [done|].
    apply Forall_singleton. unfold good. eauto 10. }
  unfold ScopeVisitor.scope. intros Hlast. apply last_Some_elem_of in Hlast.
  by eapply Forall_forall in Hstack.
Qed.

(** X17. The node that [scope] or [absoluteScope] returns for a position
    is a node of the table of a kind among Class, Interface, Trait,
    Function, Method and File, without the use-modifier, whose range
    holds the position and does not start on a later line;
    [absoluteScope] never returns an anonymous function.  A table whose
    root has no location has no scope at any position. *)
Theorem scope_is_enclosing_scope isInRange T pos :
  (∀ n, tableScope isInRange T pos = Some n →
        n ∈ TreeTraverser.toArray (SymbolTable.root T)
        ∧ ScopeVisitor.isScope false n = true
        ∧ ∃ l, location n = Some l ∧ isInRange pos (range l) = 0
               ∧ line (rangeStart l) ≤ line pos)
  ∧ (∀ n, absoluteScope isInRange T pos = Some n →
          n ∈ TreeTraverser.toArray (SymbolTable.root T)
          ∧ ScopeVisitor.isScope true n = true
          ∧ ¬ (kind n = SymbolKind.Function
               ∧ hasModifier n SymbolModifier.Anonymous = true)
          ∧ ∃ l, location n = Some l ∧ isInRange pos (range l) = 0
                 ∧ line (rangeStart l) ≤ line pos)
  ∧ (location (SymbolTable.root T) = None →
     tableScope isInRange T pos = None ∧ absoluteScope isInRange T pos = None).
Proof.
  split; [|split].
  - intros n. apply scope_walk.
  - intros n Hn. apply scope_walk in Hn as (? & Hscope & ?).
    split; [done|]. split; [done|]. split; [|done].
    apply scopeVisitor_kinds in Hscope as (_ & _ & Hanonymous).
    intros [Hkind Hmod]. rewrite (Hanonymous eq_refl Hkind) in Hmod. done.
  - intros Hroot. unfold tableScope, absoluteScope.
    rewrite !traverse_children. simpl. unfold ScopeVisitor.preorder. by rewrite Hroot.
Qed.

(** Inside the anonymous function of the method [m] the scope is that
    function and the absolute scope is the method; a table whose root
    has no location has no scope. *)
Example scope_inside_closure :
  tableScope Samples.inRange Samples.closureTable (mkPosition 1 40) = Some Samples.K_m_g
  ∧ absoluteScope Samples.inRange Samples.closureTable (mkPosition 1 40) = Some Samples.K_m
  ∧ tableScope Samples.inRange Samples.adriftTable (mkPosition 1 3) = None.
Proof. repeat split; by vm_compute. Qed.

(** ** [contains] *)

(** X18. [contains] throws for a symbol without a location.  It answers
    [true] for the root itself, and answers [true] only for a symbol
    that is, as an object, a node of the table. *)
Theorem contains_only_nodes isInRange T s :
  (location s = None → contains isInRange T s = Throw InvalidArgument)
  ∧ (is_Some (location s) → oid (SymbolTable.root T) = oid s →
     contains isInRange T s = Ok true)
  ∧ (contains isInRange T s = Ok true →
     ∃ n, n ∈ TreeTraverser.toArray (SymbolTable.root T) ∧ oid n = oid s).
Proof.
  unfold contains, ContainsVisitor.new. split; [by intros ->|]. split.
  - intros [l Hl] Hoid. rewrite Hl. simpl. rewrite traverse_children. simpl.
    unfold ContainsVisitor.preorder. simpl. by rewrite Hoid, Nat.eqb_refl.
  - destruct (location s) as [l|]; [|done]. simpl. intros [= Hfound].
    set (inv := λ visitor : ContainsVisitor.t,
           ContainsVisitor._symbol visitor = s
           ∧ (ContainsVisitor.found visitor = true →
              ∃ n, n ∈ TreeTraverser.toArray (SymbolTable.root T) ∧ oid n = oid s)).
    assert (inv (TreeVisitor.traverse ContainsVisitor.haltTraverse
                   (ContainsVisitor.preorder isInRange) (SymbolTable.root T)
                   (ContainsVisitor.mk false false s))) as [_ Hinv]; [|auto].
    apply (traverse_invariant _ _ inv
             (λ n, n ∈ TreeTraverser.toArray (SymbolTable.root T))); [|done|done].
    intros visitor node Hnode [Hsymbol Hinv]. unfold ContainsVisitor.preorder.
    rewrite Hsymbol. destruct (Nat.eqb (oid node) (oid s)) eqn:Hoid.
    + apply Nat.eqb_eq in Hoid. simpl. split; [done|]. eauto.
    + destruct (location node), (location s); simpl; try done.
      by destruct (negb _).
Qed.

(** The table of [f] contains its variable, and no node of another
    table; it throws for a symbol without a location. *)
Example contains_of_fnTable :
  contains Samples.inRange Scenario.fnTable Scenario.x = Ok true
  ∧ contains Samples.inRange Scenario.fnTable Scenario.config = Ok false
  ∧ contains Samples.inRange Scenario.fnTable Samples.Broken = Throw InvalidArgument.
Proof. repeat split; by vm_compute. Qed.

(** ** Lookup by reference *)

Lemma getAssociated_returns type :
  liveIndex (TypeAggregate.symbolStore type) →
  ∃ l, TypeAggregate._getAssociated type = Ok l.
Proof.
  intros Hlive.
  destruct (TypeAggregate.associatedLoop_returns (TypeAggregate.symbolStore type)
              (TypeAggregate._excludeTraits type)
              (associatedFuel (TypeAggregate.symbolStore type) (TypeAggregate._symbol type))
              (associated (TypeAggregate._symbol type)) []) as [r Hr].
  { unfold associatedFuel. lia. }
  destruct (associatedLoop_Ok _ _ Hlive _ _ _ _ Hr) as [l ->].
  exists l. by eapply _getAssociated_eq.
Qed.

Lemma members_returns type strategy predicate :
  liveIndex (TypeAggregate.symbolStore type) →
  ∃ l, TypeAggregate.members type strategy predicate = Ok l.
Proof.
  intros Hlive. unfold TypeAggregate.members.
  destruct (getAssociated_returns type Hlive) as [assoc ->]. simpl.
  destruct (kind (TypeAggregate._symbol type)); eauto.
Qed.

Lemma create_returns store fqn :
  liveIndex store →
  ∃ r, TypeAggregate.create store fqn = Ok r
       ∧ ∀ type, r = Some type → TypeAggregate.symbolStore type = store.
Proof.
  intros Hlive. unfold TypeAggregate.create.
  destruct (negb (Js.nonEmpty fqn)); [by exists None|].
  destruct (find_returns store fqn (Some PhpSymbolNs.isClassLike) Hlive) as [found Hfound].
  rewrite Hfound. simpl. destruct found as [|first found]; simpl; [by exists None|].
  destruct (find_passes _ _ _ _ first Hfound) as [Hclass _]; [by left|].
  simpl in Hclass. unfold PhpSymbolNs.isClassLike in Hclass.
  unfold TypeAggregate.new. rewrite Hclass. simpl. eexists. split; [done|].
  by intros type [= <-].
Qed.

Lemma findMembers_returns store scopeName strategy predicate :
  liveIndex store →
  ∃ l, findMembers store scopeName strategy predicate = Ok l.
Proof.
  intros Hlive. unfold findMembers.
  generalize (@nil PhpSymbol) as members.
  induction (TypeString.atomicClassArray scopeName) as [|fqn fqns IH]; intros members.
  - simpl. eauto.
  - destruct (create_returns store fqn Hlive) as (r & Hr & Hstore).
    simpl. rewrite Hr. simpl. destruct r as [type|]; [|apply IH].
    destruct (members_returns type strategy predicate) as [found ->];
      [by rewrite (Hstore type)|].
    simpl. apply IH.
Qed.

Lemma variable_kinds s :
  kindIn s variableMask = true
  ↔ kind s = SymbolKind.Parameter_ ∨ kind s = SymbolKind.Variable_.
Proof. unfold kindIn. destruct (kind s); vm_compute; intuition congruence. Qed.

(** X19. In a store whose index stubs all name a registered table,
    [findSymbolsByReference] returns a list, empty for no reference and
    for the kinds it does not know, for every reference that is not to a
    variable or a parameter. *)
Theorem reference_lookup_returns isInRange store ref strategy :
  liveIndex store →
  (∀ r, ref = Some r →
        Reference.kind r ≠ SymbolKind.Variable_
        ∧ Reference.kind r ≠ SymbolKind.Parameter_) →
  ∃ l,
    findSymbolsByReference isInRange store ref strategy = Ok l
    ∧ (ref = None → l = [])
    ∧ (∀ r, ref = Some r →
            Reference.kind r = SymbolKind.None ∨ Reference.kind r = SymbolKind.Namespace
            ∨ Reference.kind r = SymbolKind.File →
            l = []).
Proof.
  intros Hlive Hkind. unfold findSymbolsByReference. cbv zeta.
  destruct ref as [r|]; [|by exists []].
  destruct (Hkind r eq_refl) as [Hvariable Hparameter].
  assert (Hdone : ∀ l : list PhpSymbol,
            Reference.kind r ≠ SymbolKind.None → Reference.kind r ≠ SymbolKind.Namespace →
            Reference.kind r ≠ SymbolKind.File →
            (Some r = None → l = [])
            ∧ (∀ r0, Some r = Some r0 →
                 Reference.kind r0 = SymbolKind.None
                 ∨ Reference.kind r0 = SymbolKind.Namespace
                 ∨ Reference.kind r0 = SymbolKind.File → l = [])).
  { intros l ? ? ?. split; [done|]. intros ? [= <-] [?|[?|?]]; done. }
  destruct (Reference.kind r) eqn:Hk; try done; try (exists []; by repeat split).
  - destruct (find_returns store (Reference.name r)
                (Some (λ x, kindIn x classLikeMask)) Hlive) as [l ->]. eauto.
  - destruct (find_returns store (Reference.name r)
                (Some (λ x, kindIn x classLikeMask)) Hlive) as [l ->]. eauto.
  - destruct (find_returns store (Reference.name r)
                (Some (λ x, kindIn x classLikeMask)) Hlive) as [l ->]. eauto.
  - destruct (find_returns store (Reference.name r)
                (Some (λ x, bool_decide (kind x = SymbolKind.Constant))) Hlive) as [l ->].
    simpl. destruct l as [|s l], (Reference.altName r) as [alt|]; eauto.
    destruct (Js.nonEmpty alt); eauto.
    destruct (find_returns store alt
                (Some (λ x, bool_decide (kind x = SymbolKind.Constant))) Hlive) as [l ->].
    eauto.
  - match goal with
    | |- context [findMembers ?st ?sc ?str ?p] =>
        destruct (findMembers_returns st sc str p Hlive) as [l ->]
    end. eauto.
  - match goal with
    | |- context [findMembers ?st ?sc ?str ?p] =>
        destruct (findMembers_returns st sc str p Hlive) as [l ->]
    end. eauto.
  - destruct (find_returns store (Reference.name r)
                (Some (λ x, bool_decide (kind x = SymbolKind.Function))) Hlive) as [l ->].
    simpl. destruct l as [|s l], (Reference.altName r) as [alt|]; eauto.
    destruct (Js.nonEmpty alt); eauto.
    destruct (find_returns store alt
                (Some (λ x, bool_decide (kind x = SymbolKind.Function))) Hlive) as [l ->].
    eauto.
  - match goal with
    | |- context [findMembers ?st ?sc ?str ?p] =>
        destruct (findMembers_returns st sc str p Hlive) as [l ->]
    end. eauto.
  - match goal with
    | |- context [findMembers ?st ?sc ?str ?p] =>
        destruct (findMembers_returns st sc str p Hlive) as [l ->]
    end. eauto.
Qed.

Lemma reference_lookup_returns_witness :
  liveIndex Scenario.typesStore
  ∧ (∀ r, Some Samples.toClassC = Some r →
          Reference.kind r ≠ SymbolKind.Variable_
          ∧ Reference.kind r ≠ SymbolKind.Parameter_)
  ∧ ∃ l,
      findSymbolsByReference Samples.inRange Scenario.typesStore (Some Samples.toClassC) None
      = Ok l
      ∧ (Some Samples.toClassC = None → l = [])
      ∧ (∀ r, Some Samples.toClassC = Some r →
              Reference.kind r = SymbolKind.None ∨ Reference.kind r = SymbolKind.Namespace
              ∨ Reference.kind r = SymbolKind.File →
              l = []).
Proof.
  assert (Hlive : liveIndex Scenario.typesStore) by by_compute.
  assert (Hkind : ∀ r, Some Samples.toClassC = Some r →
                       Reference.kind r ≠ SymbolKind.Variable_
                       ∧ Reference.kind r ≠ SymbolKind.Parameter_)
    by (intros r [= <-]; split; discriminate).
  split; [exact Hlive|]. split; [exact Hkind|].
  exact (reference_lookup_returns Samples.inRange Scenario.typesStore (Some Samples.toClassC)
           None Hlive Hkind).
Defined.

(** The reference to the class [C] is resolved to the class. *)
Example reference_to_C :
  findSymbolsByReference Samples.inRange Scenario.typesStore (Some Samples.toClassC) None
  = Ok [Scenario.C].
Proof. by vm_compute. Qed.

(** X20. A reference to a variable or a parameter is resolved in the
    table registered under the hash of its location alone, whatever the
    name index, the running count and the strategy are: the result holds
    at most the first child of the scope at the start of the reference
    that is a variable or a parameter of the name of the reference.
    When a table is registered but no scope holds that position, as when
    the root has no location, the lookup throws a TypeError. *)
Theorem variable_reference_is_local isInRange store ref strategy :
  Reference.kind ref = SymbolKind.Variable_ ∨ Reference.kind ref = SymbolKind.Parameter_ →
  (∀ index count strategy',
     findSymbolsByReference isInRange
       (SymbolStore.mk (SymbolStore._tableIndex store) index count) (Some ref) strategy'
     = findSymbolsByReference isInRange store (Some ref) strategy)
  ∧ (∀ l, findSymbolsByReference isInRange store (Some ref) strategy = Ok l →
          l = []
          ∨ ∃ T scope s,
              l = [s]
              ∧ SymbolStore._tableIndex store !! uriHash (Reference.location ref) = Some T
              ∧ tableScope isInRange T (rangeStart (Reference.location ref)) = Some scope
              ∧ s ∈ children scope ∧ name s = Reference.name ref
              ∧ (kind s = SymbolKind.Parameter_ ∨ kind s = SymbolKind.Variable_))
  ∧ (∀ T, SymbolStore._tableIndex store !! uriHash (Reference.location ref) = Some T →
          tableScope isInRange T (rangeStart (Reference.location ref)) = None →
          findSymbolsByReference isInRange store (Some ref) strategy = Throw TypeError)
  ∧ (∀ T, SymbolStore._tableIndex store !! uriHash (Reference.location ref) = Some T →
          location (SymbolTable.root T) = None →
          findSymbolsByReference isInRange store (Some ref) strategy = Throw TypeError).
Proof.
  intros Hkind.
  assert (Hlocal : ∀ st strategy',
            findSymbolsByReference isInRange st (Some ref) strategy'
            = match SymbolStore._tableIndex st !! uriHash (Reference.location ref) with
              | Some table =>
                  match tableScope isInRange table (rangeStart (Reference.location ref)) with
                  | Some scope =>
                      match List.find (λ x, kindIn x variableMask
                                            && String.eqb (name x) (Reference.name ref))
                              (children scope) with
                      | Some s => Ok [s]
                      | None => Ok []
                      end
                  | None => Throw TypeError
                  end
              | None => Ok []
              end).
  { intros st strategy'. unfold findSymbolsByReference. by destruct Hkind as [->| ->]. }
  split; [|split; [|split]].
  - intros index count strategy'. by rewrite !Hlocal.
  - intros l. rewrite Hlocal.
    destruct (SymbolStore._tableIndex store !! _) as [T|] eqn:HT; [|intros [= <-]; by left].
    destruct (tableScope isInRange T _) as [scope|] eqn:Hscope; [|done].
    destruct (List.find _ (children scope)) as [s|] eqn:Hfind; intros [= <-]; [|by left].
    right. apply find_some in Hfind as [Hs Hp]. apply andb_prop in Hp as [Hk Hn].
    apply variable_kinds in Hk. apply String.eqb_eq in Hn.
    exists T, scope, s. by rewrite list_elem_of_In.
  - intros T HT Hscope. by rewrite Hlocal, HT, Hscope.
  - intros T HT Hroot. rewrite Hlocal, HT.
    assert (tableScope isInRange T (rangeStart (Reference.location ref)) = None) as ->; [|done].
    unfold tableScope. rewrite traverse_children. simpl.
    unfold ScopeVisitor.preorder. by rewrite Hroot.
Qed.

Lemma variable_reference_is_local_witness :
  (Reference.kind (Samples.toX Scenario.fn) = SymbolKind.Variable_
   ∨ Reference.kind (Samples.toX Scenario.fn) = SymbolKind.Parameter_)
  ∧ ∀ l, findSymbolsByReference Samples.inRange Scenario.fnStore
           (Some (Samples.toX Scenario.fn)) None = Ok l →
         l = []
         ∨ ∃ T scope s,
             l = [s]
             ∧ SymbolStore._tableIndex Scenario.fnStore
               !! uriHash (Reference.location (Samples.toX Scenario.fn)) = Some T
             ∧ tableScope Samples.inRange T
                 (rangeStart (Reference.location (Samples.toX Scenario.fn))) = Some scope
             ∧ s ∈ children scope ∧ name s = Reference.name (Samples.toX Scenario.fn)
             ∧ (kind s = SymbolKind.Parameter_ ∨ kind s = SymbolKind.Variable_).
Proof.
  assert (Hkind : Reference.kind (Samples.toX Scenario.fn) = SymbolKind.Variable_
                  ∨ Reference.kind (Samples.toX Scenario.fn) = SymbolKind.Parameter_)
    by (left; reflexivity).
  split; [exact Hkind|].
  exact (proj1 (proj2 (variable_reference_is_local Samples.inRange Scenario.fnStore
                         (Samples.toX Scenario.fn) None Hkind))).
Defined.

(** The reference to [$x] inside [f] is resolved to the variable of [f];
    in a file that is not registered it is resolved to nothing, and in a
    registered table whose root has no location the lookup throws. *)
Example reference_to_x :
  findSymbolsByReference Samples.inRange Scenario.fnStore (Some (Samples.toX Scenario.fn))
    None = Ok [Scenario.x]
  ∧ findSymbolsByReference Samples.inRange Scenario.fnStore
      (Some (Samples.toX Scenario.script)) None = Ok []
  ∧ findSymbolsByReference Samples.inRange (Scenario.indexed [Samples.adriftTable])
      (Some (Samples.toX Samples.adrift)) None = Throw TypeError.
Proof. repeat split; by vm_compute. Qed.

(** ** [pruneScopedVars] *)

Lemma children_prune s :
  children (ScopedVariablePruneVisitor.prune s)
  = map ScopedVariablePruneVisitor.prune (keptChildren s).
Proof.
  destruct s as [? k ? ? ? ? ? ? cs ?]. unfold keptChildren, prunable. simpl.
  destruct (bool_decide (k = SymbolKind.Function) || bool_decide (k = SymbolKind.Method));
    simpl.
  - induction cs as [|c cs IH]; simpl; [done|].
    destruct (ScopedVariablePruneVisitor._isNotVar c); simpl; by rewrite IH.
  - induction cs as [|c cs IH]; simpl; [done|]. by rewrite IH.
Qed.

Lemma prune_fields s :
  oid (ScopedVariablePruneVisitor.prune s) = oid s
  ∧ kind (ScopedVariablePruneVisitor.prune s) = kind s
  ∧ name (ScopedVariablePruneVisitor.prune s) = name s
  ∧ modifiers (ScopedVariablePruneVisitor.prune s) = modifiers s
  ∧ location (ScopedVariablePruneVisitor.prune s) = location s.
Proof. by destruct s. Qed.

Lemma prune_eq s :
  ScopedVariablePruneVisitor.prune s
  = mkPhpSymbol (oid s) (kind s) (name s) (modifiers s) (scope s) (type s) (doc s)
      (associated s) (map ScopedVariablePruneVisitor.prune (keptChildren s)) (location s).
Proof. rewrite <- children_prune. by destruct s. Qed.

Lemma keptChildren_elem s c : c ∈ keptChildren s → c ∈ children s.
Proof.
  unfold keptChildren. destruct (prunable s); [|done].
  rewrite list_elem_of_In, filter_In, <- list_elem_of_In. tauto.
Qed.

Lemma keptChildren_sublist s : keptChildren s `sublist_of` children s.
Proof.
  unfold keptChildren. destruct (prunable s); [|done].
  induction (children s) as [|c cs IH]; simpl; [done|].
  destruct (ScopedVariablePruneVisitor._isNotVar c); by constructor.
Qed.

Lemma toArray_prune s :
  TreeTraverser.toArray (ScopedVariablePruneVisitor.prune s)
  = ScopedVariablePruneVisitor.prune s
    :: flat_map (λ c, TreeTraverser.toArray (ScopedVariablePruneVisitor.prune c))
         (keptChildren s).
Proof.
  rewrite toArray_children, children_prune. f_equal.
  induction (keptChildren s) as [|c cs IH]; simpl; [done|]. by rewrite IH.
Qed.

(** The nodes of the pruned tree are nodes of the tree, pruned. *)
Lemma prune_elem : ∀ s x,
  x ∈ TreeTraverser.toArray (ScopedVariablePruneVisitor.prune s) →
  ∃ y, y ∈ TreeTraverser.toArray s ∧ x = ScopedVariablePruneVisitor.prune y.
Proof.
  induction s as [s IH] using PhpSymbol_tree_ind. intros x.
  rewrite toArray_prune, (toArray_children s), elem_of_cons.
  intros [->|Hin]; [exists s; split; [by left|done]|].
  apply list_elem_of_In, in_flat_map in Hin as (c & Hc & Hx).
  apply list_elem_of_In, keptChildren_elem in Hc.
  eapply Forall_forall in IH; [|exact Hc].
  destruct (IH x) as (y & Hy & ->); [by apply list_elem_of_In|].
  exists y. split; [|done]. right. apply list_elem_of_In, in_flat_map.
  exists c. by rewrite <- !list_elem_of_In.
Qed.

Lemma prune_oids : ∀ s,
  map oid (TreeTraverser.toArray (ScopedVariablePruneVisitor.prune s))
  `sublist_of` map oid (TreeTraverser.toArray s).
Proof.
  induction s as [s IH] using PhpSymbol_tree_ind.
  rewrite toArray_prune, (toArray_children s). simpl.
  destruct (prune_fields s) as (-> & _). constructor.
  pose proof (keptChildren_sublist s) as Hsub.
  assert (Hkept : Forall (λ c, map oid (TreeTraverser.toArray
                                          (ScopedVariablePruneVisitor.prune c))
                               `sublist_of` map oid (TreeTraverser.toArray c))
                    (keptChildren s)).
  { apply Forall_forall. intros c Hc. eapply Forall_forall in IH; [exact IH|].
    by apply keptChildren_elem. }
  clear IH. induction Hsub as [|c kept cs Hsub IHsub|c kept cs Hsub IHsub]; simpl.
  - done.
  - apply Forall_cons in Hkept as [Hc Hkept]. rewrite !map_app.
    apply sublist_app; auto.
  - rewrite map_app. apply sublist_inserts_l. auto.
Qed.

Lemma isNotVar_prune c :
  ScopedVariablePruneVisitor._isNotVar (ScopedVariablePruneVisitor.prune c)
  = ScopedVariablePruneVisitor._isNotVar c.
Proof. by destruct c. Qed.

Lemma keptChildren_prune s :
  keptChildren (ScopedVariablePruneVisitor.prune s)
  = map ScopedVariablePruneVisitor.prune (keptChildren s).
Proof.
  unfold keptChildren at 1. rewrite children_prune.
  replace (prunable (ScopedVariablePruneVisitor.prune s)) with (prunable s)
    by (by destruct s).
  unfold keptChildren. destruct (prunable s); [|done].
  induction (children s) as [|c cs IH]; simpl; [done|].
  destruct (ScopedVariablePruneVisitor._isNotVar c) eqn:Hc; simpl; [|done].
  by rewrite isNotVar_prune, Hc, IH.
Qed.

Lemma prune_prune : ∀ s,
  ScopedVariablePruneVisitor.prune (ScopedVariablePruneVisitor.prune s)
  = ScopedVariablePruneVisitor.prune s.
Proof.
  induction s as [s IH] using PhpSymbol_tree_ind.
  rewrite (prune_eq (ScopedVariablePruneVisitor.prune s)), keptChildren_prune, map_map.
  rewrite (map_ext_in _ ScopedVariablePruneVisitor.prune).
  - rewrite <- children_prune. by destruct (ScopedVariablePruneVisitor.prune s).
  - intros c Hc. apply list_elem_of_In, keptChildren_elem in Hc.
    eapply Forall_forall in IH; [exact IH|done].
Qed.

(** X21. [pruneScopedVars] is idempotent and never adds a symbol. *)
Theorem pruneScopedVars_idempotent T :
  pruneScopedVars (pruneScopedVars T) = pruneScopedVars T
  ∧ SymbolTable.symbolCount (pruneScopedVars T) ≤ SymbolTable.symbolCount T.
Proof.
  split.
  - unfold pruneScopedVars. simpl. by rewrite prune_prune.
  - unfold SymbolTable.symbolCount, TreeTraverser.count. simpl.
    pose proof (sublist_length _ _ (prune_oids (SymbolTable.root T))) as Hlen.
    rewrite !length_map in Hlen. lia.
Qed.

(** Pruning the table of [f] takes its variable out. *)
Example prune_of_fnTable :
  SymbolTable.symbols (pruneScopedVars Scenario.fnTable)
  = [Scenario.node 51 SymbolKind.Function "f" 0 None [] [] (Scenario.at_ Scenario.fn 1 0 1 24)]
  ∧ SymbolTable.symbolCount Scenario.fnTable = 2
  ∧ SymbolTable.symbolCount (pruneScopedVars Scenario.fnTable) = 1.
Proof. repeat split; by vm_compute. Qed.

Lemma indexable_prune s :
  IndexableSymbolVisitor.indexable (ScopedVariablePruneVisitor.prune s)
  = IndexableSymbolVisitor.indexable s.
Proof. by destruct s. Qed.

Lemma variablesAreLeaves_children s c :
  variablesAreLeaves s → c ∈ children s → variablesAreLeaves c.
Proof.
  unfold variablesAreLeaves. rewrite (toArray_children s), Forall_cons.
  intros [_ Hall] Hc. apply Forall_forall. intros n Hn.
  eapply Forall_forall in Hall; [exact Hall|].
  apply list_elem_of_In, in_flat_map. exists c. by rewrite <- !list_elem_of_In.
Qed.

Lemma variable_leaf c :
  variablesAreLeaves c → ScopedVariablePruneVisitor._isNotVar c = false →
  TreeTraverser.toArray c = [c] ∧ IndexableSymbolVisitor.indexable c = false.
Proof.
  unfold variablesAreLeaves, ScopedVariablePruneVisitor._isNotVar.
  rewrite (toArray_children c), Forall_cons. intros [Hleaf _] Hvar.
  apply negb_false_iff, bool_decide_eq_true_1 in Hvar.
  rewrite (Hleaf Hvar). split; [done|].
  apply not_true_is_false. rewrite indexable_iff. tauto.
Qed.

(** The index walk takes from the pruned tree the nodes it takes from the
    tree. *)
Lemma nodes_prune : ∀ s,
  variablesAreLeaves s →
  IndexableSymbolVisitor.nodes (ScopedVariablePruneVisitor.prune s)
  = map ScopedVariablePruneVisitor.prune (IndexableSymbolVisitor.nodes s).
Proof.
  unfold IndexableSymbolVisitor.nodes, TreeTraverser.filter.
  induction s as [s IH] using PhpSymbol_tree_ind. intros Hleaves.
  rewrite toArray_prune, (toArray_children s). simpl. rewrite indexable_prune.
  assert (List.filter IndexableSymbolVisitor.indexable
            (flat_map (λ c, TreeTraverser.toArray (ScopedVariablePruneVisitor.prune c))
               (keptChildren s))
          = map ScopedVariablePruneVisitor.prune
              (List.filter IndexableSymbolVisitor.indexable
                 (flat_map TreeTraverser.toArray (children s)))) as ->;
    [|by destruct (IndexableSymbolVisitor.indexable s)].
  assert (Hcs : Forall variablesAreLeaves (children s)).
  { apply Forall_forall. eauto using variablesAreLeaves_children. }
  unfold keptChildren. clear Hleaves.
  induction (children s) as [|c cs IHcs]; [by destruct (prunable s)|].
  apply Forall_cons in IH as [IHc IH]. apply Forall_cons in Hcs as [Hc Hcs].
  specialize (IHcs IH Hcs). simpl.
  rewrite (List.filter_app _ (TreeTraverser.toArray c)), map_app.
  destruct (prunable s); simpl in *.
  - destruct (ScopedVariablePruneVisitor._isNotVar c) eqn:Hvar; simpl.
    + by rewrite List.filter_app, IHc, IHcs.
    + destruct (variable_leaf c Hc Hvar) as [-> Hno]. simpl. by rewrite Hno.
  - by rewrite List.filter_app, IHc, IHcs.
Qed.

Lemma create_prune s :
  KeyedHashedStartLocation.create (ScopedVariablePruneVisitor.prune s)
  = KeyedHashedStartLocation.create s.
Proof. by destruct s. Qed.

Lemma items_prune root :
  variablesAreLeaves root →
  IndexableSymbolVisitor.items (ScopedVariablePruneVisitor.prune root)
  = IndexableSymbolVisitor.items root.
Proof.
  intros Hleaves. unfold IndexableSymbolVisitor.items. rewrite (nodes_prune _ Hleaves).
  induction (IndexableSymbolVisitor.nodes root) as [|n ns IH]; simpl; [done|].
  by rewrite create_prune, IH.
Qed.

Lemma head_filter_app {A} (p : A → bool) (l k : list A) :
  head (List.filter p (l ++ k))
  = match head (List.filter p l) with
    | Some x => Some x
    | None => head (List.filter p k)
    end.
Proof. rewrite List.filter_app. by destruct (List.filter p l). Qed.

Lemma startsAt_prune pos s :
  FindByStartPositionTraverser.startsAt pos (ScopedVariablePruneVisitor.prune s)
  = FindByStartPositionTraverser.startsAt pos s.
Proof. by destruct s. Qed.

Lemma find_prune_none pos s :
  FindByStartPositionTraverser.find pos s = None →
  FindByStartPositionTraverser.find pos (ScopedVariablePruneVisitor.prune s) = None.
Proof.
  unfold FindByStartPositionTraverser.find, TreeTraverser.find, TreeTraverser.filter.
  intros Hnone.
  destruct (List.filter _ (TreeTraverser.toArray (ScopedVariablePruneVisitor.prune s)))
    as [|x l] eqn:Hl; [done|]. exfalso.
  assert (In x (List.filter (FindByStartPositionTraverser.startsAt pos)
                  (TreeTraverser.toArray (ScopedVariablePruneVisitor.prune s)))) as Hin
    by (rewrite Hl; by left).
  apply filter_In in Hin as [Hin Hp]. apply list_elem_of_In, prune_elem in Hin as (y & Hy & ->).
  rewrite startsAt_prune in Hp.
  assert (In y (List.filter (FindByStartPositionTraverser.startsAt pos)
                  (TreeTraverser.toArray s))) as Hin'.
  { apply filter_In. split; [by apply list_elem_of_In|done]. }
  by destruct (List.filter _ (TreeTraverser.toArray s)).
Qed.

(** The search by start position finds in the pruned tree the node it
    finds in the tree, unless that node is a variable. *)
Lemma find_prune pos : ∀ s n,
  variablesAreLeaves s →
  FindByStartPositionTraverser.find pos s = Some n →
  kind n ≠ SymbolKind.Variable_ →
  FindByStartPositionTraverser.find pos (ScopedVariablePruneVisitor.prune s)
  = Some (ScopedVariablePruneVisitor.prune n).
Proof.
  induction s as [s IH] using PhpSymbol_tree_ind. intros n Hleaves.
  pose proof find_prune_none as Hnone.
  unfold FindByStartPositionTraverser.find, TreeTraverser.find, TreeTraverser.filter in *.
  rewrite toArray_prune, (toArray_children s). simpl. rewrite startsAt_prune.
  destruct (FindByStartPositionTraverser.startsAt pos s); simpl; [by intros [= ->]|].
  assert (Hcs : Forall variablesAreLeaves (children s)).
  { apply Forall_forall. eauto using variablesAreLeaves_children. }
  unfold keptChildren. clear Hleaves.
  induction (children s) as [|c cs IHcs]; simpl; [done|].
  apply Forall_cons in IH as [IHc IH]. apply Forall_cons in Hcs as [Hc Hcs].
  specialize (IHcs IH Hcs). rewrite head_filter_app. intros Hn Hkind.
  assert (Hkept :
    head (List.filter (FindByStartPositionTraverser.startsAt pos)
            (TreeTraverser.toArray (ScopedVariablePruneVisitor.prune c)
             ++ flat_map (λ c, TreeTraverser.toArray (ScopedVariablePruneVisitor.prune c))
                  (if prunable s
                   then List.filter ScopedVariablePruneVisitor._isNotVar cs else cs)))
    = Some (ScopedVariablePruneVisitor.prune n)).
  { rewrite head_filter_app.
    destruct (head (List.filter _ (TreeTraverser.toArray c))) as [x|] eqn:Hx.
    - simplify_eq. by rewrite (IHc n Hc eq_refl Hkind).
    - rewrite (Hnone pos c Hx). auto. }
  destruct (prunable s); [|done]. simpl.
  destruct (ScopedVariablePruneVisitor._isNotVar c) eqn:Hvar; [done|].
  destruct (variable_leaf c Hc Hvar) as [Hleaf _]. rewrite Hleaf in Hn. simpl in Hn.
  destruct (FindByStartPositionTraverser.startsAt pos c); simpl in Hn; [|auto].
  simplify_eq. unfold ScopedVariablePruneVisitor._isNotVar in Hvar.
  apply negb_false_iff, bool_decide_eq_true_1 in Hvar. done.
Qed.

Lemma NoDup_allNodes_replace store store' id T T' :
  SymbolStore._tableIndex store !! id = Some T →
  SymbolStore._tableIndex store' = <[id := T']> (SymbolStore._tableIndex store) →
  map oid (TreeTraverser.toArray (SymbolTable.root T'))
  `sublist_of` map oid (TreeTraverser.toArray (SymbolTable.root T)) →
  NoDup (map oid (allNodes store)) →
  NoDup (map oid (allNodes store')).
Proof.
  intros Hold Htables Hsub. unfold allNodes, tables. rewrite Htables, <- insert_delete_eq.
  rewrite (Permutation_flat_map _
             (Permutation_map snd
                (map_to_list_insert _ id T' (lookup_delete_eq _ id)))).
  rewrite <- (Permutation_flat_map _
                (Permutation_map snd (map_to_list_delete _ id T Hold))).
  simpl. rewrite !map_app. intros Hnd.
  eapply sublist_NoDup; [exact Hnd|by apply sublist_app].
Qed.

Lemma stubOf_prune n : stubOf (ScopedVariablePruneVisitor.prune n) = stubOf n.
Proof. by destruct n. Qed.

Lemma symbolKeys_prune n :
  KeyedHashedStartLocation.symbolKeys (ScopedVariablePruneVisitor.prune n)
  = KeyedHashedStartLocation.symbolKeys n.
Proof. by destruct n. Qed.

Lemma resolvesTo_prune T n :
  NoDup (map oid (TreeTraverser.toArray (SymbolTable.root T))) →
  variablesAreLeaves (SymbolTable.root T) →
  n ∈ IndexableSymbolVisitor.nodes (SymbolTable.root T) →
  resolvesTo T n →
  resolvesTo (pruneScopedVars T) (ScopedVariablePruneVisitor.prune n).
Proof.
  intros Hnd Hleaves Hn. unfold resolvesTo.
  destruct (prune_fields n) as (-> & _ & _ & _ & ->).
  destruct (location n) as [l|]; [|done]. simpl.
  destruct (FindByStartPositionTraverser.find (rangeStart l) (SymbolTable.root T))
    as [m|] eqn:Hm; [|done].
  intros [= Hoid]. apply nodes_toArray in Hn as [Hn Hindexable].
  assert (m = n) as ->.
  { apply traverser_find_elem in Hm as [Hm _]. eapply same_object; eauto. }
  rewrite (find_prune _ _ _ Hleaves Hm). { simpl. by destruct n. }
  apply indexable_iff in Hindexable. tauto.
Qed.

Lemma prune_keeps_consistent store uri T :
  consistent store →
  SymbolStore.getSymbolTable store uri = Some T →
  variablesAreLeaves (SymbolTable.root T) →
  consistent (SymbolStore.pruneScopedVarsOf store uri).
Proof.
  intros (Hnd & Htables & Hindex) HT Hleaves.
  unfold SymbolStore.pruneScopedVarsOf. rewrite HT. unfold SymbolStore.getSymbolTable in HT.
  destruct (Htables _ _ HT) as (Hid & Hlocated & Hnodes).
  assert (HndT : NoDup (map oid (TreeTraverser.toArray (SymbolTable.root T)))).
  { revert Hnd. unfold allNodes, tables.
    rewrite <- (Permutation_flat_map _
                  (Permutation_map snd (map_to_list_delete _ _ T HT))).
    simpl. rewrite map_app. by intros (? & _)%NoDup_app. }
  split; [|split].
  - eapply NoDup_allNodes_replace; [exact HT|done| |done]. apply prune_oids.
  - intros id T'. simpl. rewrite lookup_insert_Some.
    intros [[<- <-]|[Hne HT']].
    + split; [done|]. split.
      * unfold locatedTable, pruneScopedVars. simpl. rewrite (nodes_prune _ Hleaves).
        apply Forall_map. eapply Forall_impl; [exact Hlocated|].
        intros n. simpl. by destruct n.
      * unfold pruneScopedVars at 2. simpl. rewrite (nodes_prune _ Hleaves).
        apply Forall_map, Forall_forall. intros n Hn.
        eapply Forall_forall in Hnodes as [Hres Hfiled]; [|exact Hn]. split.
        -- by apply resolvesTo_prune.
        -- unfold filed in *. simpl. by rewrite stubOf_prune, symbolKeys_prune.
    + destruct (Htables _ _ HT') as (? & ? & Hnodes'). split; [done|]. split; [done|].
      eapply Forall_impl; [exact Hnodes'|]. by intros n [? ?].
  - intros key items Hitems. simpl in Hitems.
    eapply Forall_impl; [exact (Hindex _ _ Hitems)|].
    intros item. unfold soundStub. simpl.
    destruct (decide (HashedStartLocation.uriHash item = uriMap.id uri)) as [->|Hne].
    + rewrite HT, lookup_insert_eq. unfold pruneScopedVars. simpl.
      rewrite (nodes_prune _ Hleaves), !Exists_exists.
      intros (n & Hn & Hstub & Hkey). exists (ScopedVariablePruneVisitor.prune n).
      rewrite stubOf_prune, symbolKeys_prune. split; [|done].
      apply list_elem_of_fmap. by exists n.
    + by rewrite lookup_insert_ne.
Qed.

Lemma prune_count store uri T :
  SymbolStore.getSymbolTable store uri = Some T →
  tableSymbolCount (SymbolStore.pruneScopedVarsOf store uri)
  = tableSymbolCount store
    - (SymbolTable.symbolCount T - SymbolTable.symbolCount (pruneScopedVars T)).
Proof.
  intros HT. unfold SymbolStore.pruneScopedVarsOf. rewrite HT.
  unfold SymbolStore.getSymbolTable in HT.
  pose (mid := SymbolStore.mk (delete (uriMap.id uri) (SymbolStore._tableIndex store))
                 (SymbolStore._symbolIndex store) (SymbolStore._symbolCount store)).
  rewrite (tableSymbolCount_delete store mid _ _ HT eq_refl).
  match goal with
  | |- tableSymbolCount ?s = _ =>
      rewrite (tableSymbolCount_insert mid s (uriMap.id uri) (pruneScopedVars T))
  end.
  - lia.
  - simpl. apply lookup_delete_eq.
  - simpl. by rewrite insert_delete_eq.
Qed.

Lemma freshTable_prune store T :
  variablesAreLeaves (SymbolTable.root T) →
  freshTable store T → freshTable store (pruneScopedVars T).
Proof.
  intros Hleaves (Hlocated & Hresolves & Hnd).
  assert (HndT : NoDup (map oid (TreeTraverser.toArray (SymbolTable.root T)))).
  { rewrite map_app in Hnd. by apply NoDup_app in Hnd as (? & _). }
  split; [|split].
  - unfold locatedTable, pruneScopedVars. simpl. rewrite (nodes_prune _ Hleaves).
    apply Forall_map. eapply Forall_impl; [exact Hlocated|]. intros n. simpl. by destruct n.
  - unfold pruneScopedVars at 2. simpl. rewrite (nodes_prune _ Hleaves).
    apply Forall_map, Forall_forall. intros n Hn.
    eapply Forall_forall in Hresolves; [|exact Hn]. by apply resolvesTo_prune.
  - rewrite map_app in *. eapply sublist_NoDup; [exact Hnd|].
    apply sublist_app; [apply prune_oids|done].
Qed.

(** ** [intelephense.ts]: closing and discovering documents *)

(** X22. [closeDocument] prunes the registered table in place.  In a
    consistent store, for a table in which nothing hangs below a
    variable, the store stays consistent: the index walk of the pruned
    table yields the items it yielded before, and every index stub
    resolves to the node it was made from.  The running count is not
    touched, so it exceeds the sum over the tables by the symbols
    pruned. *)
Theorem closeDocument_keeps_index st uri T :
  consistent (Intelephense.symbolStore st) →
  SymbolStore.getSymbolTable (Intelephense.symbolStore st) uri = Some T →
  variablesAreLeaves (SymbolTable.root T) →
  let closed := Intelephense.closeDocument st uri in
  consistent (Intelephense.symbolStore closed)
  ∧ SymbolStore.getSymbolTable (Intelephense.symbolStore closed) uri
    = Some (pruneScopedVars T)
  ∧ IndexableSymbolVisitor.items (SymbolTable.root (pruneScopedVars T))
    = IndexableSymbolVisitor.items (SymbolTable.root T)
  ∧ Intelephense.numberSymbolsKnown closed - tableSymbolCount (Intelephense.symbolStore closed)
    = Intelephense.numberSymbolsKnown st - tableSymbolCount (Intelephense.symbolStore st)
      + (SymbolTable.symbolCount T - SymbolTable.symbolCount (pruneScopedVars T)).
Proof.
  intros Hcons HT Hleaves. simpl. split; [by eapply prune_keeps_consistent|].
  split.
  { unfold SymbolStore.pruneScopedVarsOf. rewrite HT.
    unfold SymbolStore.getSymbolTable. simpl. by rewrite lookup_insert_eq. }
  split; [by apply items_prune|].
  unfold Intelephense.numberSymbolsKnown. simpl. rewrite (prune_count _ _ _ HT).
  unfold SymbolStore.pruneScopedVarsOf, SymbolStore.symbolCount. rewrite HT. simpl. lia.
Qed.

Lemma closeDocument_keeps_index_witness :
  consistent (Intelephense.symbolStore Samples.fnOpen)
  ∧ SymbolStore.getSymbolTable (Intelephense.symbolStore Samples.fnOpen) Scenario.fn
    = Some Scenario.fnTable
  ∧ variablesAreLeaves (SymbolTable.root Scenario.fnTable)
  ∧ let closed := Intelephense.closeDocument Samples.fnOpen Scenario.fn in
    consistent (Intelephense.symbolStore closed)
    ∧ SymbolStore.getSymbolTable (Intelephense.symbolStore closed) Scenario.fn
      = Some (pruneScopedVars Scenario.fnTable)
    ∧ IndexableSymbolVisitor.items (SymbolTable.root (pruneScopedVars Scenario.fnTable))
      = IndexableSymbolVisitor.items (SymbolTable.root Scenario.fnTable)
    ∧ Intelephense.numberSymbolsKnown closed
      - tableSymbolCount (Intelephense.symbolStore closed)
      = Intelephense.numberSymbolsKnown Samples.fnOpen
        - tableSymbolCount (Intelephense.symbolStore Samples.fnOpen)
        + (SymbolTable.symbolCount Scenario.fnTable
           - SymbolTable.symbolCount (pruneScopedVars Scenario.fnTable)).
Proof.
  assert (Hok : consistent (Intelephense.symbolStore Samples.fnOpen)) by by_compute.
  assert (Htable : SymbolStore.getSymbolTable (Intelephense.symbolStore Samples.fnOpen)
                     Scenario.fn = Some Scenario.fnTable) by (vm_compute; reflexivity).
  assert (Hleaves : variablesAreLeaves (SymbolTable.root Scenario.fnTable)) by by_compute.
  split; [exact Hok|]. split; [exact Htable|]. split; [exact Hleaves|].
  exact (closeDocument_keeps_index Samples.fnOpen Scenario.fn Scenario.fnTable
           Hok Htable Hleaves).
Defined.

(** After the document of [f] is closed the store counts two symbols
    and its one table has one. *)
Example closed_document_count :
  Intelephense.numberSymbolsKnown (Intelephense.closeDocument Samples.fnOpen Scenario.fn) = 2
  ∧ tableSymbolCount
      (Intelephense.symbolStore (Intelephense.closeDocument Samples.fnOpen Scenario.fn)) = 1
  ∧ Intelephense.numberDocumentsOpen (Intelephense.closeDocument Samples.fnOpen Scenario.fn)
    = 0
  ∧ Intelephense.numberDocumentsKnown (Intelephense.closeDocument Samples.fnOpen Scenario.fn)
    = 1.
Proof. repeat split; by vm_compute. Qed.

(** X23. [discoverSymbols] of a document that is not open prunes the
    table before it adds it: in a store built by [add] and [remove] it
    returns the symbol count of the pruned table, registers that table,
    and leaves a store of the same kind, whose running count is the sum
    over its tables. *)
Theorem discoverSymbols_keeps_count st uri root :
  reachable (Intelephense.symbolStore st) →
  uri ∉ Intelephense.documentStore st →
  variablesAreLeaves root →
  freshTable (SymbolStore.remove (Intelephense.symbolStore st) uri).2
    (SymbolTable.mk uri root) →
  ∃ discovered,
    Intelephense.discoverSymbols st uri root
    = (Ok (SymbolTable.symbolCount (pruneScopedVars (SymbolTable.mk uri root))), discovered)
    ∧ reachable (Intelephense.symbolStore discovered)
    ∧ SymbolStore.getSymbolTable (Intelephense.symbolStore discovered) uri
      = Some (pruneScopedVars (SymbolTable.mk uri root))
    ∧ Intelephense.numberSymbolsKnown discovered
      = tableSymbolCount (Intelephense.symbolStore discovered).
Proof.
  intros Hreach Hclosed Hleaves Hfresh. unfold Intelephense.discoverSymbols.
  rewrite bool_decide_eq_false_2 by done.
  apply (freshTable_prune _ (SymbolTable.mk uri root) Hleaves) in Hfresh.
  pose proof (reachable_add _ (pruneScopedVars (SymbolTable.mk uri root)) Hreach Hfresh)
    as Hreach'.
  destruct (exact_add _ _ (reachable_exact _ Hreach) Hfresh) as (added & Hadd & _).
  rewrite Hadd in *. eexists. split; [done|]. simpl in *.
  split; [done|]. split.
  - destruct (add_tables _ _ _ Hadd) as (Htables & _).
    unfold SymbolStore.getSymbolTable. rewrite Htables. simpl. apply lookup_insert_eq.
  - by apply reachable_count.
Qed.

Lemma discoverSymbols_keeps_count_witness :
  reachable (Intelephense.symbolStore Samples.typesKnown)
  ∧ (Scenario.fn ∉ Intelephense.documentStore Samples.typesKnown)
  ∧ variablesAreLeaves (SymbolTable.root Scenario.fnTable)
  ∧ freshTable (SymbolStore.remove (Intelephense.symbolStore Samples.typesKnown) Scenario.fn).2
      (SymbolTable.mk Scenario.fn (SymbolTable.root Scenario.fnTable))
  ∧ ∃ discovered,
      Intelephense.discoverSymbols Samples.typesKnown Scenario.fn
        (SymbolTable.root Scenario.fnTable)
      = (Ok (SymbolTable.symbolCount
               (pruneScopedVars
                  (SymbolTable.mk Scenario.fn (SymbolTable.root Scenario.fnTable)))),
         discovered)
      ∧ reachable (Intelephense.symbolStore discovered)
      ∧ SymbolStore.getSymbolTable (Intelephense.symbolStore discovered) Scenario.fn
        = Some (pruneScopedVars
                  (SymbolTable.mk Scenario.fn (SymbolTable.root Scenario.fnTable)))
      ∧ Intelephense.numberSymbolsKnown discovered
        = tableSymbolCount (Intelephense.symbolStore discovered).
Proof.
  assert (Hreach : reachable (Intelephense.symbolStore Samples.typesKnown)).
  { apply (reachable_add SymbolStore.empty Scenario.typesTable reachable_empty).
    by_compute. }
  assert (Hclosed : Scenario.fn ∉ Intelephense.documentStore Samples.typesKnown)
    by by_compute.
  assert (Hleaves : variablesAreLeaves (SymbolTable.root Scenario.fnTable)) by by_compute.
  assert (Hfresh : freshTable
                     (SymbolStore.remove (Intelephense.symbolStore Samples.typesKnown)
                        Scenario.fn).2
                     (SymbolTable.mk Scenario.fn (SymbolTable.root Scenario.fnTable)))
    by by_compute.
  split; [exact Hreach|]. split; [exact Hclosed|]. split; [exact Hleaves|].
  split; [exact Hfresh|].
  exact (discoverSymbols_keeps_count Samples.typesKnown Scenario.fn
           (SymbolTable.root Scenario.fnTable) Hreach Hclosed Hleaves Hfresh).
Defined.

(** ** [types.ts]: binary search *)

Lemma at_Some {A} (array : list A) i x :
  JsArray.at_ array i = Some x → 0 ≤ i < Z.of_nat (length array) ∧ x ∈ array.
Proof.
  unfold JsArray.at_. destruct (i <? 0) eqn:Hi; [done|]. apply Z.ltb_ge in Hi.
  intros Hx. pose proof (lookup_lt_Some _ _ _ Hx). split; [lia|].
  by eapply list_elem_of_lookup_2.
Qed.

Lemma at_in_range {A} (array : list A) i :
  0 ≤ i < Z.of_nat (length array) → is_Some (JsArray.at_ array i).
Proof.
  intros Hi. unfold JsArray.at_. rewrite (proj2 (Z.ltb_ge _ _)) by lia.
  apply lookup_lt_is_Some. lia.
Qed.

Lemma at_elem {A} (array : list A) x :
  x ∈ array → ∃ i, JsArray.at_ array i = Some x.
Proof.
  intros (i & Hi)%list_elem_of_lookup_1. exists (Z.of_nat i).
  unfold JsArray.at_. rewrite (proj2 (Z.ltb_ge _ _)) by lia. by rewrite Nat2Z.id.
Qed.

Lemma at_cons {A} (x : A) (array : list A) i :
  JsArray.at_ (x :: array) i = if i =? 0 then Some x else JsArray.at_ array (i - 1).
Proof.
  unfold JsArray.at_. destruct (i <? 0) eqn:Hi.
  - apply Z.ltb_lt in Hi. rewrite (proj2 (Z.eqb_neq _ _)) by lia.
    by rewrite (proj2 (Z.ltb_lt _ _)) by lia.
  - apply Z.ltb_ge in Hi. destruct (i =? 0) eqn:Hz.
    + apply Z.eqb_eq in Hz as ->. done.
    + apply Z.eqb_neq in Hz. rewrite (proj2 (Z.ltb_ge _ _)) by lia.
      replace (Z.to_nat i) with (S (Z.to_nat (i - 1))) by lia. done.
Qed.

Lemma sorted_ordered {T} (compare : T → Z) (array : list T) :
  StronglySorted (λ x y, Z.sgn (compare x) ≤ Z.sgn (compare y)) array →
  ordered compare array.
Proof.
  induction 1 as [|x array Hsorted IH Hx]; intros i j a b Hij.
  { intros Ha. by apply at_Some in Ha as [_ ?%elem_of_nil]. }
  rewrite !at_cons. destruct (i =? 0) eqn:Hi.
  - apply Z.eqb_eq in Hi as ->. intros [= <-].
    destruct (j =? 0); [intros [= <-]; lia|].
    intros Hb. apply at_Some in Hb as [_ Hb]. by eapply Forall_forall in Hx.
  - apply Z.eqb_neq in Hi. intros Ha. destruct (at_Some _ _ _ Ha) as [? _].
    rewrite (proj2 (Z.eqb_neq j 0)) by lia. intros Hb.
    apply (IH (i - 1) (j - 1) a b); [lia|done|done].
Qed.

Lemma _search_eq {T} (array : list T) compare left r :
  BinarySearch.searchLoop (BinarySearch.searchFuel array left) array compare left
    (Z.of_nat (length array) - 1) = Some r →
  BinarySearch._search array compare left = r.
Proof.
  unfold BinarySearch._search.
  generalize (BinarySearch.searchLoop_fuel array compare left).
  destruct (BinarySearch.searchLoop _ _ _ _ _); [by intros ? [= ->]|done].
Qed.

Lemma _search_loop {T} (array : list T) compare left :
  BinarySearch.searchLoop (BinarySearch.searchFuel array left) array compare left
    (Z.of_nat (length array) - 1)
  = Some (BinarySearch._search array compare left).
Proof.
  destruct (BinarySearch.searchLoop _ _ _ _ _) as [r|] eqn:Hr.
  - by rewrite (_search_eq _ _ _ _ Hr).
  - by apply BinarySearch.searchLoop_fuel in Hr.
Qed.

Lemma mid_between left right : left ≤ right → left ≤ (left + right) / 2 ≤ right.
Proof.
  intros. split; [apply Z.div_le_lower_bound|apply Z.div_le_upper_bound]; lia.
Qed.

(** The loop reads inside the array and returns a rank between the
    bounds it was given. *)
Lemma searchLoop_bounds {T} (array : list T) compare : ∀ fuel left right r,
  0 ≤ left → right < Z.of_nat (length array) →
  BinarySearch.searchLoop fuel array compare left right = Some r →
  ∃ result,
    r = Ok result
    ∧ left ≤ BinarySearch.rank result ≤ Z.max left (right + 1)
    ∧ (BinarySearch.isExactMatch result = true →
       ∃ x, JsArray.at_ array (BinarySearch.rank result) = Some x ∧ compare x = 0).
Proof.
  induction fuel as [|fuel IH]; intros left right r Hleft Hright; [done|]. simpl.
  destruct (right <? left) eqn:Hdone.
  { intros [= <-]. eexists. split; [done|]. simpl. split; [lia|done]. }
  apply Z.ltb_ge in Hdone. pose proof (mid_between _ _ Hdone) as Hmid.
  destruct (at_in_range array ((left + right) / 2)) as [element Helement]; [lia|].
  rewrite Helement.
  destruct (compare element <? 0) eqn:Hneg.
  { intros Hloop.
    destruct (IH ((left + right) / 2 + 1) right r) as (result & -> & ? & ?);
      [lia|done|done|].
    exists result. split; [done|]. split; [lia|done]. }
  destruct (0 <? compare element) eqn:Hpos.
  { intros Hloop.
    destruct (IH left ((left + right) / 2 - 1) r) as (result & -> & ? & ?);
      [done|lia|done|].
    exists result. split; [done|]. split; [lia|done]. }
  intros [= <-]. eexists. split; [done|]. simpl. split; [lia|].
  intros _. exists element. split; [done|]. lia.
Qed.

(** X24. [_search] ends and reads inside the array for every array,
    comparator and start that is not negative: it returns a rank from
    the start to the length of the array, and an exact match only at an
    element on which the comparator is zero. *)
Theorem search_returns_in_bounds {T} (array : list T) compare left :
  0 ≤ left →
  ∃ result,
    BinarySearch._search array compare left = Ok result
    ∧ left ≤ BinarySearch.rank result ≤ Z.max left (Z.of_nat (length array))
    ∧ (BinarySearch.isExactMatch result = true →
       ∃ x, JsArray.at_ array (BinarySearch.rank result) = Some x ∧ compare x = 0).
Proof.
  intros Hleft.
  destruct (searchLoop_bounds array compare _ _ _ _ Hleft
              (Z.lt_pred_l (Z.of_nat (length array)))
              (_search_loop array compare left)) as (result & Hr & Hrank & Hexact).
  exists result. split; [done|]. split; [lia|done].
Qed.

Lemma search_returns_in_bounds_witness :
  0 ≤ 1
  ∧ ∃ result,
      BinarySearch._search Samples.odds (Samples.lookFor 4) 1 = Ok result
      ∧ 1 ≤ BinarySearch.rank result ≤ Z.max 1 (Z.of_nat (length Samples.odds))
      ∧ (BinarySearch.isExactMatch result = true →
         ∃ x, JsArray.at_ Samples.odds (BinarySearch.rank result) = Some x
              ∧ Samples.lookFor 4 x = 0).
Proof.
  assert (Hleft : 0 ≤ 1) by lia.
  split; [exact Hleft|].
  exact (search_returns_in_bounds Samples.odds (Samples.lookFor 4) 1 Hleft).
Defined.

Lemma searchLoop_ordered {T} (array : list T) compare lo : ∀ fuel left right result,
  (∀ i j x y,
     lo ≤ i → i ≤ j → JsArray.at_ array i = Some x → JsArray.at_ array j = Some y →
     Z.sgn (compare x) ≤ Z.sgn (compare y)) →
  0 ≤ lo ≤ left → right < Z.of_nat (length array) →
  (∀ i x, lo ≤ i < left → JsArray.at_ array i = Some x → compare x < 0) →
  (∀ i x, right < i → JsArray.at_ array i = Some x → 0 < compare x) →
  BinarySearch.searchLoop fuel array compare left right = Some (Ok result) →
  if BinarySearch.isExactMatch result
  then ∃ x, JsArray.at_ array (BinarySearch.rank result) = Some x ∧ compare x = 0
  else (∀ i x, lo ≤ i < BinarySearch.rank result →
               JsArray.at_ array i = Some x → compare x < 0)
       ∧ (∀ i x, BinarySearch.rank result ≤ i →
                 JsArray.at_ array i = Some x → 0 < compare x).
Proof.
  intros fuel left right result Hord. revert left right.
  induction fuel as [|fuel IH]; intros left right Hleft Hright Hbelow Habove; [done|].
  simpl. destruct (right <? left) eqn:Hdone.
  { apply Z.ltb_lt in Hdone. intros [= <-]. simpl. split; [done|].
    intros i x Hi. apply Habove. lia. }
  apply Z.ltb_ge in Hdone. pose proof (mid_between _ _ Hdone) as Hmid.
  destruct (JsArray.at_ array ((left + right) / 2)) as [element|] eqn:Helement; [|done].
  destruct (compare element <? 0) eqn:Hneg.
  { apply Z.ltb_lt in Hneg. apply IH; [lia|done| |done].
    intros i x Hi Hx.
    assert (i ≤ (left + right) / 2) as Hle by lia.
    pose proof (Hord _ _ x element (proj1 Hi) Hle Hx Helement). lia. }
  apply Z.ltb_ge in Hneg.
  destruct (0 <? compare element) eqn:Hpos.
  { apply Z.ltb_lt in Hpos. apply IH; [lia|lia|done|].
    intros i x Hi Hx.
    assert ((left + right) / 2 ≤ i) as Hle by lia.
    assert (lo ≤ (left + right) / 2) as Hlo by lia.
    pose proof (Hord _ _ element x Hlo Hle Helement Hx). lia. }
  apply Z.ltb_ge in Hpos. intros [= <-]. simpl. exists element. split; [done|lia].
Qed.

(** X25. On an array that is sorted for the comparator, [_search] from
    the start of the array finds an exact match when there is one, and
    otherwise returns the insertion point: the comparator is negative on
    every element before the rank and positive on every element from the
    rank on.  [find] returns an element on which the comparator is zero,
    or [null] when there is none. *)
Theorem search_ordered {T} (array : list T) compare :
  ordered compare array →
  ∃ result,
    BinarySearch._search array compare 0 = Ok result
    ∧ BinarySearch.rank_ array compare = Ok (BinarySearch.rank result)
    ∧ 0 ≤ BinarySearch.rank result ≤ Z.of_nat (length array)
    ∧ if BinarySearch.isExactMatch result
      then ∃ x, JsArray.at_ array (BinarySearch.rank result) = Some x ∧ compare x = 0
                ∧ BinarySearch.find array compare = Ok (Some x)
      else BinarySearch.find array compare = Ok None
           ∧ (∀ x, x ∈ array → compare x ≠ 0)
           ∧ (∀ i x, i < BinarySearch.rank result →
                     JsArray.at_ array i = Some x → compare x < 0)
           ∧ (∀ i x, BinarySearch.rank result ≤ i →
                     JsArray.at_ array i = Some x → 0 < compare x).
Proof.
  intros Hord.
  destruct (searchLoop_bounds array compare _ _ _ _ (Z.le_refl 0)
              (Z.lt_pred_l (Z.of_nat (length array)))
              (_search_loop array compare 0)) as (result & Hr & Hrank & _).
  pose proof (_search_loop array compare 0) as Hloop. rewrite Hr in Hloop.
  apply (searchLoop_ordered array compare 0) in Hloop;
    [|intros i j x y _; apply Hord|lia|lia| |].
  - exists result. unfold BinarySearch.rank_, BinarySearch.find. rewrite Hr. simpl.
    split; [done|]. split; [done|]. split; [lia|].
    destruct (BinarySearch.isExactMatch result).
    + destruct Hloop as (x & Hx & Hzero). exists x. by rewrite Hx.
    + destruct Hloop as [Hbelow Habove]. split; [done|]. split.
      * intros x (i & Hi)%at_elem Hzero.
        destruct (Z.lt_ge_cases i (BinarySearch.rank result)) as [Hlt|Hge].
        -- destruct (at_Some _ _ _ Hi) as [? _].
           pose proof (Hbelow i x ltac:(lia) Hi). lia.
        -- pose proof (Habove i x Hge Hi). lia.
      * split; [|done]. intros i x Hi Hx. destruct (at_Some _ _ _ Hx) as [? _].
        apply (Hbelow i x); [lia|done].
  - intros i x Hi. lia.
  - intros i x Hi Hx. apply at_Some in Hx as [? _]. lia.
Qed.

Lemma search_ordered_witness :
  ordered (Samples.lookFor 4) Samples.odds
  ∧ ∃ result,
      BinarySearch._search Samples.odds (Samples.lookFor 4) 0 = Ok result
      ∧ BinarySearch.rank_ Samples.odds (Samples.lookFor 4) = Ok (BinarySearch.rank result)
      ∧ 0 ≤ BinarySearch.rank result ≤ Z.of_nat (length Samples.odds)
      ∧ if BinarySearch.isExactMatch result
        then ∃ x, JsArray.at_ Samples.odds (BinarySearch.rank result) = Some x
                  ∧ Samples.lookFor 4 x = 0
                  ∧ BinarySearch.find Samples.odds (Samples.lookFor 4) = Ok (Some x)
        else BinarySearch.find Samples.odds (Samples.lookFor 4) = Ok None
             ∧ (∀ x, x ∈ Samples.odds → Samples.lookFor 4 x ≠ 0)
             ∧ (∀ i x, i < BinarySearch.rank result →
                       JsArray.at_ Samples.odds i = Some x → Samples.lookFor 4 x < 0)
             ∧ (∀ i x, BinarySearch.rank result ≤ i →
                       JsArray.at_ Samples.odds i = Some x → 0 < Samples.lookFor 4 x).
Proof.
  assert (Hordered : ordered (Samples.lookFor 4) Samples.odds)
    by (apply sorted_ordered; by_compute).
  split; [exact Hordered|].
  exact (search_ordered Samples.odds (Samples.lookFor 4) Hordered).
Defined.

(** In the array of the odd numbers [5] is found at rank 2, and [4] is
    not found and has the same rank. *)
Example search_of_odds :
  BinarySearch._search Samples.odds (Samples.lookFor 5) 0 = Ok (BinarySearch.mkResult 2 true)
  ∧ BinarySearch._search Samples.odds (Samples.lookFor 4) 0
    = Ok (BinarySearch.mkResult 2 false)
  ∧ BinarySearch.find Samples.odds (Samples.lookFor 4) = Ok None.
Proof. repeat split; by vm_compute. Qed.

Lemma relativeIndex_inside {A} (array : list A) i :
  0 ≤ i → JsArray.relativeIndex array i = Z.to_nat (Z.min i (Z.of_nat (length array))).
Proof. intros Hi. unfold JsArray.relativeIndex. by rewrite (proj2 (Z.ltb_ge _ _)). Qed.

(** X26. [range] returns a run of the array that begins at the rank of
    the lower comparator; when that rank lies in the array the run holds
    at least the element at that rank, whatever the upper comparator
    is: the upper search begins one place further on. *)
Theorem range_begins_at_lower_rank {T} (array : list T) compareLower compareUpper :
  ∃ rankLower count found,
    BinarySearch.rank_ array compareLower = Ok rankLower
    ∧ BinarySearch.range array compareLower compareUpper = Ok found
    ∧ found = take count (drop (Z.to_nat rankLower) array)
    ∧ (rankLower < Z.of_nat (length array) →
       (1 ≤ count)%nat ∧ head found = JsArray.at_ array rankLower).
Proof.
  destruct (searchLoop_bounds array compareLower _ _ _ _ (Z.le_refl 0)
              (Z.lt_pred_l (Z.of_nat (length array)))
              (_search_loop array compareLower 0)) as (lower & Hlower & Hrank & _).
  assert (0 ≤ BinarySearch.rank lower + 1) as Hleft by lia.
  destruct (searchLoop_bounds array compareUpper _ _ _ _ Hleft
              (Z.lt_pred_l (Z.of_nat (length array)))
              (_search_loop array compareUpper (BinarySearch.rank lower + 1)))
    as (upper & Hupper & Hrank' & _).
  unfold BinarySearch.range, BinarySearch.rank_. rewrite Hlower. simpl. rewrite Hupper. simpl.
  exists (BinarySearch.rank lower),
    (JsArray.relativeIndex array (BinarySearch.rank upper)
     - JsArray.relativeIndex array (BinarySearch.rank lower))%nat.
  eexists. split; [done|]. split; [done|].
  unfold JsArray.slice. rewrite !relativeIndex_inside by lia.
  split; [f_equal; f_equal; lia|]. intros Hin. split; [lia|].
  unfold JsArray.at_. rewrite (proj2 (Z.ltb_ge _ _)) by lia.
  replace (Z.to_nat (Z.min (BinarySearch.rank lower) (Z.of_nat (length array))))
    with (Z.to_nat (BinarySearch.rank lower)) by lia.
  destruct (lookup_lt_is_Some_2 array (Z.to_nat (BinarySearch.rank lower))) as [x Hx];
    [lia|].
  rewrite Hx. rewrite (drop_S _ _ _ Hx).
  destruct (Z.to_nat (Z.min (BinarySearch.rank upper) (Z.of_nat (length array)))
            - Z.to_nat (BinarySearch.rank lower))%nat eqn:Hcount; [lia|done].
Qed.

(** The range from [4] up to [0] of the odd numbers is not empty: it
    holds the number at the rank of [4]. *)
Example range_of_odds :
  BinarySearch.range Samples.odds (Samples.lookFor 4) (Samples.lookFor 0) = Ok [5].
Proof. by vm_compute. Qed.

(** ** [types.ts]: the suffix array *)

Lemma at_insert {A} (array : list A) place x i :
  0 ≤ place < Z.of_nat (length array) →
  JsArray.at_ (<[Z.to_nat place := x]> array) i
  = if i =? place then Some x else JsArray.at_ array i.
Proof.
  intros Hplace. unfold JsArray.at_. destruct (i <? 0) eqn:Hi.
  - apply Z.ltb_lt in Hi. by rewrite (proj2 (Z.eqb_neq _ _)) by lia.
  - apply Z.ltb_ge in Hi. destruct (i =? place) eqn:Heq.
    + apply Z.eqb_eq in Heq as ->. apply list_lookup_insert_eq. lia.
    + apply Z.eqb_neq in Heq. apply list_lookup_insert_ne. lia.
Qed.

Lemma at_spliceIn {A} (array : list A) k x i :
  0 ≤ k ≤ Z.of_nat (length array) →
  JsArray.at_ (JsArray.spliceIn array k x) i
  = if i <? k then JsArray.at_ array i
    else if i =? k then Some x else JsArray.at_ array (i - 1).
Proof.
  intros Hk. unfold JsArray.spliceIn. rewrite relativeIndex_inside by lia.
  replace (Z.min k (Z.of_nat (length array))) with k by lia.
  unfold JsArray.at_. destruct (i <? 0) eqn:Hi.
  { apply Z.ltb_lt in Hi. rewrite (proj2 (Z.ltb_lt _ _)) by lia. done. }
  apply Z.ltb_ge in Hi. destruct (i <? k) eqn:Hlt.
  - apply Z.ltb_lt in Hlt. rewrite lookup_app_l by (rewrite length_take; lia).
    apply lookup_take_lt. lia.
  - apply Z.ltb_ge in Hlt. rewrite lookup_app_r by (rewrite length_take; lia).
    rewrite length_take. replace (Z.to_nat k `min` length array)%nat with (Z.to_nat k) by lia.
    destruct (i =? k) eqn:Heq.
    + apply Z.eqb_eq in Heq as ->. by rewrite Nat.sub_diag.
    + apply Z.eqb_neq in Heq. rewrite (proj2 (Z.ltb_ge _ _)) by lia.
      replace (Z.to_nat i - Z.to_nat k)%nat with (S (Z.to_nat (i - 1) - Z.to_nat k)) by lia.
      simpl. rewrite lookup_drop. f_equal. lia.
Qed.

Section SuffixArrayProperties.

Context {T : Type} `{EqDecision T}.

Variable collator : string → string → Z.
Variable suffixDelegate : T → list string.

Hypothesis Hcollation : collation collator.

Lemma collation_refl a : collator a a = 0.
Proof. by apply (collation_eq _ Hcollation). Qed.

Lemma collation_flip a b : collator a b < 0 ↔ 0 < collator b a.
Proof.
  pose proof (collation_antisym _ Hcollation a b) as Hsgn.
  destruct (collator a b), (collator b a); simpl in Hsgn; lia.
Qed.

Lemma descending_ordered (nodes : list (SuffixArray.SuffixArrayNode T)) text :
  descending collator nodes →
  ordered (λ n, collator text (SuffixArray.key n)) nodes.
Proof.
  intros Hdesc i j x y Hij Hx Hy.
  destruct (decide (i = j)) as [->|Hne]; [by simplify_eq|].
  assert (collator (SuffixArray.key y) (SuffixArray.key x) < 0) as Hyx
    by (apply (Hdesc i j); [lia|done..]).
  destruct (Z.lt_trichotomy (collator text (SuffixArray.key x)) 0) as [Hlt|[Heq|Hgt]].
  - destruct (collator text (SuffixArray.key x)), (collator text (SuffixArray.key y));
      simpl; lia.
  - apply (collation_eq _ Hcollation) in Heq as ->. apply collation_flip in Hyx.
    rewrite collation_refl.
    destruct (collator (SuffixArray.key x) (SuffixArray.key y)); simpl; lia.
  - apply collation_flip in Hgt.
    pose proof (collation_trans _ Hcollation _ _ _ Hyx Hgt) as Hyt.
    apply collation_flip in Hyt.
    destruct (collator text (SuffixArray.key x)), (collator text (SuffixArray.key y));
      simpl; lia.
Qed.

(** The search of a key in a descending array: the node of that key, or
    the place where it belongs. *)
Lemma key_search (nodes : list (SuffixArray.SuffixArrayNode T)) text :
  descending collator nodes →
  ∃ result,
    BinarySearch._search nodes (λ n, collator text (SuffixArray.key n)) 0 = Ok result
    ∧ 0 ≤ BinarySearch.rank result ≤ Z.of_nat (length nodes)
    ∧ (∀ i n, i < BinarySearch.rank result → JsArray.at_ nodes i = Some n →
              collator text (SuffixArray.key n) < 0)
    ∧ (∀ i n, BinarySearch.rank result < i → JsArray.at_ nodes i = Some n →
              0 < collator text (SuffixArray.key n))
    ∧ if BinarySearch.isExactMatch result
      then ∃ n, JsArray.at_ nodes (BinarySearch.rank result) = Some n
                ∧ SuffixArray.key n = text
      else ∀ n, JsArray.at_ nodes (BinarySearch.rank result) = Some n →
                0 < collator text (SuffixArray.key n).
Proof.
  intros Hdesc. pose proof (descending_ordered nodes text Hdesc) as Hord.
  set (compare := λ n : SuffixArray.SuffixArrayNode T, collator text (SuffixArray.key n)).
  destruct (searchLoop_bounds nodes compare _ _ _ _ (Z.le_refl 0)
              (Z.lt_pred_l (Z.of_nat (length nodes)))
              (_search_loop nodes compare 0)) as (result & Hr & Hrank & _).
  pose proof (_search_loop nodes compare 0) as Hloop. rewrite Hr in Hloop.
  apply (searchLoop_ordered nodes compare 0) in Hloop;
    [|intros i j x y _; apply Hord|lia|lia| |].
  - exists result. split; [done|]. split; [lia|].
    destruct (BinarySearch.isExactMatch result).
    + destruct Hloop as (n & Hn & Hzero). apply (collation_eq _ Hcollation) in Hzero.
      assert (∀ i m, JsArray.at_ nodes i = Some m → i ≠ BinarySearch.rank result →
                Z.sgn (compare m) = if i <? BinarySearch.rank result then -1 else 1)
        as Hsides.
      { intros i m Hm Hi. unfold compare. rewrite Hzero.
        destruct (i <? BinarySearch.rank result) eqn:Hlt.
        - apply Z.ltb_lt in Hlt. pose proof (Hdesc _ _ _ _ Hlt Hm Hn) as Hlow.
          destruct (collator (SuffixArray.key n) (SuffixArray.key m)); simpl; lia.
        - apply Z.ltb_ge in Hlt.
          assert (BinarySearch.rank result < i) as Hgt by lia.
          pose proof (Hdesc _ _ _ _ Hgt Hn Hm) as Hlow.
          apply collation_flip in Hlow.
          destruct (collator (SuffixArray.key n) (SuffixArray.key m)); simpl; lia. }
      split; [|split; [|by exists n]].
      * intros i m Hi Hm. pose proof (Hsides i m Hm ltac:(lia)) as Hs.
        rewrite (proj2 (Z.ltb_lt _ _)) in Hs by done.
        unfold compare in Hs. destruct (collator text (SuffixArray.key m)); simpl in Hs; lia.
      * intros i m Hi Hm. pose proof (Hsides i m Hm ltac:(lia)) as Hs.
        rewrite (proj2 (Z.ltb_ge _ _)) in Hs by lia.
        unfold compare in Hs. destruct (collator text (SuffixArray.key m)); simpl in Hs; lia.
    + destruct Hloop as [Hbelow Habove]. split; [|split].
      * intros i n Hi Hn. destruct (at_Some _ _ _ Hn) as [? _].
        apply (Hbelow i n); [lia|done].
      * intros i n Hi Hn. apply (Habove i n); [lia|done].
      * intros n Hn. apply (Habove (BinarySearch.rank result) n); [lia|done].
  - intros i x Hi. lia.
  - intros i x Hi Hx. apply at_Some in Hx as [? _]. lia.
Qed.

Lemma nodeFind_descending (sa : SuffixArray.t T) text :
  descending collator (SuffixArray._nodeArray sa) →
  ∃ found,
    SuffixArray._nodeFind collator sa text = Ok found
    ∧ match found with
      | Some (place, node) =>
          JsArray.at_ (SuffixArray._nodeArray sa) place = Some node
          ∧ SuffixArray.key node = SuffixArray.folded sa text
      | None =>
          ∀ n, n ∈ SuffixArray._nodeArray sa →
               SuffixArray.key n ≠ SuffixArray.folded sa text
      end.
Proof.
  intros Hdesc. unfold SuffixArray._nodeFind.
  destruct (key_search _ (SuffixArray.folded sa text) Hdesc)
    as (result & -> & Hrank & Hbelow & Habove & Hat).
  simpl. eexists. split; [done|].
  destruct (BinarySearch.isExactMatch result).
  - destruct Hat as (n & Hn & Hkey). rewrite Hn. done.
  - intros n (i & Hi)%at_elem Hkey.
    assert (collator (SuffixArray.folded sa text) (SuffixArray.key n) = 0) as Hzero
      by (rewrite Hkey; apply collation_refl).
    destruct (Z.lt_trichotomy i (BinarySearch.rank result)) as [Hlt|[->|Hgt]].
    + pose proof (Hbelow _ _ Hlt Hi). lia.
    + pose proof (Hat _ Hi). lia.
    + pose proof (Habove _ _ Hgt Hi). lia.
Qed.

Lemma insert_descending (nodes : list (SuffixArray.SuffixArrayNode T)) k node :
  descending collator nodes →
  0 ≤ k ≤ Z.of_nat (length nodes) →
  (∀ i n, i < k → JsArray.at_ nodes i = Some n →
          collator (SuffixArray.key node) (SuffixArray.key n) < 0) →
  (∀ i n, k ≤ i → JsArray.at_ nodes i = Some n →
          0 < collator (SuffixArray.key node) (SuffixArray.key n)) →
  descending collator (JsArray.spliceIn nodes k node).
Proof.
  intros Hdesc Hk Hbelow Habove i j m n Hij.
  rewrite !at_spliceIn by done. intros Hm Hn.
  destruct (i <? k) eqn:Hik; [apply Z.ltb_lt in Hik|apply Z.ltb_ge in Hik];
    destruct (j <? k) eqn:Hjk; try apply Z.ltb_lt in Hjk; try apply Z.ltb_ge in Hjk;
    try lia.
  - by apply (Hdesc i j).
  - destruct (j =? k) eqn:Hjk'.
    + simplify_eq. by apply (Hbelow i).
    + apply Z.eqb_neq in Hjk'. apply (Hdesc i (j - 1)); [lia|done..].
  - destruct (i =? k) eqn:Hik'.
    + apply Z.eqb_eq in Hik' as ->. rewrite (proj2 (Z.eqb_neq _ _)) in Hn by lia.
      simplify_eq. apply collation_flip. apply (Habove (j - 1)); [lia|done].
    + apply Z.eqb_neq in Hik'. rewrite (proj2 (Z.eqb_neq _ _)) in Hn by lia.
      apply (Hdesc (i - 1) (j - 1)); [lia|done..].
Qed.

Lemma update_descending (nodes : list (SuffixArray.SuffixArrayNode T)) place node node' :
  descending collator nodes →
  JsArray.at_ nodes place = Some node →
  SuffixArray.key node' = SuffixArray.key node →
  descending collator (<[Z.to_nat place := node']> nodes).
Proof.
  intros Hdesc Hnode Hkey i j m n Hij. destruct (at_Some _ _ _ Hnode) as [Hplace _].
  rewrite !at_insert by done. intros Hm Hn.
  destruct (i =? place) eqn:Hi; [apply Z.eqb_eq in Hi as ->|];
    (destruct (j =? place) eqn:Hj; [apply Z.eqb_eq in Hj as ->|]); simplify_eq.
  - lia.
  - rewrite Hkey. by apply (Hdesc place j).
  - rewrite Hkey. by apply (Hdesc i place).
  - by apply (Hdesc i j).
Qed.

Lemma descending_key_unique (nodes : list (SuffixArray.SuffixArrayNode T)) i j m n :
  descending collator nodes →
  JsArray.at_ nodes i = Some m → JsArray.at_ nodes j = Some n →
  SuffixArray.key m = SuffixArray.key n → i = j.
Proof.
  intros Hdesc Hm Hn Hkey.
  destruct (Z.lt_trichotomy i j) as [Hlt|[->|Hgt]]; [|done|].
  - pose proof (Hdesc _ _ _ _ Hlt Hm Hn) as Hc. rewrite Hkey, collation_refl in Hc. lia.
  - pose proof (Hdesc _ _ _ _ Hgt Hn Hm) as Hc. rewrite Hkey, collation_refl in Hc. lia.
Qed.

Lemma spliceIn_elem {A} (array : list A) k x y :
  y ∈ JsArray.spliceIn array k x ↔ y = x ∨ y ∈ array.
Proof.
  unfold JsArray.spliceIn. rewrite elem_of_app, elem_of_cons.
  assert (y ∈ array
          ↔ y ∈ take (JsArray.relativeIndex array k) array
            ∨ y ∈ drop (JsArray.relativeIndex array k) array) as ->
    by (by rewrite <- elem_of_app, take_drop).
  tauto.
Qed.

Lemma addSuffix_spec item (sa : SuffixArray.t T) suffix :
  SuffixArray._caseSensitive sa = true →
  descending collator (SuffixArray._nodeArray sa) →
  ∃ sa',
    SuffixArray.addSuffix collator item sa suffix = (Ok (), sa')
    ∧ SuffixArray._caseSensitive sa' = true
    ∧ descending collator (SuffixArray._nodeArray sa')
    ∧ filedUnder (SuffixArray._nodeArray sa') suffix item
    ∧ (∀ k x, filedUnder (SuffixArray._nodeArray sa) k x →
              filedUnder (SuffixArray._nodeArray sa') k x)
    ∧ (∀ k x, filedUnder (SuffixArray._nodeArray sa') k x →
              filedUnder (SuffixArray._nodeArray sa) k x ∨ (k = suffix ∧ x = item)).
Proof.
  intros Hcs Hdesc. unfold SuffixArray.addSuffix.
  destruct (nodeFind_descending sa suffix Hdesc) as (found & -> & Hfound).
  unfold SuffixArray.folded in Hfound. rewrite Hcs in Hfound.
  destruct found as [[place node]|].
  - destruct Hfound as [Hnode Hkey]. destruct (at_Some _ _ _ Hnode) as [Hplace _].
    eexists. split; [done|]. simpl. split; [done|].
    split; [by eapply update_descending|].
    set (node' := SuffixArray.mkNode (SuffixArray.key node) (SuffixArray.items node ++ [item])).
    assert (JsArray.at_ (<[Z.to_nat place := node']> (SuffixArray._nodeArray sa)) place
            = Some node') as Hnode'
      by (by rewrite at_insert, Z.eqb_refl).
    split; [|split].
    + exists node'. split; [by apply at_Some in Hnode' as [_ ?]|]. split; [done|].
      simpl. apply elem_of_app. right. by left.
    + intros k x (n & (i & Hi)%at_elem & Hk & Hx).
      destruct (decide (i = place)) as [->|Hne].
      * simplify_eq. exists node'. split; [by apply at_Some in Hnode' as [_ ?]|].
        split; [done|]. simpl. apply elem_of_app. by left.
      * exists n. split; [|done].
        assert (JsArray.at_ (<[Z.to_nat place := node']> (SuffixArray._nodeArray sa)) i
                = Some n) as Hi'
          by (by rewrite at_insert, (proj2 (Z.eqb_neq _ _))).
        by apply at_Some in Hi' as [_ ?].
    + intros k x (n & (i & Hi)%at_elem & Hk & Hx). rewrite at_insert in Hi by done.
      destruct (i =? place) eqn:Hip.
      * simplify_eq. simpl in *. apply elem_of_app in Hx as [Hx|Hx].
        -- left. exists node. split; [by apply at_Some in Hnode as [_ ?]|done].
        -- apply list_elem_of_singleton in Hx as ->. by right.
      * left. exists n. split; [by apply at_Some in Hi as [_ ?]|done].
  - unfold SuffixArray._insertNode, BinarySearch.rank_. simpl.
    destruct (key_search _ suffix Hdesc) as (result & -> & Hrank & Hbelow & Habove & Hat).
    simpl. eexists. split; [done|]. simpl. split; [done|].
    destruct (BinarySearch.isExactMatch result).
    { destruct Hat as (n & Hn & Hkey). apply at_Some in Hn as [_ Hn].
      by apply Hfound in Hn. }
    split.
    { apply insert_descending; [done..|].
      intros i n Hi Hn. destruct (decide (i = BinarySearch.rank result)) as [->|Hne];
        [by apply Hat|]. apply (Habove i); [lia|done]. }
    split; [|split].
    + eexists. split; [apply spliceIn_elem; by left|]. split; [done|]. by left.
    + intros k x (n & Hn & Hk & Hx). exists n. split; [|done].
      apply spliceIn_elem. by right.
    + intros k x (n & Hn & Hk & Hx). apply spliceIn_elem in Hn as [->|Hn].
      * simpl in *. apply list_elem_of_singleton in Hx. by right.
      * left. by exists n.
Qed.

Lemma add_spec item suffixes : ∀ sa : SuffixArray.t T,
  SuffixArray._caseSensitive sa = true →
  descending collator (SuffixArray._nodeArray sa) →
  ∃ sa',
    SuffixArray.forEach (SuffixArray.addSuffix collator item) sa suffixes = (Ok (), sa')
    ∧ SuffixArray._caseSensitive sa' = true
    ∧ descending collator (SuffixArray._nodeArray sa')
    ∧ (∀ suffix, suffix ∈ suffixes → filedUnder (SuffixArray._nodeArray sa') suffix item)
    ∧ (∀ k x, filedUnder (SuffixArray._nodeArray sa) k x →
              filedUnder (SuffixArray._nodeArray sa') k x)
    ∧ (∀ k x, filedUnder (SuffixArray._nodeArray sa') k x →
              filedUnder (SuffixArray._nodeArray sa) k x ∨ (k ∈ suffixes ∧ x = item)).
Proof.
  induction suffixes as [|suffix suffixes IH]; intros sa Hcs Hdesc; simpl.
  { exists sa. split; [done|]. split; [done|]. split; [done|].
    split; [by intros ? ?%elem_of_nil|]. split; [done|]. by left. }
  destruct (addSuffix_spec item sa suffix Hcs Hdesc)
    as (sa1 & -> & Hcs1 & Hdesc1 & Hfiled & Hkeeps & Honly).
  destruct (IH sa1 Hcs1 Hdesc1) as (sa' & -> & Hcs' & Hdesc' & Hfiled' & Hkeeps' & Honly').
  exists sa'. split; [done|]. split; [done|]. split; [done|]. split; [|split].
  - intros k [->|Hk]%elem_of_cons; auto.
  - auto.
  - intros k x Hx. apply Honly' in Hx as [Hx|[? ->]].
    + apply Honly in Hx as [Hx|[-> ->]]; [by left|]. right. split; [by left|done].
    + right. split; [by right|done].
Qed.


Lemma drop_elem {A} (array : list A) k x :
  0 ≤ k → x ∈ drop (Z.to_nat k) array ↔ ∃ i, k ≤ i ∧ JsArray.at_ array i = Some x.
Proof.
  intros Hk. rewrite list_elem_of_lookup. split.
  - intros (j & Hj). rewrite lookup_drop in Hj. exists (k + Z.of_nat j). split; [lia|].
    unfold JsArray.at_. rewrite (proj2 (Z.ltb_ge _ _)) by lia.
    by replace (Z.to_nat (k + Z.of_nat j)) with (Z.to_nat k + j)%nat by lia.
  - intros (i & Hi & Hx). exists (Z.to_nat (i - k)). rewrite lookup_drop.
    unfold JsArray.at_ in Hx. rewrite (proj2 (Z.ltb_ge _ _)) in Hx by lia.
    by replace (Z.to_nat k + Z.to_nat (i - k))%nat with (Z.to_nat i) by lia.
Qed.


(** Whatever the order of the nodes, [_nodeFind] returns, and returns
    a node only of the key it was asked for. *)
Lemma nodeFind_key (sa : SuffixArray.t T) text :
  ∃ found,
    SuffixArray._nodeFind collator sa text = Ok found
    ∧ ∀ place node, found = Some (place, node) →
        node ∈ SuffixArray._nodeArray sa
        ∧ SuffixArray.key node = SuffixArray.folded sa text.
Proof.
  unfold SuffixArray._nodeFind.
  set (compare := λ n : SuffixArray.SuffixArrayNode T,
                    collator (SuffixArray.folded sa text) (SuffixArray.key n)).
  destruct (searchLoop_bounds (SuffixArray._nodeArray sa) compare _ _ _ _ (Z.le_refl 0)
              (Z.lt_pred_l (Z.of_nat (length (SuffixArray._nodeArray sa))))
              (_search_loop (SuffixArray._nodeArray sa) compare 0))
    as (result & -> & _ & Hexact).
  simpl. eexists. split; [done|]. intros place node.
  destruct (BinarySearch.isExactMatch result); [|done].
  destruct (Hexact eq_refl) as (x & Hx & Hzero). rewrite Hx. intros [= <- <-].
  split; [by apply at_Some in Hx as [_ ?]|].
  symmetry. by apply (collation_eq _ Hcollation).
Qed.

Lemma rank_returns (nodes : list (SuffixArray.SuffixArrayNode T)) compare :
  ∃ rank, BinarySearch.rank_ nodes compare = Ok rank.
Proof.
  unfold BinarySearch.rank_.
  destruct (searchLoop_bounds nodes compare _ _ _ _ (Z.le_refl 0)
              (Z.lt_pred_l (Z.of_nat (length nodes)))
              (_search_loop nodes compare 0)) as (result & -> & _).
  simpl. eauto.
Qed.

Lemma lowerChar_idempotent c : Js.lowerChar (Js.lowerChar c) = Js.lowerChar c.
Proof. by destruct c as [[] [] [] [] [] [] [] []]. Qed.

Lemma toLowerCase_idempotent s : Js.toLowerCase (Js.toLowerCase s) = Js.toLowerCase s.
Proof. induction s as [|c s IH]; simpl; [done|]. by rewrite lowerChar_idempotent, IH. Qed.

(** No node of the array has a key that [toLowerCase] leaves alone. *)
Lemma insensitive_not_found (sa : SuffixArray.t T) text :
  SuffixArray._caseSensitive sa = false →
  Forall (λ n, Js.toLowerCase (SuffixArray.key n) ≠ SuffixArray.key n)
    (SuffixArray._nodeArray sa) →
  SuffixArray._nodeFind collator sa text = Ok None.
Proof.
  intros Hcs Hmixed. destruct (nodeFind_key sa text) as (found & -> & Hfound).
  destruct found as [[place node]|]; [|done].
  destruct (Hfound _ _ eq_refl) as [Hnode Hkey].
  eapply Forall_forall in Hmixed; [|exact Hnode]. exfalso. apply Hmixed.
  rewrite Hkey. unfold SuffixArray.folded. rewrite Hcs. apply toLowerCase_idempotent.
Qed.

Lemma insensitive_add item suffixes : ∀ sa : SuffixArray.t T,
  SuffixArray._caseSensitive sa = false →
  Forall (λ n, Js.toLowerCase (SuffixArray.key n) ≠ SuffixArray.key n)
    (SuffixArray._nodeArray sa) →
  Forall (λ suffix, Js.toLowerCase suffix ≠ suffix) suffixes →
  ∃ sa',
    SuffixArray.forEach (SuffixArray.addSuffix collator item) sa suffixes = (Ok (), sa')
    ∧ SuffixArray._caseSensitive sa' = false
    ∧ Forall (λ n, Js.toLowerCase (SuffixArray.key n) ≠ SuffixArray.key n)
        (SuffixArray._nodeArray sa')
    ∧ length (SuffixArray._nodeArray sa')
      = (length (SuffixArray._nodeArray sa) + length suffixes)%nat.
Proof.
  induction suffixes as [|suffix suffixes IH]; intros sa Hcs Hmixed Hsuffixes; simpl.
  { exists sa. by rewrite Nat.add_0_r. }
  apply Forall_cons in Hsuffixes as [Hsuffix Hsuffixes].
  unfold SuffixArray.addSuffix. rewrite (insensitive_not_found sa suffix Hcs Hmixed).
  unfold SuffixArray._insertNode.
  destruct (rank_returns (SuffixArray._nodeArray sa)
              (λ n, collator suffix (SuffixArray.key n))) as [rank Hrank].
  simpl. rewrite Hrank. simpl.
  destruct (IH (SuffixArray.mk
                  (JsArray.spliceIn (SuffixArray._nodeArray sa) rank
                     (SuffixArray.mkNode suffix [item]))
                  (SuffixArray._caseSensitive sa)))
    as (sa' & Hsa' & Hcs' & Hmixed' & Hlength); [done| |done|].
  { simpl. apply Forall_forall. intros n [->|Hn]%spliceIn_elem; [done|].
    by eapply Forall_forall in Hmixed. }
  exists sa'. split; [exact Hsa'|]. split; [done|]. split; [done|].
  rewrite Hlength. simpl. unfold JsArray.spliceIn.
  rewrite length_app. simpl. rewrite length_take, length_drop. lia.
Qed.


(** *** [add] and [remove] file and unfile *)

Lemma descending_sorted (nodes : list (SuffixArray.SuffixArrayNode T)) :
  descending collator nodes
  ↔ StronglySorted (λ m n, collator (SuffixArray.key n) (SuffixArray.key m) < 0) nodes.
Proof.
  induction nodes as [|x nodes IH].
  { split; [constructor|]. intros _ i j m n _ Hm. by apply at_Some in Hm as [_ ?%elem_of_nil]. }
  rewrite StronglySorted_cons, <- IH. split.
  - intros Hdesc. split.
    + apply Forall_forall. intros n (j & Hj)%at_elem.
      destruct (at_Some _ _ _ Hj) as [? _].
      apply (Hdesc 0 (j + 1)); [lia|done|].
      rewrite at_cons, (proj2 (Z.eqb_neq _ _)) by lia.
      by replace (j + 1 - 1) with j by lia.
    + intros i j m n Hij Hm Hn. destruct (at_Some _ _ _ Hm) as [? _].
      apply (Hdesc (i + 1) (j + 1)); [lia|..];
        rewrite at_cons, (proj2 (Z.eqb_neq _ _)) by lia.
      * by replace (i + 1 - 1) with i by lia.
      * by replace (j + 1 - 1) with j by lia.
  - intros [Hx Hdesc] i j m n Hij. rewrite !at_cons. intros Hm Hn.
    destruct (i =? 0) eqn:Hi.
    + apply Z.eqb_eq in Hi as ->. rewrite (proj2 (Z.eqb_neq _ _)) in Hn by lia.
      simplify_eq. eapply Forall_forall in Hx; [exact Hx|].
      by apply at_Some in Hn as [_ ?].
    + apply Z.eqb_neq in Hi. destruct (at_Some _ _ _ Hm) as [? _].
      rewrite (proj2 (Z.eqb_neq _ _)) in Hn by lia.
      apply (Hdesc (i - 1) (j - 1)); [lia|done..].
Qed.

Lemma descending_NoDup (nodes : list (SuffixArray.SuffixArrayNode T)) :
  descending collator nodes → NoDup nodes.
Proof.
  intros Hdesc. apply NoDup_alt. intros i j n Hi Hj.
  assert (Z.of_nat i = Z.of_nat j); [|lia].
  eapply (descending_key_unique nodes _ _ n n Hdesc); [| |done];
    unfold JsArray.at_; rewrite (proj2 (Z.ltb_ge _ _)) by lia; by rewrite Nat2Z.id.
Qed.

(** Two arrays in descending order that hold the same nodes are one
    array. *)
Lemma descending_unique (nodes nodes' : list (SuffixArray.SuffixArrayNode T)) :
  descending collator nodes → descending collator nodes' →
  (∀ n, n ∈ nodes ↔ n ∈ nodes') → nodes = nodes'.
Proof.
  intros Hdesc Hdesc' Hsame.
  eapply StronglySorted_unique_strong;
    [|by apply descending_sorted|by apply descending_sorted|].
  - intros m n _ _ Hmn Hnm. simpl in *. apply collation_flip in Hmn. lia.
  - apply NoDup_Permutation; auto using descending_NoDup.
Qed.

Lemma itemsAt_cases (nodes : list (SuffixArray.SuffixArrayNode T)) k :
  (∃ n, n ∈ nodes ∧ SuffixArray.key n = k ∧ itemsAt nodes k = SuffixArray.items n)
  ∨ ((∀ n, n ∈ nodes → SuffixArray.key n ≠ k) ∧ itemsAt nodes k = []).
Proof.
  unfold itemsAt.
  destruct (List.find _ nodes) as [n|] eqn:Hfind.
  - left. apply find_some in Hfind as [Hn Hk]. apply String.eqb_eq in Hk.
    exists n. by rewrite list_elem_of_In.
  - right. split; [|done]. intros n Hn Hk.
    apply list_elem_of_In in Hn. apply (find_none _ _ Hfind) in Hn.
    apply String.eqb_neq in Hn. done.
Qed.

Lemma itemsAt_node (nodes : list (SuffixArray.SuffixArrayNode T)) n :
  descending collator nodes → n ∈ nodes →
  itemsAt nodes (SuffixArray.key n) = SuffixArray.items n.
Proof.
  intros Hdesc Hn.
  destruct (itemsAt_cases nodes (SuffixArray.key n)) as [(m & Hm & Hk & ->)|[Hnone _]];
    [|by apply Hnone in Hn].
  apply at_elem in Hn as (i & Hi). apply at_elem in Hm as (j & Hj).
  assert (j = i) as -> by (by eapply descending_key_unique).
  by simplify_eq.
Qed.

Lemma itemsAt_none (nodes : list (SuffixArray.SuffixArrayNode T)) k :
  (∀ n, n ∈ nodes → SuffixArray.key n ≠ k) → itemsAt nodes k = [].
Proof.
  intros Hnone.
  destruct (itemsAt_cases nodes k) as [(m & Hm & Hk & _)|[_ ?]]; [|done].
  by apply Hnone in Hm.
Qed.

(** The items under a key depend on the nodes of that key only. *)
Lemma itemsAt_same (nodes nodes' : list (SuffixArray.SuffixArrayNode T)) k :
  descending collator nodes → descending collator nodes' →
  (∀ n, SuffixArray.key n = k → n ∈ nodes ↔ n ∈ nodes') →
  itemsAt nodes k = itemsAt nodes' k.
Proof.
  intros Hdesc Hdesc' Hsame.
  destruct (itemsAt_cases nodes k) as [(n & Hn & Hk & ->)|[Hnone ->]].
  - apply (Hsame _ Hk) in Hn. by rewrite <- Hk, (itemsAt_node _ _ Hdesc' Hn).
  - symmetry. apply itemsAt_none. intros n Hn Hk. apply (Hsame _ Hk) in Hn.
    by apply Hnone in Hn.
Qed.

Lemma at_spliceOut {A} (array : list A) k i :
  0 ≤ k < Z.of_nat (length array) →
  JsArray.at_ (JsArray.spliceOut array k) i
  = if i <? k then JsArray.at_ array i else JsArray.at_ array (i + 1).
Proof.
  intros Hk. unfold JsArray.spliceOut. rewrite relativeIndex_inside by lia.
  replace (Z.min k (Z.of_nat (length array))) with k by lia.
  unfold JsArray.at_. destruct (i <? 0) eqn:Hi.
  { apply Z.ltb_lt in Hi. by rewrite (proj2 (Z.ltb_lt _ _)) by lia. }
  apply Z.ltb_ge in Hi. destruct (i <? k) eqn:Hlt.
  - apply Z.ltb_lt in Hlt. rewrite lookup_app_l by (rewrite length_take; lia).
    apply lookup_take_lt. lia.
  - apply Z.ltb_ge in Hlt. rewrite lookup_app_r by (rewrite length_take; lia).
    rewrite length_take, lookup_drop, (proj2 (Z.ltb_ge _ _)) by lia. f_equal. lia.
Qed.

Lemma spliceOut_descending (nodes : list (SuffixArray.SuffixArrayNode T)) k :
  descending collator nodes → 0 ≤ k < Z.of_nat (length nodes) →
  descending collator (JsArray.spliceOut nodes k).
Proof.
  intros Hdesc Hk i j m n Hij. rewrite !at_spliceOut by done. intros Hm Hn.
  destruct (i <? k) eqn:Hik; [apply Z.ltb_lt in Hik|apply Z.ltb_ge in Hik];
    (destruct (j <? k) eqn:Hjk; [apply Z.ltb_lt in Hjk|apply Z.ltb_ge in Hjk]);
    try lia.
  - by apply (Hdesc i j).
  - apply (Hdesc i (j + 1)); [lia|done..].
  - apply (Hdesc (i + 1) (j + 1)); [lia|done..].
Qed.

Lemma spliceOut_elem (nodes : list (SuffixArray.SuffixArrayNode T)) k node n :
  descending collator nodes → JsArray.at_ nodes k = Some node →
  n ∈ JsArray.spliceOut nodes k ↔ n ∈ nodes ∧ SuffixArray.key n ≠ SuffixArray.key node.
Proof.
  intros Hdesc Hnode. destruct (at_Some _ _ _ Hnode) as [Hk _]. split.
  - intros (i & Hi)%at_elem. rewrite at_spliceOut in Hi by done.
    destruct (i <? k) eqn:Hik; [apply Z.ltb_lt in Hik|apply Z.ltb_ge in Hik].
    + split; [by apply at_Some in Hi as [_ ?]|]. intros Hkey.
      pose proof (descending_key_unique _ _ _ _ _ Hdesc Hi Hnode Hkey). lia.
    + split; [by apply at_Some in Hi as [_ ?]|]. intros Hkey.
      pose proof (descending_key_unique _ _ _ _ _ Hdesc Hi Hnode Hkey). lia.
  - intros [(i & Hi)%at_elem Hkey].
    assert (i ≠ k) as Hne by (intros ->; by simplify_eq).
    destruct (at_Some _ _ _ Hi) as [? _].
    destruct (Z.lt_ge_cases i k).
    + assert (JsArray.at_ (JsArray.spliceOut nodes k) i = Some n) as Hi'
        by (by rewrite at_spliceOut, (proj2 (Z.ltb_lt _ _))).
      by apply at_Some in Hi' as [_ ?].
    + assert (JsArray.at_ (JsArray.spliceOut nodes k) (i - 1) = Some n) as Hi'.
      { rewrite at_spliceOut, (proj2 (Z.ltb_ge _ _)) by lia.
        by replace (i - 1 + 1) with i by lia. }
      by apply at_Some in Hi' as [_ ?].
Qed.

Lemma update_elem (nodes : list (SuffixArray.SuffixArrayNode T)) place node node' n :
  descending collator nodes → JsArray.at_ nodes place = Some node →
  n ∈ <[Z.to_nat place := node']> nodes
  ↔ n = node' ∨ (n ∈ nodes ∧ SuffixArray.key n ≠ SuffixArray.key node).
Proof.
  intros Hdesc Hnode. destruct (at_Some _ _ _ Hnode) as [Hplace _]. split.
  - intros (i & Hi)%at_elem. rewrite at_insert in Hi by done.
    destruct (i =? place) eqn:Hip; [left; by simplify_eq|]. apply Z.eqb_neq in Hip.
    right. split; [by apply at_Some in Hi as [_ ?]|]. intros Hkey.
    by pose proof (descending_key_unique _ _ _ _ _ Hdesc Hi Hnode Hkey).
  - intros [->|[(i & Hi)%at_elem Hkey]].
    + assert (JsArray.at_ (<[Z.to_nat place := node']> nodes) place = Some node') as Hi'
        by (by rewrite at_insert, Z.eqb_refl).
      by apply at_Some in Hi' as [_ ?].
    + assert (i ≠ place) as Hne by (intros ->; by simplify_eq).
      assert (JsArray.at_ (<[Z.to_nat place := node']> nodes) i = Some n) as Hi'
        by (by rewrite at_insert, (proj2 (Z.eqb_neq _ _))).
      by apply at_Some in Hi' as [_ ?].
Qed.

Lemma addSuffix_files item (sa : SuffixArray.t T) suffix :
  wellFormed collator sa →
  ∃ sa',
    SuffixArray.addSuffix collator item sa suffix = (Ok (), sa')
    ∧ wellFormed collator sa'
    ∧ ∀ k, itemsAt (SuffixArray._nodeArray sa') k
           = itemsAt (SuffixArray._nodeArray sa) k
             ++ (if decide (k = suffix) then [item] else []).
Proof.
  intros (Hcs & Hdesc & Hfull). unfold SuffixArray.addSuffix.
  destruct (nodeFind_descending sa suffix Hdesc) as (found & -> & Hfound).
  unfold SuffixArray.folded in Hfound. rewrite Hcs in Hfound.
  destruct found as [[place node]|].
  - destruct Hfound as [Hnode Hkey].
    set (node' := SuffixArray.mkNode (SuffixArray.key node) (SuffixArray.items node ++ [item])).
    assert (Hdesc' : descending collator
                       (<[Z.to_nat place := node']> (SuffixArray._nodeArray sa)))
      by (by eapply update_descending).
    eexists. split; [done|]. split.
    { split; [done|]. split; [done|]. simpl. apply Forall_insert; [done|].
      simpl. by destruct (SuffixArray.items node). }
    intros k. simpl. destruct (decide (k = suffix)) as [->|Hne].
    + rewrite <- Hkey. rewrite (itemsAt_node _ node Hdesc) by (by apply at_Some in Hnode as [_ ?]).
      change (SuffixArray.key node) with (SuffixArray.key node').
      rewrite (itemsAt_node _ node' Hdesc'); [done|].
      apply (update_elem _ _ _ _ _ Hdesc Hnode). by left.
    + rewrite app_nil_r. symmetry. apply itemsAt_same; [done..|].
      intros n Hn. rewrite (update_elem _ _ _ _ _ Hdesc Hnode). split.
      * intros ?. right. split; [done|]. congruence.
      * intros [->|[? _]]; [|done]. simpl in Hn. congruence.
  - unfold SuffixArray._insertNode, BinarySearch.rank_. simpl.
    destruct (key_search _ suffix Hdesc) as (result & -> & Hrank & Hbelow & Habove & Hat).
    simpl.
    destruct (BinarySearch.isExactMatch result).
    { destruct Hat as (n & Hn & Hkey). apply at_Some in Hn as [_ Hn].
      by apply Hfound in Hn. }
    set (node := SuffixArray.mkNode suffix [item]).
    assert (Hdesc' : descending collator
                       (JsArray.spliceIn (SuffixArray._nodeArray sa)
                          (BinarySearch.rank result) node)).
    { apply insert_descending; [done..|].
      intros i n Hi Hn. destruct (decide (i = BinarySearch.rank result)) as [->|Hne];
        [by apply Hat|]. apply (Habove i); [lia|done]. }
    eexists. split; [done|]. split.
    { split; [done|]. split; [done|]. simpl. apply Forall_forall.
      intros n [->|Hn]%spliceIn_elem; [done|]. by eapply Forall_forall in Hfull. }
    intros k. simpl. destruct (decide (k = suffix)) as [->|Hne].
    + rewrite (itemsAt_none _ _ Hfound). simpl.
      change suffix with (SuffixArray.key node) at 1.
      apply (itemsAt_node _ node Hdesc'). apply spliceIn_elem. by left.
    + rewrite app_nil_r. symmetry. apply itemsAt_same; [done..|].
      intros n Hn. rewrite spliceIn_elem. split; [by right|].
      intros [->|?]; [|done]. simpl in Hn. congruence.
Qed.

Lemma removeItem_absent (item : T) l : item ∉ l → SuffixArray.removeItem item l = l.
Proof.
  induction l as [|x l IH]; simpl; [done|]. intros Hin.
  destruct (decide (x = item)) as [->|]; [exfalso; apply Hin; by left|].
  rewrite IH; [done|]. intros ?. apply Hin. by right.
Qed.

Lemma removeSuffix_unfiles item (sa : SuffixArray.t T) suffix :
  wellFormed collator sa →
  ∃ sa',
    SuffixArray.removeSuffix collator item sa suffix = (Ok (), sa')
    ∧ wellFormed collator sa'
    ∧ ∀ k, itemsAt (SuffixArray._nodeArray sa') k
           = if decide (k = suffix)
             then SuffixArray.removeItem item (itemsAt (SuffixArray._nodeArray sa) k)
             else itemsAt (SuffixArray._nodeArray sa) k.
Proof.
  intros (Hcs & Hdesc & Hfull). unfold SuffixArray.removeSuffix.
  destruct (nodeFind_descending sa suffix Hdesc) as (found & -> & Hfound).
  unfold SuffixArray.folded in Hfound. rewrite Hcs in Hfound.
  destruct found as [[place node]|].
  2:{ exists sa. split; [done|]. split; [done|]. intros k.
      destruct (decide (k = suffix)) as [->|]; [|done].
      by rewrite (itemsAt_none _ _ Hfound). }
  destruct Hfound as [Hnode Hkey]. destruct (at_Some _ _ _ Hnode) as [Hplace Hin].
  pose proof (itemsAt_node _ node Hdesc Hin) as Hitems. rewrite Hkey in Hitems.
  destruct (decide (item ∈ SuffixArray.items node)) as [Hitem|Hitem].
  2:{ exists sa. split; [done|]. split; [done|]. intros k.
      destruct (decide (k = suffix)) as [->|]; [|done].
      by rewrite Hitems, removeItem_absent. }
  set (node' := SuffixArray.mkNode (SuffixArray.key node)
                  (SuffixArray.removeItem item (SuffixArray.items node))).
  set (nodes' := <[Z.to_nat place := node']> (SuffixArray._nodeArray sa)).
  assert (Hdesc' : descending collator nodes') by (by eapply update_descending).
  assert (Hnode' : JsArray.at_ nodes' place = Some node')
    by (unfold nodes'; by rewrite at_insert, Z.eqb_refl).
  assert (Hothers : ∀ k, k ≠ suffix → ∀ nodes'',
            descending collator nodes'' →
            (∀ n, n ∈ nodes''
                  ↔ n ∈ nodes' ∧ (n = node' → SuffixArray.items node' ≠ [])) →
            itemsAt nodes'' k = itemsAt (SuffixArray._nodeArray sa) k).
  { intros k Hne nodes'' Hdesc'' Hnodes''. apply itemsAt_same; [done..|].
    intros n Hn. rewrite Hnodes''. unfold nodes'.
    rewrite (update_elem _ _ _ _ _ Hdesc Hnode). split.
    - intros [[->|[? _]] _]; [|done]. simpl in Hn. congruence.
    - intros ?. split; [right; split; [done|congruence]|].
      intros ->. simpl in Hn. congruence. }
  simpl. fold node'. fold nodes'.
  destruct (SuffixArray.removeItem item (SuffixArray.items node)) as [|x rest] eqn:Hrest.
  - unfold SuffixArray._deleteNode, BinarySearch.rank_. simpl.
    destruct (key_search nodes' (SuffixArray.key node) Hdesc')
      as (result & -> & Hrank & Hbelow & Habove & Hat).
    simpl.
    assert (BinarySearch.rank result = place) as ->.
    { destruct (Z.lt_trichotomy place (BinarySearch.rank result)) as [Hlt|[<-|Hgt]];
        [|done|].
      - pose proof (Hbelow _ _ Hlt Hnode') as Hc. simpl in Hc.
        rewrite collation_refl in Hc. lia.
      - pose proof (Habove _ _ Hgt Hnode') as Hc. simpl in Hc.
        rewrite collation_refl in Hc. lia. }
    rewrite Z.eqb_refl.
    assert (0 ≤ place < Z.of_nat (length nodes')) as Hplace'
      by (unfold nodes'; by rewrite length_insert).
    assert (Hdesc'' : descending collator (JsArray.spliceOut nodes' place))
      by (by apply spliceOut_descending).
    eexists. split; [done|]. split.
    { split; [done|]. split; [done|]. simpl. apply Forall_forall. intros n Hn.
      apply (spliceOut_elem _ _ _ _ Hdesc' Hnode') in Hn as [Hn Hk].
      apply (update_elem _ _ _ _ _ Hdesc Hnode) in Hn as [->|[Hn _]]; [done|].
      by eapply Forall_forall in Hfull. }
    intros k. simpl. destruct (decide (k = suffix)) as [->|Hne].
    + rewrite Hitems, Hrest. apply itemsAt_none. intros n Hn.
      apply (spliceOut_elem _ _ _ _ Hdesc' Hnode') in Hn as [_ Hk]. simpl in Hk. congruence.
    + apply Hothers; [done..|]. intros n.
      rewrite (spliceOut_elem _ _ _ _ Hdesc' Hnode'). simpl. split.
      * intros [? Hk]. split; [done|]. intros ->. done.
      * intros [Hn Hnot]. split; [done|]. intros Hk. apply Hnot; [|done].
        apply at_elem in Hn as (i & Hi).
        pose proof (descending_key_unique nodes' i place n node' Hdesc' Hi Hnode' Hk) as ->.
        by simplify_eq.
  - eexists. split; [done|]. split.
    { split; [done|]. split; [done|]. simpl. by apply Forall_insert. }
    intros k. simpl. destruct (decide (k = suffix)) as [->|Hne].
    + rewrite Hitems, Hrest, <- Hkey.
      change (SuffixArray.key node) with (SuffixArray.key node').
      rewrite (itemsAt_node _ node' Hdesc'); [done|]. by apply at_Some in Hnode' as [_ ?].
    + apply Hothers; [done..|]. intros n. split; [|tauto]. intros ?. split; [done|].
      intros _. done.
Qed.

Lemma add_files item suffixes : ∀ sa : SuffixArray.t T,
  wellFormed collator sa →
  ∃ sa',
    SuffixArray.forEach (SuffixArray.addSuffix collator item) sa suffixes = (Ok (), sa')
    ∧ wellFormed collator sa'
    ∧ ∀ k, itemsAt (SuffixArray._nodeArray sa') k
           = itemsAt (SuffixArray._nodeArray sa) k ++ replicate (occurrences k suffixes) item.
Proof.
  induction suffixes as [|suffix suffixes IH]; intros sa Hsa; simpl.
  { exists sa. split; [done|]. split; [done|]. intros k. by rewrite app_nil_r. }
  destruct (addSuffix_files item sa suffix Hsa) as (sa1 & -> & Hsa1 & Hitems1).
  destruct (IH sa1 Hsa1) as (sa' & -> & Hsa' & Hitems').
  exists sa'. split; [done|]. split; [done|]. intros k.
  rewrite Hitems', Hitems1, <- app_assoc. f_equal. unfold occurrences. simpl.
  destruct (decide (k = suffix)) as [->|Hne].
  - by rewrite bool_decide_eq_true_2.
  - by rewrite bool_decide_eq_false_2 by congruence.
Qed.

Lemma remove_unfiles item suffixes : ∀ sa : SuffixArray.t T,
  wellFormed collator sa →
  ∃ sa',
    SuffixArray.forEach (SuffixArray.removeSuffix collator item) sa suffixes = (Ok (), sa')
    ∧ wellFormed collator sa'
    ∧ ∀ k, itemsAt (SuffixArray._nodeArray sa') k
           = Nat.iter (occurrences k suffixes) (SuffixArray.removeItem item)
               (itemsAt (SuffixArray._nodeArray sa) k).
Proof.
  induction suffixes as [|suffix suffixes IH]; intros sa Hsa; simpl.
  { exists sa. by split. }
  destruct (removeSuffix_unfiles item sa suffix Hsa) as (sa1 & -> & Hsa1 & Hitems1).
  destruct (IH sa1 Hsa1) as (sa' & -> & Hsa' & Hitems').
  exists sa'. split; [done|]. split; [done|]. intros k.
  rewrite Hitems', Hitems1. unfold occurrences. simpl.
  destruct (decide (k = suffix)) as [->|Hne].
  - rewrite bool_decide_eq_true_2 by done. cbn [length]. by rewrite Nat.iter_succ_r.
  - by rewrite bool_decide_eq_false_2 by congruence.
Qed.

Lemma removeItem_app_fresh (item : T) l rest :
  item ∉ l → SuffixArray.removeItem item (l ++ item :: rest) = l ++ rest.
Proof.
  induction l as [|x l IH]; simpl; intros Hin.
  - by rewrite decide_True.
  - rewrite decide_False by (intros ->; apply Hin; by left).
    rewrite IH; [done|]. intros ?. apply Hin. by right.
Qed.

Lemma removeItem_replicate (item : T) l : ∀ n,
  item ∉ l →
  Nat.iter n (SuffixArray.removeItem item) (l ++ replicate n item) = l.
Proof.
  induction n as [|n IH]; intros Hin; simpl.
  - by rewrite app_nil_r.
  - rewrite <- Nat.iter_succ, Nat.iter_succ_r, removeItem_app_fresh by done. auto.
Qed.

Lemma occurrences_elem k suffixes : (0 < occurrences k suffixes)%nat → k ∈ suffixes.
Proof.
  unfold occurrences. induction suffixes as [|suffix suffixes IH]; simpl; [lia|].
  case_bool_decide as Hk; [subst; by left|]. right. auto.
Qed.

(** Two well-formed arrays that file the same items under every key are
    one array. *)
Lemma wellFormed_eq (sa sa' : SuffixArray.t T) :
  wellFormed collator sa → wellFormed collator sa' →
  (∀ k, itemsAt (SuffixArray._nodeArray sa) k = itemsAt (SuffixArray._nodeArray sa') k) →
  sa = sa'.
Proof.
  intros (Hcs & Hdesc & Hfull) (Hcs' & Hdesc' & Hfull') Hitems.
  assert (Hsub : ∀ nodes nodes' : list (SuffixArray.SuffixArrayNode T),
            descending collator nodes → descending collator nodes' →
            Forall (λ n, SuffixArray.items n ≠ []) nodes →
            (∀ k, itemsAt nodes k = itemsAt nodes' k) →
            ∀ n, n ∈ nodes → n ∈ nodes').
  { intros nodes nodes' Hd Hd' Hf Hi n Hn.
    pose proof (itemsAt_node _ _ Hd Hn) as Hat. rewrite Hi in Hat.
    destruct (itemsAt_cases nodes' (SuffixArray.key n)) as [(m & Hm & Hk & Hm')|[_ Hnone]].
    - rewrite Hat in Hm'. destruct m, n. simpl in *. by subst.
    - eapply Forall_forall in Hf; [|exact Hn]. congruence. }
  destruct sa as [nodes cs], sa' as [nodes' cs']. simpl in *. subst. f_equal.
  apply descending_unique; [done..|]. intros n. split; eauto.
Qed.


End SuffixArrayProperties.

(** ** The suffix array of the scenarios *)

Lemma compare_refl s : String.compare s s = Eq.
Proof.
  induction s as [|c s IH]; simpl; [done|].
  unfold Ascii.compare. by rewrite N.compare_refl.
Qed.

Lemma compare_Lt_trans a : ∀ b c,
  String.compare a b = Lt → String.compare b c = Lt → String.compare a c = Lt.
Proof.
  induction a as [|x a IH]; intros [|y b] [|z c]; simpl; try done.
  unfold Ascii.compare.
  destruct (N.compare_spec (N_of_ascii x) (N_of_ascii y)) as [Hxy|Hxy|Hxy]; [| |done];
    destruct (N.compare_spec (N_of_ascii y) (N_of_ascii z)) as [Hyz|Hyz|Hyz];
    try done.
  - rewrite Hxy, Hyz, N.compare_refl. apply IH.
  - intros _ _. rewrite Hxy. by apply N.compare_lt_iff in Hyz as ->.
  - intros _ _. rewrite <- Hyz. by apply N.compare_lt_iff in Hxy as ->.
  - intros _ _. assert (N_of_ascii x < N_of_ascii z)%N as Hxz by lia.
    by apply N.compare_lt_iff in Hxz as ->.
Qed.

Lemma codeUnitOrder_Lt a b : Samples.codeUnitOrder a b < 0 ↔ String.compare a b = Lt.
Proof.
  unfold Samples.codeUnitOrder. destruct (String.compare a b); split; (done || lia).
Qed.

Lemma collation_codeUnitOrder : collation Samples.codeUnitOrder.
Proof.
  split.
  - intros a b. unfold Samples.codeUnitOrder. split.
    + destruct (String.compare a b) eqn:Hab; [|done..].
      intros _. by apply String.compare_eq_iff.
    + intros ->. by rewrite compare_refl.
  - intros a b. unfold Samples.codeUnitOrder.
    rewrite (String.compare_antisym b a). by destruct (String.compare a b).
  - intros a b c. rewrite !codeUnitOrder_Lt. apply compare_Lt_trans.
Qed.

Lemma prefixFirst_codeUnitOrder : prefixFirst Samples.codeUnitOrder.
Proof.
  intros text key Hprefix Hne. apply codeUnitOrder_Lt.
  revert key Hprefix Hne.
  induction text as [|x text IH]; intros [|y key]; simpl; try done.
  destruct (Ascii.ascii_dec x y) as [->|]; [|done].
  intros Hprefix Hne. unfold Ascii.compare. rewrite N.compare_refl.
  apply IH; [done|]. by intros ->.
Qed.


(** The word [ba] is filed under [ba] and [a]; the word [ab] then
    comes under the new keys [b] and [ab], between them. *)
Example add_of_words :
  SuffixArray.add Samples.codeUnitOrder Samples.suffixes (SuffixArray.new true) "ba"
  = (Ok (), Samples.ofBa)
  ∧ SuffixArray.add Samples.codeUnitOrder Samples.suffixes Samples.ofBa "ab"
    = (Ok (),
       SuffixArray.mk
         [SuffixArray.mkNode "ba" ["ba"]; SuffixArray.mkNode "b" ["ab"];
          SuffixArray.mkNode "ab" ["ab"]; SuffixArray.mkNode "a" ["ba"]] true).
Proof. split; by vm_compute. Qed.


(** Among the words [c], [ba], [b] and [a] the text [b] matches [b] and
    [a], and not [ba]. *)
Example match_of_words :
  SuffixArray.match_ Samples.codeUnitOrder Samples.words "b" = Ok ["b"; "a"].
Proof. by vm_compute. Qed.


(** In a case-insensitive array the word [Foo] is filed under [Foo] and
    looked for under [foo]: it is neither matched nor removed. *)
Example Foo_is_lost :
  ∃ sa',
    SuffixArray.add Samples.codeUnitOrder Samples.whole (SuffixArray.new false) "Foo"
    = (Ok (), sa')
    ∧ SuffixArray._nodeFind Samples.codeUnitOrder sa' "Foo" = Ok None
    ∧ SuffixArray.remove Samples.codeUnitOrder Samples.whole sa' "Foo" = (Ok (), sa').
Proof. eexists. repeat split; by vm_compute. Qed.

